(** * NativeEngine: touch tracking, EGL handle lifecycle and frame driving

    A shallow embedding of [native_engine.cpp] / [native_engine.hpp].

    - C [float] is IEEE binary32, modelled with the standard library's
      [spec_float] operations at precision 24 and maximal exponent 128.
    - [int], [int32_t], [uint32_t] and the opaque EGL handles are [Z];
      [EGL_NO_DISPLAY], [EGL_NO_SURFACE] and [EGL_NO_CONTEXT] are the null
      handle [0].
    - Member functions are computations in a small monad that threads the
      engine object, records the platform calls, log lines and callback
      invocations they perform (in program order), and can abort
      ([MY_ASSERT], undefined behaviour on an out-of-range array index).
    - Whatever the platform answers (EGL return values, heap allocation,
      the math library) is supplied by a [Platform] record. *)

From Stdlib Require Import ZArith List Bool String Lia.
From Stdlib Require Import Floats.SpecFloat.
Import ListNotations.

#[local] Open Scope string_scope.
#[local] Open Scope list_scope.
#[local] Open Scope Z_scope.

(* ================================================================= *)
(** ** C [float] *)

Module F32.

Definition prec : Z := 24.
Definition emax : Z := 128.

Definition float : Type := spec_float.

(** [static_cast<float>(int)]: round to nearest, ties to even. *)
Definition of_int (z : Z) : float := binary_normalize prec emax z 0 false.

Definition add : float -> float -> float := SFadd prec emax.
Definition sub : float -> float -> float := SFsub prec emax.
Definition mul : float -> float -> float := SFmul prec emax.
Definition div : float -> float -> float := SFdiv prec emax.
Definition leb : float -> float -> bool := SFleb.

Definition zero : float := S754_zero false.
Definition one : float := of_int 1.

(** A decimal literal [n / d] with [n] and [d] exactly representable. *)
Definition ratio (n d : Z) : float := div (of_int n) (of_int d).

(** [0 <= x && x <= 1] as C evaluates it. *)
Definition in_unit_interval (x : float) : bool := leb zero x && leb x one.

End F32.

Abbreviation float := F32.float.

(* ================================================================= *)
(** ** Data of [native_engine.hpp] and of the GameActivity input buffer *)

Record Position : Type := mkPosition { x : float; y : float }.

Record gl_vertex_t : Type := mk_gl_vertex {
  r : float; g : float; b : float; alpha : float;
  vx : float; vy : float; offset_x : float; offset_y : float
}.

(** One slot of [GameActivityMotionEvent::pointers]: the id and the two
    axis values read by [GameActivityPointerAxes_getX] / [_getY]. *)
Record GameActivityPointerAxes : Type := mkAxes {
  axes_id : Z;
  axes_X : float;
  axes_Y : float
}.

Record GameActivityMotionEvent : Type := mkMotionEvent {
  action : Z;
  pointerCount : Z;
  pointers : list GameActivityPointerAxes
}.

Record android_input_buffer : Type := mkInputBuffer {
  motionEvents : list GameActivityMotionEvent
}.

Definition motionEventsCount (ib : android_input_buffer) : Z :=
  Z.of_nat (List.length (motionEvents ib)).

(** Constants of the platform headers ([GameActivity.h],
    [android/input.h]), which the source only names. *)
Definition GAMEACTIVITY_MAX_NUM_POINTERS_IN_MOTION_EVENT : Z := 8.

Definition AMOTION_EVENT_ACTION_MASK : Z := 255.
Definition AMOTION_EVENT_ACTION_POINTER_INDEX_MASK : Z := 65280.
Definition AMOTION_EVENT_ACTION_POINTER_INDEX_SHIFT : Z := 8.
Definition AMOTION_EVENT_ACTION_DOWN : Z := 0.
Definition AMOTION_EVENT_ACTION_UP : Z := 1.
Definition AMOTION_EVENT_ACTION_MOVE : Z := 2.
Definition AMOTION_EVENT_ACTION_CANCEL : Z := 3.
Definition AMOTION_EVENT_ACTION_POINTER_DOWN : Z := 5.
Definition AMOTION_EVENT_ACTION_POINTER_UP : Z := 6.

Module TouchScreenEvent.

Inductive Type_ : Type := Up | Down | Move.

Record t : Type := mk {
  type : Type_;
  id : Z;
  min : Position;
  max : Position;
  pos : Position;
  norm_pos : Position;
  move_ndelta : Position;
  motion_event : GameActivityMotionEvent;
  pointer_index : Z
}.

Definition set_type (v : Type_) (e : t) : t :=
  mk v (id e) (min e) (max e) (pos e) (norm_pos e) (move_ndelta e)
     (motion_event e) (pointer_index e).
Definition set_id (v : Z) (e : t) : t :=
  mk (type e) v (min e) (max e) (pos e) (norm_pos e) (move_ndelta e)
     (motion_event e) (pointer_index e).
Definition set_min (v : Position) (e : t) : t :=
  mk (type e) (id e) v (max e) (pos e) (norm_pos e) (move_ndelta e)
     (motion_event e) (pointer_index e).
Definition set_max (v : Position) (e : t) : t :=
  mk (type e) (id e) (min e) v (pos e) (norm_pos e) (move_ndelta e)
     (motion_event e) (pointer_index e).
Definition set_pos (v : Position) (e : t) : t :=
  mk (type e) (id e) (min e) (max e) v (norm_pos e) (move_ndelta e)
     (motion_event e) (pointer_index e).
Definition set_norm_pos (v : Position) (e : t) : t :=
  mk (type e) (id e) (min e) (max e) (pos e) v (move_ndelta e)
     (motion_event e) (pointer_index e).
Definition set_move_ndelta (v : Position) (e : t) : t :=
  mk (type e) (id e) (min e) (max e) (pos e) (norm_pos e) v
     (motion_event e) (pointer_index e).
Definition set_motion_event (v : GameActivityMotionEvent) (e : t) : t :=
  mk (type e) (id e) (min e) (max e) (pos e) (norm_pos e) (move_ndelta e)
     v (pointer_index e).
Definition set_pointer_index (v : Z) (e : t) : t :=
  mk (type e) (id e) (min e) (max e) (pos e) (norm_pos e) (move_ndelta e)
     (motion_event e) v.

End TouchScreenEvent.

Abbreviation TouchScreenEvent := TouchScreenEvent.t.

(** [std::list<std::pair<int32_t, Position>>]. *)
Definition tracker : Type := list (Z * Position).

(* ================================================================= *)
(** ** The engine object

    The data members of [class NativeEngine] that the member functions
    below read or write, followed by the two function-local [static]
    variables of [DoFrame] ([rotate_by], [errorsPrinted]).  [mApp],
    [mJniEnv], [mApiVersion], the empty [mState] and the GL object names
    belong to the platform side and are not part of the record. *)

Record NativeEngine : Type := mkEngine {
  mHasFocus : bool;
  mIsVisible : bool;
  mHasWindow : bool;
  mHasGLObjects : bool;
  mEglDisplay : Z;
  mEglSurface : Z;
  mEglContext : Z;
  mEglConfig : Z;
  mSurfWidth : Z;
  mSurfHeight : Z;
  mIsFirstFrame : bool;
  ogl_loaded : bool;
  vs_loaded : bool;
  fs_loaded : bool;
  nn : Z;
  orig_x : list float;
  orig_y : list float;
  g_vertex_buffer_data : list gl_vertex_t;
  previous_positions : tracker;
  rotate_by : float;
  errorsPrinted : Z
}.

Definition set_mHasFocus (v : bool) (s : NativeEngine) : NativeEngine :=
    mkEngine v (mIsVisible s) (mHasWindow s) (mHasGLObjects s)
      (mEglDisplay s) (mEglSurface s) (mEglContext s) (mEglConfig s)
      (mSurfWidth s) (mSurfHeight s) (mIsFirstFrame s) (ogl_loaded s)
      (vs_loaded s) (fs_loaded s) (nn s) (orig_x s) (orig_y s)
      (g_vertex_buffer_data s) (previous_positions s) (rotate_by s)
      (errorsPrinted s).
Definition set_mIsVisible (v : bool) (s : NativeEngine) : NativeEngine :=
    mkEngine (mHasFocus s) v (mHasWindow s) (mHasGLObjects s)
      (mEglDisplay s) (mEglSurface s) (mEglContext s) (mEglConfig s)
      (mSurfWidth s) (mSurfHeight s) (mIsFirstFrame s) (ogl_loaded s)
      (vs_loaded s) (fs_loaded s) (nn s) (orig_x s) (orig_y s)
      (g_vertex_buffer_data s) (previous_positions s) (rotate_by s)
      (errorsPrinted s).
Definition set_mHasWindow (v : bool) (s : NativeEngine) : NativeEngine :=
    mkEngine (mHasFocus s) (mIsVisible s) v (mHasGLObjects s)
      (mEglDisplay s) (mEglSurface s) (mEglContext s) (mEglConfig s)
      (mSurfWidth s) (mSurfHeight s) (mIsFirstFrame s) (ogl_loaded s)
      (vs_loaded s) (fs_loaded s) (nn s) (orig_x s) (orig_y s)
      (g_vertex_buffer_data s) (previous_positions s) (rotate_by s)
      (errorsPrinted s).
Definition set_mHasGLObjects (v : bool) (s : NativeEngine) : NativeEngine :=
    mkEngine (mHasFocus s) (mIsVisible s) (mHasWindow s) v (mEglDisplay s)
      (mEglSurface s) (mEglContext s) (mEglConfig s) (mSurfWidth s)
      (mSurfHeight s) (mIsFirstFrame s) (ogl_loaded s) (vs_loaded s)
      (fs_loaded s) (nn s) (orig_x s) (orig_y s) (g_vertex_buffer_data s)
      (previous_positions s) (rotate_by s) (errorsPrinted s).
Definition set_mEglDisplay (v : Z) (s : NativeEngine) : NativeEngine :=
    mkEngine (mHasFocus s) (mIsVisible s) (mHasWindow s) (mHasGLObjects s) v
      (mEglSurface s) (mEglContext s) (mEglConfig s) (mSurfWidth s)
      (mSurfHeight s) (mIsFirstFrame s) (ogl_loaded s) (vs_loaded s)
      (fs_loaded s) (nn s) (orig_x s) (orig_y s) (g_vertex_buffer_data s)
      (previous_positions s) (rotate_by s) (errorsPrinted s).
Definition set_mEglSurface (v : Z) (s : NativeEngine) : NativeEngine :=
    mkEngine (mHasFocus s) (mIsVisible s) (mHasWindow s) (mHasGLObjects s)
      (mEglDisplay s) v (mEglContext s) (mEglConfig s) (mSurfWidth s)
      (mSurfHeight s) (mIsFirstFrame s) (ogl_loaded s) (vs_loaded s)
      (fs_loaded s) (nn s) (orig_x s) (orig_y s) (g_vertex_buffer_data s)
      (previous_positions s) (rotate_by s) (errorsPrinted s).
Definition set_mEglContext (v : Z) (s : NativeEngine) : NativeEngine :=
    mkEngine (mHasFocus s) (mIsVisible s) (mHasWindow s) (mHasGLObjects s)
      (mEglDisplay s) (mEglSurface s) v (mEglConfig s) (mSurfWidth s)
      (mSurfHeight s) (mIsFirstFrame s) (ogl_loaded s) (vs_loaded s)
      (fs_loaded s) (nn s) (orig_x s) (orig_y s) (g_vertex_buffer_data s)
      (previous_positions s) (rotate_by s) (errorsPrinted s).
Definition set_mEglConfig (v : Z) (s : NativeEngine) : NativeEngine :=
    mkEngine (mHasFocus s) (mIsVisible s) (mHasWindow s) (mHasGLObjects s)
      (mEglDisplay s) (mEglSurface s) (mEglContext s) v (mSurfWidth s)
      (mSurfHeight s) (mIsFirstFrame s) (ogl_loaded s) (vs_loaded s)
      (fs_loaded s) (nn s) (orig_x s) (orig_y s) (g_vertex_buffer_data s)
      (previous_positions s) (rotate_by s) (errorsPrinted s).
Definition set_mSurfWidth (v : Z) (s : NativeEngine) : NativeEngine :=
    mkEngine (mHasFocus s) (mIsVisible s) (mHasWindow s) (mHasGLObjects s)
      (mEglDisplay s) (mEglSurface s) (mEglContext s) (mEglConfig s) v
      (mSurfHeight s) (mIsFirstFrame s) (ogl_loaded s) (vs_loaded s)
      (fs_loaded s) (nn s) (orig_x s) (orig_y s) (g_vertex_buffer_data s)
      (previous_positions s) (rotate_by s) (errorsPrinted s).
Definition set_mSurfHeight (v : Z) (s : NativeEngine) : NativeEngine :=
    mkEngine (mHasFocus s) (mIsVisible s) (mHasWindow s) (mHasGLObjects s)
      (mEglDisplay s) (mEglSurface s) (mEglContext s) (mEglConfig s)
      (mSurfWidth s) v (mIsFirstFrame s) (ogl_loaded s) (vs_loaded s)
      (fs_loaded s) (nn s) (orig_x s) (orig_y s) (g_vertex_buffer_data s)
      (previous_positions s) (rotate_by s) (errorsPrinted s).
Definition set_mIsFirstFrame (v : bool) (s : NativeEngine) : NativeEngine :=
    mkEngine (mHasFocus s) (mIsVisible s) (mHasWindow s) (mHasGLObjects s)
      (mEglDisplay s) (mEglSurface s) (mEglContext s) (mEglConfig s)
      (mSurfWidth s) (mSurfHeight s) v (ogl_loaded s) (vs_loaded s)
      (fs_loaded s) (nn s) (orig_x s) (orig_y s) (g_vertex_buffer_data s)
      (previous_positions s) (rotate_by s) (errorsPrinted s).
Definition set_ogl_loaded (v : bool) (s : NativeEngine) : NativeEngine :=
    mkEngine (mHasFocus s) (mIsVisible s) (mHasWindow s) (mHasGLObjects s)
      (mEglDisplay s) (mEglSurface s) (mEglContext s) (mEglConfig s)
      (mSurfWidth s) (mSurfHeight s) (mIsFirstFrame s) v (vs_loaded s)
      (fs_loaded s) (nn s) (orig_x s) (orig_y s) (g_vertex_buffer_data s)
      (previous_positions s) (rotate_by s) (errorsPrinted s).
Definition set_vs_loaded (v : bool) (s : NativeEngine) : NativeEngine :=
    mkEngine (mHasFocus s) (mIsVisible s) (mHasWindow s) (mHasGLObjects s)
      (mEglDisplay s) (mEglSurface s) (mEglContext s) (mEglConfig s)
      (mSurfWidth s) (mSurfHeight s) (mIsFirstFrame s) (ogl_loaded s) v
      (fs_loaded s) (nn s) (orig_x s) (orig_y s) (g_vertex_buffer_data s)
      (previous_positions s) (rotate_by s) (errorsPrinted s).
Definition set_fs_loaded (v : bool) (s : NativeEngine) : NativeEngine :=
    mkEngine (mHasFocus s) (mIsVisible s) (mHasWindow s) (mHasGLObjects s)
      (mEglDisplay s) (mEglSurface s) (mEglContext s) (mEglConfig s)
      (mSurfWidth s) (mSurfHeight s) (mIsFirstFrame s) (ogl_loaded s)
      (vs_loaded s) v (nn s) (orig_x s) (orig_y s) (g_vertex_buffer_data s)
      (previous_positions s) (rotate_by s) (errorsPrinted s).
Definition set_nn (v : Z) (s : NativeEngine) : NativeEngine :=
    mkEngine (mHasFocus s) (mIsVisible s) (mHasWindow s) (mHasGLObjects s)
      (mEglDisplay s) (mEglSurface s) (mEglContext s) (mEglConfig s)
      (mSurfWidth s) (mSurfHeight s) (mIsFirstFrame s) (ogl_loaded s)
      (vs_loaded s) (fs_loaded s) v (orig_x s) (orig_y s)
      (g_vertex_buffer_data s) (previous_positions s) (rotate_by s)
      (errorsPrinted s).
Definition set_orig_x (v : list float) (s : NativeEngine) : NativeEngine :=
    mkEngine (mHasFocus s) (mIsVisible s) (mHasWindow s) (mHasGLObjects s)
      (mEglDisplay s) (mEglSurface s) (mEglContext s) (mEglConfig s)
      (mSurfWidth s) (mSurfHeight s) (mIsFirstFrame s) (ogl_loaded s)
      (vs_loaded s) (fs_loaded s) (nn s) v (orig_y s)
      (g_vertex_buffer_data s) (previous_positions s) (rotate_by s)
      (errorsPrinted s).
Definition set_orig_y (v : list float) (s : NativeEngine) : NativeEngine :=
    mkEngine (mHasFocus s) (mIsVisible s) (mHasWindow s) (mHasGLObjects s)
      (mEglDisplay s) (mEglSurface s) (mEglContext s) (mEglConfig s)
      (mSurfWidth s) (mSurfHeight s) (mIsFirstFrame s) (ogl_loaded s)
      (vs_loaded s) (fs_loaded s) (nn s) (orig_x s) v
      (g_vertex_buffer_data s) (previous_positions s) (rotate_by s)
      (errorsPrinted s).
Definition set_g_vertex_buffer_data (v : list gl_vertex_t) (s : NativeEngine) : NativeEngine :=
    mkEngine (mHasFocus s) (mIsVisible s) (mHasWindow s) (mHasGLObjects s)
      (mEglDisplay s) (mEglSurface s) (mEglContext s) (mEglConfig s)
      (mSurfWidth s) (mSurfHeight s) (mIsFirstFrame s) (ogl_loaded s)
      (vs_loaded s) (fs_loaded s) (nn s) (orig_x s) (orig_y s) v
      (previous_positions s) (rotate_by s) (errorsPrinted s).
Definition set_previous_positions (v : tracker) (s : NativeEngine) : NativeEngine :=
    mkEngine (mHasFocus s) (mIsVisible s) (mHasWindow s) (mHasGLObjects s)
      (mEglDisplay s) (mEglSurface s) (mEglContext s) (mEglConfig s)
      (mSurfWidth s) (mSurfHeight s) (mIsFirstFrame s) (ogl_loaded s)
      (vs_loaded s) (fs_loaded s) (nn s) (orig_x s) (orig_y s)
      (g_vertex_buffer_data s) v (rotate_by s) (errorsPrinted s).
Definition set_rotate_by (v : float) (s : NativeEngine) : NativeEngine :=
    mkEngine (mHasFocus s) (mIsVisible s) (mHasWindow s) (mHasGLObjects s)
      (mEglDisplay s) (mEglSurface s) (mEglContext s) (mEglConfig s)
      (mSurfWidth s) (mSurfHeight s) (mIsFirstFrame s) (ogl_loaded s)
      (vs_loaded s) (fs_loaded s) (nn s) (orig_x s) (orig_y s)
      (g_vertex_buffer_data s) (previous_positions s) v (errorsPrinted s).
Definition set_errorsPrinted (v : Z) (s : NativeEngine) : NativeEngine :=
    mkEngine (mHasFocus s) (mIsVisible s) (mHasWindow s) (mHasGLObjects s)
      (mEglDisplay s) (mEglSurface s) (mEglContext s) (mEglConfig s)
      (mSurfWidth s) (mSurfHeight s) (mIsFirstFrame s) (ogl_loaded s)
      (vs_loaded s) (fs_loaded s) (nn s) (orig_x s) (orig_y s)
      (g_vertex_buffer_data s) (previous_positions s) (rotate_by s) v.

(* ================================================================= *)
(** ** What a member function does to the outside world *)

Inductive LogLevel : Type := LOGD | LOGW | LOGE.

(** Calls that leave the engine, in program order.  [Invoke_callback]
    marks one call of [callback_touch_screen_event]: it carries the event
    passed by reference and the content of [previous_positions] at the
    moment of the call.  [Call] stands for a platform call whose arguments
    are not modelled. *)
Inductive Effect : Type :=
| Log (lvl : LogLevel) (fmt : string)
| Invoke_callback (event : TouchScreenEvent) (tracked : tracker)
| Call (name : string)
| eglGetDisplay
| eglInitialize (dpy : Z)
| eglGetError
| eglChooseConfig (dpy : Z)
| eglCreateWindowSurface (dpy cfg win : Z)
| eglCreateContext (dpy cfg : Z)
| eglMakeCurrent (dpy draw read ctx : Z)
| eglDestroySurface (dpy surf : Z)
| eglDestroyContext (dpy ctx : Z)
| eglTerminate (dpy : Z)
| eglQuerySurface (dpy surf : Z) (attribute : string)
| eglSwapBuffers (dpy surf : Z)
| glViewport (vx0 vy0 w h : Z)
| glClear
| glBufferData (data : list gl_vertex_t)
| glDrawArrays (first count : Z)
| glGetError
| ALooper_pollAll (timeoutMillis : Z).

(* ================================================================= *)
(** ** The monad of member functions: engine state, effects, abort *)

Definition M (A : Type) : Type :=
  NativeEngine -> list Effect * option (A * NativeEngine).

Definition ret {A} (a : A) : M A := fun s => ([], Some (a, s)).

(** What was done before an abort stays done. *)
Definition bind {A B} (m : M A) (f : A -> M B) : M B :=
  fun s =>
    match m s with
    | (t1, None) => (t1, None)
    | (t1, Some (a, s1)) =>
        let (t2, o) := f a s1 in (t1 ++ t2, o)
    end.

Notation "v <- c1 ;; c2" := (bind c1 (fun v => c2))
  (at level 61, c1 at next level, right associativity).
Notation "c1 ;; c2" := (bind c1 (fun _ => c2))
  (at level 61, right associativity).

Definition get : M NativeEngine := fun s => ([], Some (s, s)).
Definition modify (f : NativeEngine -> NativeEngine) : M unit :=
  fun s => ([], Some (tt, f s)).
Definition tell (e : Effect) : M unit := fun s => ([e], Some (tt, s)).
Definition abort {A} : M A := fun _ => ([], None).

Definition LOG (lvl : LogLevel) (fmt : string) : M unit := tell (Log lvl fmt).

(** [a[i]] on a C array: reading outside the array is undefined. *)
Definition index {A} (a : list A) (i : Z) : M A :=
  if i <? 0 then abort
  else match nth_error a (Z.to_nat i) with
       | Some v => ret v
       | None => abort
       end.

(** [for (uint32_t i = from; i < from + n; ++i) acc = body(i, acc);] *)
Fixpoint for_loop {A} (n : nat) (from : Z) (body : Z -> A -> M A) (acc : A)
  : M A :=
  match n with
  | O => ret acc
  | S n' => acc' <- body from acc ;; for_loop n' (from + 1) body acc'
  end.

(** The events handed to [callback_touch_screen_event], in order. *)
Fixpoint emitted (t : list Effect) : list TouchScreenEvent :=
  match t with
  | [] => []
  | Invoke_callback ev _ :: t' => ev :: emitted t'
  | _ :: t' => emitted t'
  end.

(* ================================================================= *)
(** ** TouchTracker: [previous_positions] *)

(** [std::find_if] with the predicate [el.first == id]: the first match. *)
Definition find_if (id : Z) (l : tracker) : option Position :=
  option_map snd (find (fun el => fst el =? id) l).

(** Writing through the reference [pp = it->second] of the first match. *)
Fixpoint write_first (id : Z) (p : Position) (l : tracker) : tracker :=
  match l with
  | [] => []
  | (k, q) :: l' =>
      if k =? id then (k, p) :: l' else (k, q) :: write_first id p l'
  end.

(** [std::list::remove_if] with the predicate [el.first == id]: every
    match goes; [found] is set as soon as one element matches. *)
Definition remove_if (id : Z) (l : tracker) : tracker :=
  filter (fun el => negb (fst el =? id)) l.

Definition found_by_remove_if (id : Z) (l : tracker) : bool :=
  existsb (fun el => fst el =? id) l.

Definition push_back (id : Z) (p : Position) (l : tracker) : tracker :=
  l ++ [(id, p)].

(** Number of records held for [id]. *)
Definition records_of (id : Z) (l : tracker) : nat :=
  List.length (filter (fun el => fst el =? id) l).

(* ================================================================= *)
(** ** [NativeEngine::callback_touch_screen_event] *)

Definition callback_touch_screen_event (event : TouchScreenEvent) : M unit :=
  s <- get ;;
  tell (Invoke_callback event (previous_positions s)) ;;
  match TouchScreenEvent.type event with
  | TouchScreenEvent.Up => ret tt
  | TouchScreenEvent.Down => ret tt
  | TouchScreenEvent.Move =>
      let d := TouchScreenEvent.move_ndelta event in
      modify (fun s =>
        set_orig_y (map (fun v => F32.add v (y d)) (orig_y s))
          (set_orig_x (map (fun v => F32.add v (x d)) (orig_x s)) s))
  end ;;
  LOG LOGD "%s event x=%.4f y=%.4f pointer_count=%u pointer_index=%u id=%i %s\n".

(* ================================================================= *)
(** ** [NativeEngine::process_input_events] *)

(** The four assignments that fill [ev] from [motionEvent->pointers[i]]. *)
Definition fill_from_pointer (i : Z) (p : GameActivityPointerAxes)
  (ev : TouchScreenEvent) : TouchScreenEvent :=
  let ev := TouchScreenEvent.set_pointer_index i ev in
  let ev := TouchScreenEvent.set_id (axes_id p) ev in
  let ev := TouchScreenEvent.set_pos (mkPosition (axes_X p) (axes_Y p)) ev in
  TouchScreenEvent.set_norm_pos
    (mkPosition
       (F32.div (x (TouchScreenEvent.pos ev)) (x (TouchScreenEvent.max ev)))
       (F32.div (y (TouchScreenEvent.pos ev)) (y (TouchScreenEvent.max ev))))
    ev.

(** Body of the loop over the pointers of an [AMOTION_EVENT_ACTION_MOVE]
    event.  [ev] lives outside the loop, so whatever one iteration leaves
    in it is what the next one starts from. *)
Definition move_pointer (motionEvent : GameActivityMotionEvent) (i : Z)
  (ev : TouchScreenEvent) : M TouchScreenEvent :=
  p <- index (pointers motionEvent) i ;;
  let ev := fill_from_pointer i p ev in
  s <- get ;;
  ev <- match find_if (TouchScreenEvent.id ev) (previous_positions s) with
        | None => LOG LOGE "baaaaaaaaaaaaaaaaad\n" ;; ret ev
        | Some pp =>
            let np := TouchScreenEvent.norm_pos ev in
            let ev :=
              TouchScreenEvent.set_move_ndelta
                (mkPosition (F32.sub (x np) (x pp)) (F32.sub (y np) (y pp)))
                ev in
            modify (fun s =>
              set_previous_positions
                (write_first (TouchScreenEvent.id ev) np
                   (previous_positions s)) s) ;;
            ret ev
        end ;;
  callback_touch_screen_event ev ;;
  ret ev.

(** The block guarded by
    [pointerIndex != GAMEACTIVITY_MAX_NUM_POINTERS_IN_MOTION_EVENT]. *)
Definition cook_event (motionEvent : GameActivityMotionEvent)
  (pointerIndex : Z) (ev : TouchScreenEvent) : M unit :=
  p <- index (pointers motionEvent) pointerIndex ;;
  let ev := fill_from_pointer pointerIndex p ev in
  match TouchScreenEvent.type ev with
  | TouchScreenEvent.Up =>
      s <- get ;;
      let found := found_by_remove_if (TouchScreenEvent.id ev)
                     (previous_positions s) in
      modify (fun s =>
        set_previous_positions
          (remove_if (TouchScreenEvent.id ev) (previous_positions s)) s) ;;
      if negb found then LOG LOGE "noooooooooooooo\n" else ret tt
  | TouchScreenEvent.Down =>
      modify (fun s =>
        set_previous_positions
          (push_back (TouchScreenEvent.id ev) (TouchScreenEvent.norm_pos ev)
             (previous_positions s)) s)
  | TouchScreenEvent.Move => ret tt
  end ;;
  callback_touch_screen_event ev.

Definition pointer_index_of_action (action : Z) : Z :=
  Z.shiftr (Z.land action AMOTION_EVENT_ACTION_POINTER_INDEX_MASK)
    AMOTION_EVENT_ACTION_POINTER_INDEX_SHIFT.

(** Body of the loop over [inputBuffer->motionEvents].  [uninit] is the
    indeterminate content of the local [TouchScreenEvent ev;]. *)
Definition process_motion_event (uninit : TouchScreenEvent)
  (motionEvent : GameActivityMotionEvent) : M unit :=
  if 0 <? pointerCount motionEvent then
    let action := action motionEvent in
    let actionMasked := Z.land action AMOTION_EVENT_ACTION_MASK in
    let pointerIndex := GAMEACTIVITY_MAX_NUM_POINTERS_IN_MOTION_EVENT in
    s <- get ;;
    let ev := TouchScreenEvent.set_motion_event motionEvent uninit in
    let ev := TouchScreenEvent.set_min (mkPosition F32.zero F32.zero) ev in
    let ev := TouchScreenEvent.set_max
                (mkPosition (F32.of_int (mSurfWidth s))
                   (F32.of_int (mSurfHeight s))) ev in
    sw <- (if actionMasked =? AMOTION_EVENT_ACTION_DOWN then
             ret (0, TouchScreenEvent.set_type TouchScreenEvent.Down ev)
           else if actionMasked =? AMOTION_EVENT_ACTION_POINTER_DOWN then
             ret (pointer_index_of_action action,
                  TouchScreenEvent.set_type TouchScreenEvent.Down ev)
           else if actionMasked =? AMOTION_EVENT_ACTION_UP then
             ret (0, TouchScreenEvent.set_type TouchScreenEvent.Up ev)
           else if actionMasked =? AMOTION_EVENT_ACTION_POINTER_UP then
             ret (pointer_index_of_action action,
                  TouchScreenEvent.set_type TouchScreenEvent.Up ev)
           else if actionMasked =? AMOTION_EVENT_ACTION_MOVE then
             ev <- for_loop (Z.to_nat (pointerCount motionEvent)) 0
                     (move_pointer motionEvent)
                     (TouchScreenEvent.set_type TouchScreenEvent.Move ev) ;;
             ret (pointerIndex, ev)
           else ret (pointerIndex, ev)) ;;
    let pointerIndex := fst sw in
    let ev := snd sw in
    if negb (pointerIndex =? GAMEACTIVITY_MAX_NUM_POINTERS_IN_MOTION_EVENT)
    then cook_event motionEvent pointerIndex ev
    else ret tt
  else ret tt.

(** The loop over the motion events; [uninit i] is what the stack slot of
    [ev] holds when iteration [i] starts. *)
Fixpoint process_motion_events (uninit : nat -> TouchScreenEvent) (i : nat)
  (l : list GameActivityMotionEvent) : M unit :=
  match l with
  | [] => ret tt
  | motionEvent :: l' =>
      process_motion_event (uninit i) motionEvent ;;
      process_motion_events uninit (S i) l'
  end.

(** [inputBuffer] is what [android_app_swap_input_buffers] returned
    ([None] for a null pointer). *)
Definition process_input_events (uninit : nat -> TouchScreenEvent)
  (inputBuffer : option android_input_buffer) : M unit :=
  tell (Call "android_app_swap_input_buffers") ;;
  match inputBuffer with
  | Some ib =>
      if negb (motionEventsCount ib =? 0) then
        process_motion_events uninit 0 (motionEvents ib) ;;
        tell (Call "android_app_clear_motion_events")
      else ret tt
  | None => ret tt
  end.

(* ================================================================= *)
(** ** The platform's answers *)

(** Constants of [EGL/egl.h] and [GLES3/gl3.h]. *)
Definition EGL_NO_DISPLAY : Z := 0.
Definition EGL_NO_SURFACE : Z := 0.
Definition EGL_NO_CONTEXT : Z := 0.

Definition EGL_SUCCESS : Z := 12288.      (* 0x3000 *)
Definition EGL_BAD_CONTEXT : Z := 12294.  (* 0x3006 *)
Definition EGL_BAD_DISPLAY : Z := 12296.  (* 0x3008 *)
Definition EGL_BAD_SURFACE : Z := 12301.  (* 0x300D *)
Definition EGL_CONTEXT_LOST : Z := 12302. (* 0x300E *)

Definition GL_NO_ERROR : Z := 0.
Definition GL_INVALID_ENUM : Z := 1280.
Definition GL_INVALID_VALUE : Z := 1281.
Definition GL_INVALID_OPERATION : Z := 1282.
Definition GL_OUT_OF_MEMORY : Z := 1285.
Definition GL_INVALID_FRAMEBUFFER_OPERATION : Z := 1286.

Definition MAX_GL_ERRORS : Z := 200.

(** Everything one frame can learn from outside the engine. *)
Record Platform : Type := mkPlatform {
  app_window : Z;                      (* mApp->window *)
  eglGetDisplay_ret : Z;
  eglInitialize_ret : bool;
  eglChooseConfig_out : option Z;      (* the config written, if any *)
  eglCreateWindowSurface_ret : Z;
  eglCreateContext_ret : Z;
  eglMakeCurrent_ret : bool;           (* the bind in PrepareToRender *)
  egl_error_after_bind : Z;            (* eglGetError() given to HandleEglError *)
  vs_compile_status : bool;
  fs_compile_status : bool;
  malloc_nonnull : bool;
  query_width : Z;                     (* [width] after eglQuerySurface *)
  query_height : Z;                    (* [height] after eglQuerySurface *)
  eglSwapBuffers_ret : bool;
  egl_error_after_swap : Z;            (* eglGetError() given to HandleEglError *)
  glGetError_rets : list Z;            (* successive answers of glGetError *)
  libm_fmod : float -> float -> float;
  libm_sin : float -> float;
  libm_cos : float -> float
}.

(** Modelled from the spec: [MY_ASSERT] is a macro of [common.hpp], which
    is not among the sources; the specification describes a violated
    precondition as a programming-error abort. *)
Definition MY_ASSERT (cond : bool) : M unit :=
  if cond then ret tt else abort.

(* ================================================================= *)
(** ** Construction *)

(** [NativeEngine::NativeEngine].  [vertices] is the not yet initialised
    content of [g_vertex_buffer_data]. *)
Definition NativeEngine_new (vertices : list gl_vertex_t) : NativeEngine :=
  {| mHasFocus := false; mIsVisible := false; mHasWindow := false;
     mHasGLObjects := false;
     mEglDisplay := EGL_NO_DISPLAY;
     mEglSurface := EGL_NO_SURFACE;
     mEglContext := EGL_NO_CONTEXT;
     mEglConfig := 0;
     mSurfWidth := 0; mSurfHeight := 0;
     mIsFirstFrame := true;
     ogl_loaded := false; vs_loaded := false; fs_loaded := false;
     nn := 0;
     orig_x := [F32.zero; F32.ratio (-1) 2; F32.ratio 1 2];
     orig_y := [F32.ratio (-1) 2; F32.ratio 1 2; F32.ratio 1 2];
     g_vertex_buffer_data := vertices;
     previous_positions := [];
     rotate_by := F32.zero;
     errorsPrinted := 0 |}.

Definition IsAnimating (s : NativeEngine) : bool :=
  mHasFocus s && mIsVisible s && mHasWindow s.

(* ================================================================= *)
(** ** RenderContext: creation *)

Definition InitDisplay (pf : Platform) : M bool :=
  s <- get ;;
  if negb (mEglDisplay s =? EGL_NO_DISPLAY) then
    LOG LOGD "NativeEngine: no need to init display (already had one)." ;;
    ret true
  else
    LOG LOGD "NativeEngine: initializing display." ;;
    tell eglGetDisplay ;;
    modify (set_mEglDisplay (eglGetDisplay_ret pf)) ;;
    s <- get ;;
    tell (eglInitialize (mEglDisplay s)) ;;
    if negb (eglInitialize_ret pf) then
      tell eglGetError ;;
      LOG LOGE "NativeEngine: failed to init display, error %d" ;;
      ret false
    else ret true.

Definition InitSurface (pf : Platform) : M bool :=
  s <- get ;;
  MY_ASSERT (negb (mEglDisplay s =? EGL_NO_DISPLAY)) ;;
  if negb (mEglSurface s =? EGL_NO_SURFACE) then
    LOG LOGD "NativeEngine: no need to init surface (already had one)." ;;
    ret true
  else
    LOG LOGD "NativeEngine: initializing surface." ;;
    tell (eglChooseConfig (mEglDisplay s)) ;;
    match eglChooseConfig_out pf with
    | Some cfg => modify (set_mEglConfig cfg)
    | None => ret tt
    end ;;
    s <- get ;;
    tell (eglCreateWindowSurface (mEglDisplay s) (mEglConfig s)
            (app_window pf)) ;;
    modify (set_mEglSurface (eglCreateWindowSurface_ret pf)) ;;
    s <- get ;;
    if mEglSurface s =? EGL_NO_SURFACE then
      tell eglGetError ;;
      LOG LOGE "Failed to create EGL surface, EGL error %d" ;;
      ret false
    else
      LOG LOGD "NativeEngine: successfully initialized surface." ;;
      ret true.

Definition InitContext (pf : Platform) : M bool :=
  s <- get ;;
  MY_ASSERT (negb (mEglDisplay s =? EGL_NO_DISPLAY)) ;;
  if negb (mEglContext s =? EGL_NO_CONTEXT) then
    LOG LOGD "NativeEngine: no need to init context (already had one)." ;;
    ret true
  else
    LOG LOGD "NativeEngine: initializing context." ;;
    tell (eglCreateContext (mEglDisplay s) (mEglConfig s)) ;;
    modify (set_mEglContext (eglCreateContext_ret pf)) ;;
    s <- get ;;
    if mEglContext s =? EGL_NO_CONTEXT then
      tell eglGetError ;;
      LOG LOGE "Failed to create EGL context, EGL error %d" ;;
      ret false
    else
      LOG LOGD "NativeEngine: successfull initialized context." ;;
      ret true.

(* ================================================================= *)
(** ** RenderContext: destruction and error recovery *)

Definition KillGLObjects : M unit :=
  s <- get ;;
  if mHasGLObjects s then modify (set_mHasGLObjects false) else ret tt.

Definition KillSurface : M unit :=
  LOG LOGD "NativeEngine: killing surface." ;;
  s <- get ;;
  tell (eglMakeCurrent (mEglDisplay s) EGL_NO_SURFACE EGL_NO_SURFACE
          EGL_NO_CONTEXT) ;;
  (if negb (mEglSurface s =? EGL_NO_SURFACE) then
     tell (eglDestroySurface (mEglDisplay s) (mEglSurface s)) ;;
     modify (set_mEglSurface EGL_NO_SURFACE)
   else ret tt) ;;
  LOG LOGD "NativeEngine: Surface killed successfully.".

Definition KillContext : M unit :=
  LOG LOGD "NativeEngine: killing context." ;;
  KillGLObjects ;;
  s <- get ;;
  tell (eglMakeCurrent (mEglDisplay s) EGL_NO_SURFACE EGL_NO_SURFACE
          EGL_NO_CONTEXT) ;;
  (if negb (mEglContext s =? EGL_NO_CONTEXT) then
     tell (eglDestroyContext (mEglDisplay s) (mEglContext s)) ;;
     modify (set_mEglContext EGL_NO_CONTEXT)
   else ret tt) ;;
  LOG LOGD "NativeEngine: Context killed successfully.".

Definition KillDisplay : M unit :=
  LOG LOGD "NativeEngine: killing display." ;;
  KillContext ;;
  KillSurface ;;
  s <- get ;;
  (if negb (mEglDisplay s =? EGL_NO_DISPLAY) then
     LOG LOGD "NativeEngine: terminating display now." ;;
     tell (eglTerminate (mEglDisplay s)) ;;
     modify (set_mEglDisplay EGL_NO_DISPLAY)
   else ret tt) ;;
  LOG LOGD "NativeEngine: display killed successfully.".

Definition HandleEglError (error : Z) : M bool :=
  if error =? EGL_SUCCESS then ret true
  else if error =? EGL_CONTEXT_LOST then
    LOG LOGW "NativeEngine: egl error: EGL_CONTEXT_LOST. Recreating context." ;;
    KillContext ;; ret true
  else if error =? EGL_BAD_CONTEXT then
    LOG LOGW "NativeEngine: egl error: EGL_BAD_CONTEXT. Recreating context." ;;
    KillContext ;; ret true
  else if error =? EGL_BAD_DISPLAY then
    LOG LOGW "NativeEngine: egl error: EGL_BAD_DISPLAY. Recreating display." ;;
    KillDisplay ;; ret true
  else if error =? EGL_BAD_SURFACE then
    LOG LOGW "NativeEngine: egl error: EGL_BAD_SURFACE. Recreating display." ;;
    KillSurface ;; ret true
  else
    LOG LOGW "NativeEngine: unknown egl error: %d" ;;
    ret false.

(** [NativeEngine::~NativeEngine], without the JNI detach. *)
Definition NativeEngine_delete : M unit :=
  LOG LOGD "NativeEngine: destructor running" ;;
  KillContext.

(* ================================================================= *)
(** ** OpenGL plumbing *)

Definition ConfigureOpenGL : M unit :=
  tell (Call "glClearColor") ;;
  tell (Call "glDisable") ;;
  tell glClear.

Definition load_vertex_shader (pf : Platform) : M unit :=
  tell (Call "glCreateShader") ;;
  tell (Call "glShaderSource") ;;
  tell (Call "glCompileShader") ;;
  tell (Call "glGetShaderiv") ;;
  if negb (vs_compile_status pf) then
    tell (Call "glGetShaderiv") ;;
    tell (Call "malloc") ;;
    MY_ASSERT (malloc_nonnull pf) ;;
    tell (Call "glGetShaderInfoLog") ;;
    LOG LOGE "vertex shader compilation failed" ;;
    LOG LOGE "%s\n" ;;
    tell (Call "free")
  else
    LOG LOGD "vertex SHADER compiled ok!" ;;
    modify (set_vs_loaded true).

Definition load_frag_shader (pf : Platform) : M unit :=
  tell (Call "glCreateShader") ;;
  tell (Call "glShaderSource") ;;
  tell (Call "glCompileShader") ;;
  tell (Call "glGetShaderiv") ;;
  if negb (fs_compile_status pf) then
    tell (Call "glGetShaderiv") ;;
    tell (Call "malloc") ;;
    MY_ASSERT (malloc_nonnull pf) ;;
    tell (Call "glGetShaderInfoLog") ;;
    LOG LOGE "fragment shader compilation failed" ;;
    LOG LOGE "%s\n" ;;
    tell (Call "free")
  else
    LOG LOGD "fragment SHADER compiled ok!" ;;
    modify (set_fs_loaded true).

Definition load_program : M unit :=
  tell (Call "glCreateProgram") ;;
  tell (Call "glAttachShader") ;;
  tell (Call "glAttachShader") ;;
  tell (Call "glBindAttribLocation") ;;
  tell (Call "glBindAttribLocation") ;;
  tell (Call "glBindAttribLocation") ;;
  tell (Call "glLinkProgram") ;;
  LOG LOGD "opengl program linked\n" ;;
  tell (Call "glUseProgram") ;;
  LOG LOGD "opengl program use\n".

Definition setup_vertex_buffer : M unit :=
  tell (Call "glGenVertexArrays") ;;
  tell (Call "glGenBuffers") ;;
  tell (Call "glBindVertexArray") ;;
  tell (Call "glBindBuffer") ;;
  tell (Call "glEnableVertexAttribArray") ;;
  tell (Call "glEnableVertexAttribArray") ;;
  tell (Call "glEnableVertexAttribArray") ;;
  tell (Call "glVertexAttribPointer") ;;
  tell (Call "glVertexAttribPointer") ;;
  tell (Call "glVertexAttribPointer") ;;
  LOG LOGD "opengl vertex attribs ok\n" ;;
  s <- get ;;
  tell (glBufferData (g_vertex_buffer_data s)).

Definition _log_opengl_error (err : Z) : M unit :=
  if err =? GL_NO_ERROR then LOG LOGE "*** OpenGL error: GL_NO_ERROR"
  else if err =? GL_INVALID_ENUM then
    LOG LOGE "*** OpenGL error: GL_INVALID_ENUM"
  else if err =? GL_INVALID_VALUE then
    LOG LOGE "*** OpenGL error: GL_INVALID_VALUE"
  else if err =? GL_INVALID_OPERATION then
    LOG LOGE "*** OpenGL error: GL_INVALID_OPERATION"
  else if err =? GL_INVALID_FRAMEBUFFER_OPERATION then
    LOG LOGE "*** OpenGL error: GL_INVALID_FRAMEBUFFER_OPERATION"
  else if err =? GL_OUT_OF_MEMORY then
    LOG LOGE "*** OpenGL error: GL_OUT_OF_MEMORY"
  else LOG LOGE "*** OpenGL error: error %d".

(* ================================================================= *)
(** ** [NativeEngine::PrepareToRender] *)

Definition PrepareToRender (pf : Platform) : M bool :=
  s <- get ;;
  if (mEglDisplay s =? EGL_NO_DISPLAY) || (mEglSurface s =? EGL_NO_SURFACE)
     || (mEglContext s =? EGL_NO_CONTEXT) then
    ok <- InitDisplay pf ;;
    if negb ok then
      LOG LOGE "NativeEngine: failed to create display." ;; ret false
    else
    ok <- InitSurface pf ;;
    if negb ok then
      LOG LOGE "NativeEngine: failed to create surface." ;; ret false
    else
    ok <- InitContext pf ;;
    if negb ok then
      LOG LOGE "NativeEngine: failed to create context." ;; ret false
    else
    LOG LOGD "NativeEngine: binding surface and context (display %p, surface %p, context %p)" ;;
    s <- get ;;
    tell (eglMakeCurrent (mEglDisplay s) (mEglSurface s) (mEglSurface s)
            (mEglContext s)) ;;
    (if negb (eglMakeCurrent_ret pf) then
       tell eglGetError ;;
       LOG LOGE "NativeEngine: eglMakeCurrent failed, EGL error %d" ;;
       tell eglGetError ;;
       HandleEglError (egl_error_after_bind pf) ;;
       ret tt
     else ret tt) ;;
    ConfigureOpenGL ;;
    load_vertex_shader pf ;;
    load_frag_shader pf ;;
    load_program ;;
    setup_vertex_buffer ;;
    ret true
  else ret true.

(* ================================================================= *)
(** ** [NativeEngine::DoFrame] *)

(** The loop that rewrites the positions of the three vertices. *)
Fixpoint rotate_vertices (c s : float) (xs ys : list float)
  (vs : list gl_vertex_t) : list gl_vertex_t :=
  match xs, ys, vs with
  | ox :: xs', oy :: ys', v :: vs' =>
      mk_gl_vertex (r v) (g v) (b v) (alpha v)
        (F32.sub (F32.mul ox c) (F32.mul oy s))
        (F32.add (F32.mul ox s) (F32.mul oy c))
        (offset_x v) (offset_y v)
      :: rotate_vertices c s xs' ys' vs'
  | _, _, _ => vs
  end.

(** [while ((e = glGetError()) != GL_NO_ERROR) ...]: [answers] are the
    successive return values; once they are used up the error flags are
    clear and [glGetError] returns [GL_NO_ERROR]. *)
Fixpoint print_gl_errors (answers : list Z) : M unit :=
  tell glGetError ;;
  match answers with
  | [] => ret tt
  | e :: answers' =>
      if e =? GL_NO_ERROR then ret tt
      else
        s <- get ;;
        (if errorsPrinted s <? MAX_GL_ERRORS then
           _log_opengl_error e ;;
           modify (set_errorsPrinted (errorsPrinted s + 1)) ;;
           if MAX_GL_ERRORS <=? errorsPrinted s + 1 then
             LOG LOGE "*** NativeEngine: TOO MANY OPENGL ERRORS. NO LONGER PRINTING."
           else ret tt
         else ret tt) ;;
        print_gl_errors answers'
  end.

Definition DoFrame (pf : Platform) : M unit :=
  ok <- PrepareToRender pf ;;
  if negb ok then
    LOG LOGD "NativeEngine: preparation to render failed."
  else
    s <- get ;;
    tell (eglQuerySurface (mEglDisplay s) (mEglSurface s) "EGL_WIDTH") ;;
    tell (eglQuerySurface (mEglDisplay s) (mEglSurface s) "EGL_HEIGHT") ;;
    let width := query_width pf in
    let height := query_height pf in
    if negb (width =? mSurfWidth s) || negb (height =? mSurfHeight s) then
      LOG LOGD "NativeEngine: surface changed size %dx%d --> %dx%d" ;;
      modify (set_mSurfWidth width) ;;
      modify (set_mSurfHeight height) ;;
      s <- get ;;
      tell (glViewport 0 0 (mSurfWidth s) (mSurfHeight s))
    else
      (if mIsFirstFrame s then modify (set_mIsFirstFrame false) else ret tt) ;;
      tell glClear ;;
      modify (fun s =>
        let rot := libm_fmod pf
                     (F32.add (rotate_by s)
                        (F32.div (F32.ratio 31415 10000) (F32.of_int 100)))
                     (F32.mul (F32.of_int 2) (F32.ratio 31415 10000)) in
        let sn := libm_sin pf rot in
        let cs := libm_cos pf rot in
        set_g_vertex_buffer_data
          (rotate_vertices cs sn (orig_x s) (orig_y s)
             (g_vertex_buffer_data s))
          (set_rotate_by rot s)) ;;
      s <- get ;;
      tell (glBufferData (g_vertex_buffer_data s)) ;;
      tell (glDrawArrays 0 3) ;;
      modify (set_nn ((nn s + 1) mod 2 ^ 32)) ;;
      tell (eglSwapBuffers (mEglDisplay s) (mEglSurface s)) ;;
      (if negb (eglSwapBuffers_ret pf) then
         tell eglGetError ;;
         LOG LOGW "NativeEngine: eglSwapBuffers failed, EGL error %d" ;;
         tell eglGetError ;;
         HandleEglError (egl_error_after_swap pf) ;;
         ret tt
       else ret tt) ;;
      print_gl_errors (glGetError_rets pf).

(* ================================================================= *)
(** ** LifecycleState: [NativeEngine::HandleCommand] *)

(** The [APP_CMD_*] codes the switch names; [APP_CMD_other] is any code
    that reaches [default:]. *)
Inductive AppCmd : Type :=
| APP_CMD_SAVE_STATE
| APP_CMD_INIT_WINDOW
| APP_CMD_TERM_WINDOW
| APP_CMD_GAINED_FOCUS
| APP_CMD_LOST_FOCUS
| APP_CMD_PAUSE
| APP_CMD_RESUME
| APP_CMD_STOP
| APP_CMD_START
| APP_CMD_WINDOW_RESIZED
| APP_CMD_CONFIG_CHANGED
| APP_CMD_LOW_MEMORY
| APP_CMD_other (code : Z).

(** [window] is the value of [mApp->window] when the command arrives. *)
Definition HandleCommand (window : Z) (cmd : AppCmd) : M unit :=
  LOG LOGD "NativeEngine: handling command %d." ;;
  match cmd with
  | APP_CMD_SAVE_STATE =>
      LOG LOGD "NativeEngine: APP_CMD_SAVE_STATE" ;;
      tell (Call "malloc")
  | APP_CMD_INIT_WINDOW =>
      LOG LOGD "NativeEngine: APP_CMD_INIT_WINDOW" ;;
      if negb (window =? 0) then modify (set_mHasWindow true) else ret tt
  | APP_CMD_TERM_WINDOW =>
      LOG LOGD "NativeEngine: APP_CMD_TERM_WINDOW" ;;
      KillSurface ;;
      modify (set_mHasWindow false)
  | APP_CMD_GAINED_FOCUS =>
      LOG LOGD "NativeEngine: APP_CMD_GAINED_FOCUS" ;;
      modify (set_mHasFocus true)
  | APP_CMD_LOST_FOCUS =>
      LOG LOGD "NativeEngine: APP_CMD_LOST_FOCUS" ;;
      modify (set_mHasFocus false)
  | APP_CMD_PAUSE => LOG LOGD "NativeEngine: APP_CMD_PAUSE"
  | APP_CMD_RESUME => LOG LOGD "NativeEngine: APP_CMD_RESUME"
  | APP_CMD_STOP =>
      LOG LOGD "NativeEngine: APP_CMD_STOP" ;;
      modify (set_mIsVisible false)
  | APP_CMD_START =>
      LOG LOGD "NativeEngine: APP_CMD_START" ;;
      modify (set_mIsVisible true)
  | APP_CMD_WINDOW_RESIZED | APP_CMD_CONFIG_CHANGED =>
      LOG LOGD "NativeEngine: %s"
  | APP_CMD_LOW_MEMORY =>
      LOG LOGD "NativeEngine: APP_CMD_LOW_MEMORY" ;;
      s <- get ;;
      if negb (mHasWindow s) then
        LOG LOGD "NativeEngine: trimming memory footprint (deleting GL objects)." ;;
        KillGLObjects
      else ret tt
  | APP_CMD_other _ => LOG LOGD "NativeEngine: (unknown command)."
  end ;;
  LOG LOGD "NativeEngine: STATUS: F%d, V%d, W%d, EGL: D %p, S %p, CTX %p, CFG %p".

(* ================================================================= *)
(** ** FrameDriver: one turn of the [while (1)] of [NativeEngine::GameLoop] *)

(** One successful return of [ALooper_pollAll] ([ident >= 0]): the command
    its source delivers through [_handle_cmd_proxy], if any, the value of
    [mApp->window] at that point and [mApp->destroyRequested] afterwards. *)
Record Polled : Type := mkPolled {
  polled_cmd : option AppCmd;
  polled_window : Z;
  destroyRequested : bool
}.

Inductive LoopStatus : Type := Returned | Looping.

Definition poll (s : NativeEngine) : Effect :=
  ALooper_pollAll (if IsAnimating s then 0 else -1).

Fixpoint pump (polls : list Polled) : M LoopStatus :=
  s <- get ;;
  tell (poll s) ;;
  match polls with
  | [] => ret Looping
  | p :: polls' =>
      match polled_cmd p with
      | Some cmd => HandleCommand (polled_window p) cmd
      | None => ret tt
      end ;;
      if destroyRequested p then ret Returned else pump polls'
  end.

Definition GameLoop_turn (polls : list Polled)
  (uninit : nat -> TouchScreenEvent)
  (inputBuffer : option android_input_buffer) (pf : Platform)
  : M LoopStatus :=
  st <- pump polls ;;
  match st with
  | Returned => ret Returned
  | Looping =>
      process_input_events uninit inputBuffer ;;
      DoFrame pf ;;
      ret Looping
  end.

(** The three vertices [GameLoop] installs before its loop. *)
Definition GameLoop_vertices : list gl_vertex_t :=
  let z := F32.zero in
  let o := F32.one in
  let h := F32.ratio 1 2 in
  let mh := F32.ratio (-1) 2 in
  [ mk_gl_vertex o z z o z mh z z;
    mk_gl_vertex z o z z mh h z z;
    mk_gl_vertex z z o z h h z z ].

(* ================================================================= *)
(** ** Vocabulary for the statements *)

(** Componentwise [p - q] in [float] arithmetic. *)
Definition delta (p q : Position) : Position :=
  mkPosition (F32.sub (x p) (x q)) (F32.sub (y p) (y q)).

(** The normalized position [process_input_events] computes for a pointer
    while the engine caches the surface size of [s]. *)
Definition normalized (s : NativeEngine) (p : GameActivityPointerAxes)
  : Position :=
  mkPosition (F32.div (axes_X p) (F32.of_int (mSurfWidth s)))
             (F32.div (axes_Y p) (F32.of_int (mSurfHeight s))).

(** [ev] right after the assignments that precede [switch (actionMasked)],
    with its type set by the switch. *)
Definition ev_start (uninit : TouchScreenEvent)
  (motionEvent : GameActivityMotionEvent) (s : NativeEngine)
  (ty : TouchScreenEvent.Type_) : TouchScreenEvent :=
  TouchScreenEvent.set_type ty
    (TouchScreenEvent.set_max
       (mkPosition (F32.of_int (mSurfWidth s)) (F32.of_int (mSurfHeight s)))
       (TouchScreenEvent.set_min (mkPosition F32.zero F32.zero)
          (TouchScreenEvent.set_motion_event motionEvent uninit))).

(** Which pointer slot a down / up event names, if it is one. *)
Definition down_index (motionEvent : GameActivityMotionEvent) : option Z :=
  let a := Z.land (action motionEvent) AMOTION_EVENT_ACTION_MASK in
  if a =? AMOTION_EVENT_ACTION_DOWN then Some 0
  else if a =? AMOTION_EVENT_ACTION_POINTER_DOWN then
    Some (pointer_index_of_action (action motionEvent))
  else None.

Definition up_index (motionEvent : GameActivityMotionEvent) : option Z :=
  let a := Z.land (action motionEvent) AMOTION_EVENT_ACTION_MASK in
  if a =? AMOTION_EVENT_ACTION_UP then Some 0
  else if a =? AMOTION_EVENT_ACTION_POINTER_UP then
    Some (pointer_index_of_action (action motionEvent))
  else None.

(** The pointer a down / up event is cooked from: the slot exists and its
    index is not the sentinel. *)
Definition cooked_pointer (motionEvent : GameActivityMotionEvent)
  (i : option Z) : option GameActivityPointerAxes :=
  match i with
  | Some i =>
      if (0 <? pointerCount motionEvent)
         && negb (i =? GAMEACTIVITY_MAX_NUM_POINTERS_IN_MOTION_EVENT)
      then nth_error (pointers motionEvent) (Z.to_nat i)
      else None
  | None => None
  end.

Definition ids (l : tracker) : list Z := map fst l.

(** A stream in which no down event names an id that is tracked when the
    event is processed. *)
Fixpoint downs_are_fresh (uninit : nat -> TouchScreenEvent) (i : nat)
  (l : list GameActivityMotionEvent) (s : NativeEngine) : bool :=
  match l with
  | [] => true
  | motionEvent :: l' =>
      match cooked_pointer motionEvent (down_index motionEvent) with
      | Some p => negb (found_by_remove_if (axes_id p) (previous_positions s))
      | None => true
      end
      && match snd (process_motion_event (uninit i) motionEvent s) with
         | Some (_, s') => downs_are_fresh uninit (S i) l' s'
         | None => true
         end
  end.

(** Concrete inputs: the eight slots of [pointers], an event that carries
    one pointer. *)
Definition pointer_slots (l : list GameActivityPointerAxes)
  : list GameActivityPointerAxes :=
  firstn 8 (l ++ repeat (mkAxes 0 F32.zero F32.zero) 8).

Definition single (act : Z) (p : GameActivityPointerAxes)
  : GameActivityMotionEvent :=
  mkMotionEvent act 1 (pointer_slots [p]).

Definition one_pointer (act id px py : Z) : GameActivityMotionEvent :=
  single act (mkAxes id (F32.of_int px) (F32.of_int py)).

(** Some content for the uninitialised local [ev]. *)
Definition some_event : TouchScreenEvent :=
  let z := mkPosition F32.zero F32.zero in
  let j := mkPosition (F32.of_int 7) (F32.of_int (-3)) in
  TouchScreenEvent.mk TouchScreenEvent.Up 99 z z z z j
    (mkMotionEvent 0 0 []) 0.

(** A platform on which everything succeeds and the surface measures
    100 x 200. *)
Definition platform_100x200 : Platform :=
  {| app_window := 7;
     eglGetDisplay_ret := 1;
     eglInitialize_ret := true;
     eglChooseConfig_out := Some 5;
     eglCreateWindowSurface_ret := 2;
     eglCreateContext_ret := 3;
     eglMakeCurrent_ret := true;
     egl_error_after_bind := EGL_SUCCESS;
     vs_compile_status := true;
     fs_compile_status := true;
     malloc_nonnull := true;
     query_width := 100;
     query_height := 200;
     eglSwapBuffers_ret := true;
     egl_error_after_swap := EGL_SUCCESS;
     glGetError_rets := [];
     libm_fmod := fun a _ => a;
     libm_sin := fun _ => F32.zero;
     libm_cos := fun _ => F32.one |}.

(** The engine a run leaves, or [s] itself if the run aborted. *)
Definition engine_after {A} (m : M A) (s : NativeEngine) : NativeEngine :=
  match snd (m s) with
  | Some (_, s') => s'
  | None => s
  end.

(** The engine after its first frame: the render context exists and the
    size 100 x 200 is cached; nothing is tracked. *)
Definition engine_100x200 : NativeEngine :=
  engine_after (DoFrame platform_100x200) (NativeEngine_new GameLoop_vertices).

(** The same engine after the events of one input buffer. *)
Definition engine_after_events (l : list GameActivityMotionEvent)
  : NativeEngine :=
  engine_after
    (process_input_events (fun _ => some_event) (Some (mkInputBuffer l)))
    engine_100x200.

(** The deltas of a path: each position against the one before it. *)
Fixpoint deltas (prev : Position) (l : list Position) : list Position :=
  match l with
  | [] => []
  | p :: l' => delta p prev :: deltas p l'
  end.

(* ================================================================= *)
(** ** The engine's operations as a transition system *)

Inductive Op : Type :=
| op_InitDisplay (pf : Platform)
| op_InitSurface (pf : Platform)
| op_InitContext (pf : Platform)
| op_PrepareToRender (pf : Platform)
| op_KillGLObjects
| op_KillSurface
| op_KillContext
| op_KillDisplay
| op_HandleEglError (error : Z)
| op_HandleCommand (window : Z) (cmd : AppCmd)
| op_process_input_events (uninit : nat -> TouchScreenEvent)
    (inputBuffer : option android_input_buffer)
| op_DoFrame (pf : Platform)
| op_GameLoop_turn (polls : list Polled) (uninit : nat -> TouchScreenEvent)
    (inputBuffer : option android_input_buffer) (pf : Platform)
| op_delete.

Definition run_op (o : Op) : M unit :=
  match o with
  | op_InitDisplay pf => InitDisplay pf ;; ret tt
  | op_InitSurface pf => InitSurface pf ;; ret tt
  | op_InitContext pf => InitContext pf ;; ret tt
  | op_PrepareToRender pf => PrepareToRender pf ;; ret tt
  | op_KillGLObjects => KillGLObjects
  | op_KillSurface => KillSurface
  | op_KillContext => KillContext
  | op_KillDisplay => KillDisplay
  | op_HandleEglError e => HandleEglError e ;; ret tt
  | op_HandleCommand w c => HandleCommand w c
  | op_process_input_events u ib => process_input_events u ib
  | op_DoFrame pf => DoFrame pf
  | op_GameLoop_turn polls u ib pf => GameLoop_turn polls u ib pf ;; ret tt
  | op_delete => NativeEngine_delete
  end.

(** [step o s s']: operation [o] runs to completion from [s] and leaves
    [s']. *)
Definition step (o : Op) (s s' : NativeEngine) : Prop :=
  snd (run_op o s) = Some (tt, s').

Inductive reachable : NativeEngine -> Prop :=
| reachable_new : forall vertices, reachable (NativeEngine_new vertices)
| reachable_step : forall o s s',
    reachable s -> step o s s' -> reachable s'.

(** Surface and context are null whenever the display is. *)
Definition handles_ok (s : NativeEngine) : Prop :=
  mEglDisplay s = EGL_NO_DISPLAY ->
  mEglSurface s = EGL_NO_SURFACE /\ mEglContext s = EGL_NO_CONTEXT.

Definition is_draw_or_swap (e : Effect) : bool :=
  match e with
  | glDrawArrays _ _ => true
  | eglSwapBuffers _ _ => true
  | _ => false
  end.

Definition is_destroy (e : Effect) : bool :=
  match e with
  | eglDestroySurface _ _ => true
  | eglDestroyContext _ _ => true
  | eglTerminate _ => true
  | _ => false
  end.

(** A frame that reaches the size comparison and finds a new size. *)
Definition resizes (pf : Platform) (s : NativeEngine) : bool :=
  negb (query_width pf =? mSurfWidth s)
  || negb (query_height pf =? mSurfHeight s).

(** Hoare triples over completed runs, and effects a run never performs. *)
Definition hoare {A} (P : NativeEngine -> Prop) (m : M A)
  (Q : A -> NativeEngine -> Prop) : Prop :=
  forall s, P s -> forall a s', snd (m s) = Some (a, s') -> Q a s'.

Definition preserves {A} (P : NativeEngine -> Prop) (m : M A) : Prop :=
  hoare P m (fun _ => P).

Definition never {A} (bad : Effect -> bool) (m : M A) : Prop :=
  forall s, existsb bad (fst (m s)) = false.

(** The destroy calls a repair may issue, each only for a live handle. *)
Definition destroys_context (s : NativeEngine) : list Effect :=
  if mEglContext s =? EGL_NO_CONTEXT then []
  else [eglDestroyContext (mEglDisplay s) (mEglContext s)].

Definition destroys_surface (s : NativeEngine) : list Effect :=
  if mEglSurface s =? EGL_NO_SURFACE then []
  else [eglDestroySurface (mEglDisplay s) (mEglSurface s)].

Definition terminates_display (s : NativeEngine) : list Effect :=
  if mEglDisplay s =? EGL_NO_DISPLAY then []
  else [eglTerminate (mEglDisplay s)].

(** The outcome of an error repair: the value returned, the three handles
    afterwards and the destroy calls issued, in order. *)
Definition repaired (run : list Effect * option (bool * NativeEngine))
  (handled : bool) (dpy surf ctx : Z) (destroyed : list Effect) : Prop :=
  exists s', snd run = Some (handled, s') /\
    mEglDisplay s' = dpy /\ mEglSurface s' = surf /\ mEglContext s' = ctx /\
    filter is_destroy (fst run) = destroyed.

(** The cached surface size. *)
Definition dims_are (w h : Z) (s : NativeEngine) : Prop :=
  mSurfWidth s = w /\ mSurfHeight s = h.

(** A property of every event handed to the callback during a run. *)
Definition all_emitted (Q : TouchScreenEvent -> Prop) (t : list Effect)
  : Prop :=
  Forall (fun e => match e with Invoke_callback ev _ => Q ev | _ => True end)
    t.

(** The platform answers an operation runs [DoFrame] with, if it does. *)
Definition frame_of (o : Op) : option Platform :=
  match o with
  | op_DoFrame pf => Some pf
  | op_GameLoop_turn _ _ _ pf => Some pf
  | _ => None
  end.

(** An event whose motion range is that of an engine with no cached size. *)
Definition zero_max (ev : TouchScreenEvent) : Prop :=
  TouchScreenEvent.max ev = mkPosition (F32.of_int 0) (F32.of_int 0).

(** An event normalized against a zero size: both quotients have a zero
    divisor and neither lies in [0,1]. *)
Definition divided_by_zero (ev : TouchScreenEvent) : Prop :=
  zero_max ev
  /\ TouchScreenEvent.norm_pos ev =
     mkPosition (F32.div (x (TouchScreenEvent.pos ev)) (F32.of_int 0))
                (F32.div (y (TouchScreenEvent.pos ev)) (F32.of_int 0))
  /\ F32.in_unit_interval (x (TouchScreenEvent.norm_pos ev)) = false
  /\ F32.in_unit_interval (y (TouchScreenEvent.norm_pos ev)) = false.

(** The engine after [callback_touch_screen_event]: a move event shifts
    the triangle by its delta. *)
Definition after_callback (ev : TouchScreenEvent) (s : NativeEngine)
  : NativeEngine :=
  match TouchScreenEvent.type ev with
  | TouchScreenEvent.Move =>
      let d := TouchScreenEvent.move_ndelta ev in
      set_orig_y (map (fun v => F32.add v (y d)) (orig_y s))
        (set_orig_x (map (fun v => F32.add v (x d)) (orig_x s)) s)
  | _ => s
  end.

Definition callback_log : Effect :=
  Log LOGD "%s event x=%.4f y=%.4f pointer_count=%u pointer_index=%u id=%i %s\n".

(** [motionEvent->pointers[i]], when slot [i] exists. *)
Definition slot (motionEvent : GameActivityMotionEvent) (i : Z)
  : option GameActivityPointerAxes :=
  if i <? 0 then None else nth_error (pointers motionEvent) (Z.to_nat i).

(** Everything in the engine except what input processing writes: the
    tracker and the triangle's origin. *)
Definition untouched_by_input (s : NativeEngine) :=
  (mHasFocus s, mIsVisible s, mHasWindow s, mHasGLObjects s,
   (mEglDisplay s, mEglSurface s, mEglContext s, mEglConfig s),
   (mSurfWidth s, mSurfHeight s), mIsFirstFrame s,
   (ogl_loaded s, vs_loaded s, fs_loaded s), nn s,
   g_vertex_buffer_data s, rotate_by s, errorsPrinted s).

(** A call into EGL or OpenGL: one of the calls the trace records with
    its arguments, or a call recorded by name whose name starts with [gl]
    or [egl]. *)
Definition is_graphics_call (e : Effect) : bool :=
  match e with
  | Log _ _ | Invoke_callback _ _ | ALooper_pollAll _ => false
  | Call name => String.prefix "gl" name || String.prefix "egl" name
  | _ => true
  end.

(** The polls a pump gets to see: up to the first destroy request. *)
Fixpoint until_destroy (polls : list Polled) : list Polled :=
  match polls with
  | [] => []
  | p :: polls' =>
      if destroyRequested p then [p] else p :: until_destroy polls'
  end.

(** The first [n] slots of [pointers], each with its index. *)
Fixpoint indexed_slots (from : Z) (n : nat)
  (l : list GameActivityPointerAxes) : list (Z * GameActivityPointerAxes) :=
  match n, l with
  | S n', p :: l' => (from, p) :: indexed_slots (from + 1) n' l'
  | _, _ => []
  end.

(** A move batch: the action is a move and [pointers] has a slot for each
    of the [pointerCount] pointers. *)
Definition is_move_batch (motionEvent : GameActivityMotionEvent) : Prop :=
  Z.land (action motionEvent) AMOTION_EVENT_ACTION_MASK
  = AMOTION_EVENT_ACTION_MOVE
  /\ 0 < pointerCount motionEvent
  /\ pointerCount motionEvent <= Z.of_nat (List.length (pointers motionEvent)).

(** The three EGL handles, and a render context that is complete. *)
Definition handles (s : NativeEngine) : Z * Z * Z :=
  (mEglDisplay s, mEglSurface s, mEglContext s).

Definition all_live (s : NativeEngine) : Prop :=
  mEglDisplay s <> EGL_NO_DISPLAY
  /\ mEglSurface s <> EGL_NO_SURFACE
  /\ mEglContext s <> EGL_NO_CONTEXT.

(** A part of the engine, picked out by [f], has the value [v]. *)
Definition keeps {T : Type} (f : NativeEngine -> T) (v : T)
  (s : NativeEngine) : Prop :=
  f s = v.

(** Everything in the engine that a lifecycle command has no business
    with: all but the three flags, [mHasGLObjects] and the surface
    handle. *)
Definition beyond_lifecycle (s : NativeEngine) :=
  (mEglDisplay s, mEglContext s, mEglConfig s,
   (mSurfWidth s, mSurfHeight s), mIsFirstFrame s,
   (ogl_loaded s, vs_loaded s, fs_loaded s), nn s,
   (orig_x s, orig_y s), g_vertex_buffer_data s, previous_positions s,
   rotate_by s, errorsPrinted s).

Definition is_TERM_WINDOW (cmd : AppCmd) : bool :=
  match cmd with APP_CMD_TERM_WINDOW => true | _ => false end.

Definition is_LOW_MEMORY (cmd : AppCmd) : bool :=
  match cmd with APP_CMD_LOW_MEMORY => true | _ => false end.

(** An invocation of the touch callback, a draw or a buffer swap. *)
Definition is_callback_draw_or_swap (e : Effect) : bool :=
  match e with
  | Invoke_callback _ _ => true
  | _ => is_draw_or_swap e
  end.

(** The count of OpenGL errors logged so far stays within its cap. *)
Definition errors_bounded (s : NativeEngine) : Prop :=
  0 <= errorsPrinted s <= MAX_GL_ERRORS.

Definition is_log (e : Effect) : bool :=
  match e with Log _ _ => true | _ => false end.

(** The handles an EGL error repair leaves, from the ones it finds. *)
Definition handles_after_error (error : Z) (h : Z * Z * Z) : Z * Z * Z :=
  let '(dpy, surf, ctx) := h in
  if (error =? EGL_CONTEXT_LOST) || (error =? EGL_BAD_CONTEXT)
  then (dpy, surf, EGL_NO_CONTEXT)
  else if error =? EGL_BAD_DISPLAY
  then (EGL_NO_DISPLAY, EGL_NO_SURFACE, EGL_NO_CONTEXT)
  else if error =? EGL_BAD_SURFACE then (dpy, EGL_NO_SURFACE, ctx)
  else (dpy, surf, ctx).

(** The frame bookkeeping an error repair leaves alone. *)
Definition frame_state (s : NativeEngine) :=
  (nn s, mIsFirstFrame s, mSurfWidth s, mSurfHeight s).


(** Platforms on which one call fails: [eglInitialize]; and
    [eglSwapBuffers], with the error bad-surface. *)
Definition platform_failing_init : Platform :=
  {| app_window := 7;
     eglGetDisplay_ret := 1;
     eglInitialize_ret := false;
     eglChooseConfig_out := Some 5;
     eglCreateWindowSurface_ret := 2;
     eglCreateContext_ret := 3;
     eglMakeCurrent_ret := true;
     egl_error_after_bind := EGL_SUCCESS;
     vs_compile_status := true;
     fs_compile_status := true;
     malloc_nonnull := true;
     query_width := 100;
     query_height := 200;
     eglSwapBuffers_ret := true;
     egl_error_after_swap := EGL_SUCCESS;
     glGetError_rets := [];
     libm_fmod := fun a _ => a;
     libm_sin := fun _ => F32.zero;
     libm_cos := fun _ => F32.one |}.

Definition platform_failing_swap : Platform :=
  {| app_window := 7;
     eglGetDisplay_ret := 1;
     eglInitialize_ret := true;
     eglChooseConfig_out := Some 5;
     eglCreateWindowSurface_ret := 2;
     eglCreateContext_ret := 3;
     eglMakeCurrent_ret := true;
     egl_error_after_bind := EGL_SUCCESS;
     vs_compile_status := true;
     fs_compile_status := true;
     malloc_nonnull := true;
     query_width := 100;
     query_height := 200;
     eglSwapBuffers_ret := false;
     egl_error_after_swap := EGL_BAD_SURFACE;
     glGetError_rets := [];
     libm_fmod := fun a _ => a;
     libm_sin := fun _ => F32.zero;
     libm_cos := fun _ => F32.one |}.


(** The pointers of a move batch: the first [pointerCount] slots. *)
Definition batch_pointers (motionEvent : GameActivityMotionEvent)
  : list GameActivityPointerAxes :=
  firstn (Z.to_nat (pointerCount motionEvent)) (pointers motionEvent).

(** The pointers an event hands to the callback, in order: the pointer a
    down or up event names, every pointer of a move batch, none for an
    event the switch does not handle; [None] when the event names a slot
    that [pointers] does not have. *)
Definition handed_pointers (motionEvent : GameActivityMotionEvent)
  : option (list GameActivityPointerAxes) :=
  let one i :=
    if i =? GAMEACTIVITY_MAX_NUM_POINTERS_IN_MOTION_EVENT then Some []
    else option_map (fun p => [p]) (slot motionEvent i) in
  if 0 <? pointerCount motionEvent then
    match down_index motionEvent with
    | Some i => one i
    | None =>
        match up_index motionEvent with
        | Some i => one i
        | None =>
            if Z.land (action motionEvent) AMOTION_EVENT_ACTION_MASK
               =? AMOTION_EVENT_ACTION_MOVE
            then
              if pointerCount motionEvent
                 <=? Z.of_nat (List.length (pointers motionEvent))
              then Some (batch_pointers motionEvent)
              else None
            else Some []
        end
    end
  else Some [].

(** A raw position and what dividing it by a zero size gives. *)
Definition raw (p : GameActivityPointerAxes) : Position :=
  mkPosition (axes_X p) (axes_Y p).

Definition over_zero (p : GameActivityPointerAxes) : Position :=
  mkPosition (F32.div (axes_X p) (F32.of_int 0))
             (F32.div (axes_Y p) (F32.of_int 0)).

Definition outside_unit_square (q : Position) : Prop :=
  F32.in_unit_interval (x q) = false /\ F32.in_unit_interval (y q) = false.

(** The tracker after the pointers [ps] moved, in order, while the engine
    caches the surface size of [s]: each move writes the first record of
    its id. *)
Definition tracker_after_moves (s : NativeEngine)
  (ps : list GameActivityPointerAxes) (l : tracker) : tracker :=
  fold_left (fun l p => write_first (axes_id p) (normalized s p) l) ps l.

(** The position a move of [id] is measured against once a down event of
    [id] at [p0] was processed in [s]: an older record of [id] if one is
    still held, the down position otherwise. *)
Definition reference_after_down (s : NativeEngine)
  (p0 : GameActivityPointerAxes) : Position :=
  match find_if (axes_id p0) (previous_positions s) with
  | Some older => older
  | None => normalized s p0
  end.

(* ================================================================= *)
(** * Proofs *)

(** Float arithmetic stays symbolic unless a proof evaluates it. *)
#[local] Arguments F32.of_int : simpl never.
#[local] Arguments F32.add : simpl never.
#[local] Arguments F32.sub : simpl never.
#[local] Arguments F32.mul : simpl never.
#[local] Arguments F32.div : simpl never.
#[local] Arguments F32.ratio : simpl never.
#[local] Arguments F32.in_unit_interval : simpl never.

(** ** Rules for runs, triples and absent effects *)

Lemma bind_done {A B} (m : M A) (f : A -> M B) s t1 a s1 :
  m s = (t1, Some (a, s1)) ->
  bind m f s = (t1 ++ fst (f a s1), snd (f a s1)).
Proof.
  intros E. unfold bind. rewrite E. destruct (f a s1); reflexivity.
Qed.

Lemma bind_aborted {A B} (m : M A) (f : A -> M B) s t1 :
  m s = (t1, None) -> bind m f s = (t1, None).
Proof. intros E. unfold bind. now rewrite E. Qed.

Lemma bind_completes {A B} (m : M A) (f : A -> M B) s b s2 :
  snd (bind m f s) = Some (b, s2) ->
  exists a s1, snd (m s) = Some (a, s1) /\ snd (f a s1) = Some (b, s2).
Proof.
  unfold bind. destruct (m s) as [t1 [[a s1]|]]; simpl.
  - destruct (f a s1) as [t2 o] eqn:E; simpl. intros ->.
    exists a, s1. rewrite E. auto.
  - discriminate.
Qed.

Lemma bind_effects {A B} (m : M A) (f : A -> M B) s :
  fst (bind m f s) =
  fst (m s) ++ match snd (m s) with
               | Some (a, s1) => fst (f a s1)
               | None => []
               end.
Proof.
  unfold bind. destruct (m s) as [t1 [[a s1]|]]; simpl.
  - destruct (f a s1); reflexivity.
  - now rewrite app_nil_r.
Qed.

Section Triples.

Context {A B : Type}.

Lemma hoare_ret (P : NativeEngine -> Prop) (a : A) :
  hoare P (ret a) (fun _ s => P s).
Proof. intros s HP a' s' H. inversion H; subst. exact HP. Qed.

Lemma hoare_bind (P : NativeEngine -> Prop) (Q : A -> NativeEngine -> Prop)
  (R : B -> NativeEngine -> Prop) (m : M A) (f : A -> M B) :
  hoare P m Q -> (forall a, hoare (Q a) (f a) R) -> hoare P (bind m f) R.
Proof.
  intros Hm Hf s HP b s2 H.
  apply bind_completes in H as (a & s1 & H1 & H2).
  exact (Hf a s1 (Hm s HP a s1 H1) b s2 H2).
Qed.

Lemma never_bind (bad : Effect -> bool) (m : M A) (f : A -> M B) :
  never bad m -> (forall a, never bad (f a)) -> never bad (bind m f).
Proof.
  intros Hm Hf s. rewrite bind_effects, existsb_app, Hm.
  destruct (snd (m s)) as [[a s1]|]; simpl; [apply Hf | reflexivity].
Qed.

End Triples.

Lemma hoare_modify (P Q : NativeEngine -> Prop) f :
  (forall s, P s -> Q (f s)) -> hoare P (modify f) (fun _ s => Q s).
Proof. intros Hf s HP a s' H. inversion H; subst. auto. Qed.

Lemma hoare_tell (P : NativeEngine -> Prop) e :
  hoare P (tell e) (fun _ s => P s).
Proof. intros s HP a s' H. inversion H; subst. exact HP. Qed.

Lemma hoare_abort {A} (P : NativeEngine -> Prop) (Q : A -> NativeEngine -> Prop) :
  hoare P abort Q.
Proof. intros s HP a s' H. discriminate. Qed.

Lemma hoare_assert (P : NativeEngine -> Prop) c :
  hoare P (MY_ASSERT c) (fun _ s => P s /\ c = true).
Proof.
  intros s HP a s' H. destruct c; simpl in H; [|discriminate].
  inversion H; subst. auto.
Qed.

Lemma never_ret {A} bad (a : A) : never bad (ret a).
Proof. intros s. reflexivity. Qed.

Lemma never_get bad : never bad get.
Proof. intros s. reflexivity. Qed.

Lemma never_modify bad f : never bad (modify f).
Proof. intros s. reflexivity. Qed.

Lemma never_abort {A} bad : never bad (@abort A).
Proof. intros s. reflexivity. Qed.

Lemma never_tell bad e : bad e = false -> never bad (tell e).
Proof. intros H s. simpl. now rewrite H. Qed.

Lemma never_assert bad c : never bad (MY_ASSERT c).
Proof. intros s. destruct c; reflexivity. Qed.

Lemma never_if {A} bad (c : bool) (m1 m2 : M A) :
  never bad m1 -> never bad m2 -> never bad (if c then m1 else m2).
Proof. destruct c; auto. Qed.

Create HintDb never discriminated.

#[local] Hint Resolve never_ret never_get never_modify never_abort
  never_assert never_if : never.
#[local] Hint Extern 1 (never _ (bind _ _)) =>
  apply never_bind; [| intro] : never.
#[local] Hint Extern 1 (never _ (tell _)) =>
  apply never_tell; reflexivity : never.
#[local] Hint Extern 1 (never _ (LOG _ _)) =>
  apply never_tell; reflexivity : never.

(* ================================================================= *)
(** ** RenderContext: what the three [Kill*] functions do *)

Ltac run_monad :=
  unfold LOG, tell, bind, get, modify, ret, abort; cbn.

Lemma KillGLObjects_run s :
  KillGLObjects s =
  ([], Some (tt, if mHasGLObjects s then set_mHasGLObjects false s else s)).
Proof. unfold KillGLObjects. run_monad. now destruct (mHasGLObjects s). Qed.

Lemma KillSurface_run s :
  KillSurface s =
  ([Log LOGD "NativeEngine: killing surface.";
    eglMakeCurrent (mEglDisplay s) EGL_NO_SURFACE EGL_NO_SURFACE EGL_NO_CONTEXT]
   ++ (if mEglSurface s =? EGL_NO_SURFACE then []
       else [eglDestroySurface (mEglDisplay s) (mEglSurface s)])
   ++ [Log LOGD "NativeEngine: Surface killed successfully."],
   Some (tt, if mEglSurface s =? EGL_NO_SURFACE then s
             else set_mEglSurface EGL_NO_SURFACE s)).
Proof.
  unfold KillSurface. run_monad.
  now destruct (mEglSurface s =? EGL_NO_SURFACE).
Qed.

Lemma KillContext_run s :
  let s1 := if mHasGLObjects s then set_mHasGLObjects false s else s in
  KillContext s =
  ([Log LOGD "NativeEngine: killing context.";
    eglMakeCurrent (mEglDisplay s) EGL_NO_SURFACE EGL_NO_SURFACE EGL_NO_CONTEXT]
   ++ (if mEglContext s =? EGL_NO_CONTEXT then []
       else [eglDestroyContext (mEglDisplay s) (mEglContext s)])
   ++ [Log LOGD "NativeEngine: Context killed successfully."],
   Some (tt, if mEglContext s =? EGL_NO_CONTEXT then s1
             else set_mEglContext EGL_NO_CONTEXT s1)).
Proof.
  unfold KillContext, KillGLObjects. run_monad.
  destruct (mHasGLObjects s); cbn;
    now destruct (mEglContext s =? EGL_NO_CONTEXT).
Qed.

Lemma KillDisplay_run s :
  let s1 := if mHasGLObjects s then set_mHasGLObjects false s else s in
  let s2 := if mEglContext s =? EGL_NO_CONTEXT then s1
            else set_mEglContext EGL_NO_CONTEXT s1 in
  let s3 := if mEglSurface s =? EGL_NO_SURFACE then s2
            else set_mEglSurface EGL_NO_SURFACE s2 in
  KillDisplay s =
  (Log LOGD "NativeEngine: killing display."
   :: fst (KillContext s) ++ fst (KillSurface s2)
   ++ (if mEglDisplay s =? EGL_NO_DISPLAY then []
       else [Log LOGD "NativeEngine: terminating display now.";
             eglTerminate (mEglDisplay s)])
   ++ [Log LOGD "NativeEngine: display killed successfully."],
   Some (tt, if mEglDisplay s =? EGL_NO_DISPLAY then s3
             else set_mEglDisplay EGL_NO_DISPLAY s3)).
Proof.
  unfold KillDisplay, KillContext, KillSurface, KillGLObjects. run_monad.
  destruct (mHasGLObjects s); cbn;
    destruct (mEglContext s =? EGL_NO_CONTEXT); cbn;
    destruct (mEglSurface s =? EGL_NO_SURFACE); cbn;
    now destruct (mEglDisplay s =? EGL_NO_DISPLAY).
Qed.

(* ================================================================= *)
(** ** EGL error recovery *)

#[local] Arguments KillGLObjects : simpl never.
#[local] Arguments KillSurface : simpl never.
#[local] Arguments KillContext : simpl never.
#[local] Arguments KillDisplay : simpl never.

Ltac eqb_hyps :=
  repeat match goal with
         | H : (_ =? _) = true |- _ => apply Z.eqb_eq in H
         | H : (_ =? _) = false |- _ => apply Z.eqb_neq in H
         end.

Lemma HandleEglError_kills_context error s :
  error = EGL_CONTEXT_LOST \/ error = EGL_BAD_CONTEXT ->
  repaired (HandleEglError error s) true (mEglDisplay s) (mEglSurface s)
    EGL_NO_CONTEXT (destroys_context s).
Proof.
  intros [-> | ->]; unfold repaired, HandleEglError, destroys_context; cbn;
    run_monad; rewrite KillContext_run; cbn;
    eexists; (split; [reflexivity|]);
    destruct (mHasGLObjects s), (mEglContext s =? EGL_NO_CONTEXT) eqn:Ec;
    cbn; eqb_hyps; auto.
Qed.

Lemma HandleEglError_kills_display s :
  repaired (HandleEglError EGL_BAD_DISPLAY s) true EGL_NO_DISPLAY
    EGL_NO_SURFACE EGL_NO_CONTEXT
    (destroys_context s ++ destroys_surface s ++ terminates_display s).
Proof.
  unfold repaired, HandleEglError, destroys_context, destroys_surface,
    terminates_display; cbn.
  run_monad. rewrite KillDisplay_run, KillContext_run, KillSurface_run. cbn.
  eexists; split; [reflexivity|].
  destruct (mHasGLObjects s);
    destruct (mEglContext s =? EGL_NO_CONTEXT) eqn:Ec;
    destruct (mEglSurface s =? EGL_NO_SURFACE) eqn:Es;
    destruct (mEglDisplay s =? EGL_NO_DISPLAY) eqn:Ed; cbn;
    rewrite ?Es; cbn; eqb_hyps; auto.
Qed.

Lemma HandleEglError_kills_surface s :
  repaired (HandleEglError EGL_BAD_SURFACE s) true (mEglDisplay s)
    EGL_NO_SURFACE (mEglContext s) (destroys_surface s).
Proof.
  unfold repaired, HandleEglError, destroys_surface; cbn.
  run_monad. rewrite KillSurface_run. cbn. eexists; split; [reflexivity|].
  destruct (mEglSurface s =? EGL_NO_SURFACE) eqn:Es; cbn; eqb_hyps; auto.
Qed.

Lemma HandleEglError_unhandled error s :
  error <> EGL_SUCCESS -> error <> EGL_CONTEXT_LOST ->
  error <> EGL_BAD_CONTEXT -> error <> EGL_BAD_DISPLAY ->
  error <> EGL_BAD_SURFACE ->
  HandleEglError error s =
  ([Log LOGW "NativeEngine: unknown egl error: %d"], Some (false, s)).
Proof.
  intros H1 H2 H3 H4 H5. unfold HandleEglError.
  apply Z.eqb_neq in H1, H2, H3, H4, H5. now rewrite H1, H2, H3, H4, H5.
Qed.

(** C2: [HandleEglError] maps each EGL error code to its repair.
    [EGL_SUCCESS] changes nothing and reports handled; [EGL_CONTEXT_LOST]
    and [EGL_BAD_CONTEXT] destroy and null the context handle only;
    [EGL_BAD_DISPLAY] destroys context, surface and display and leaves all
    three handles null; [EGL_BAD_SURFACE] destroys and nulls the surface
    handle only; every other code changes nothing, destroys nothing and
    reports unhandled.  A destroy call is issued exactly for the handles
    that were live. *)
Theorem HandleEglError_repairs (s : NativeEngine) :
  HandleEglError EGL_SUCCESS s = ([], Some (true, s))
  /\ repaired (HandleEglError EGL_CONTEXT_LOST s) true
       (mEglDisplay s) (mEglSurface s) EGL_NO_CONTEXT (destroys_context s)
  /\ repaired (HandleEglError EGL_BAD_CONTEXT s) true
       (mEglDisplay s) (mEglSurface s) EGL_NO_CONTEXT (destroys_context s)
  /\ repaired (HandleEglError EGL_BAD_DISPLAY s) true
       EGL_NO_DISPLAY EGL_NO_SURFACE EGL_NO_CONTEXT
       (destroys_context s ++ destroys_surface s ++ terminates_display s)
  /\ repaired (HandleEglError EGL_BAD_SURFACE s) true
       (mEglDisplay s) EGL_NO_SURFACE (mEglContext s) (destroys_surface s)
  /\ (forall error,
        ~ In error [EGL_SUCCESS; EGL_CONTEXT_LOST; EGL_BAD_CONTEXT;
                    EGL_BAD_DISPLAY; EGL_BAD_SURFACE] ->
        snd (HandleEglError error s) = Some (false, s) /\
        filter is_destroy (fst (HandleEglError error s)) = []).
Proof.
  split; [reflexivity|].
  split; [apply HandleEglError_kills_context; auto|].
  split; [apply HandleEglError_kills_context; auto|].
  split; [apply HandleEglError_kills_display|].
  split; [apply HandleEglError_kills_surface|].
  intros error H.
  rewrite HandleEglError_unhandled; cbn in *; intuition.
Qed.

(* ================================================================= *)
(** ** Lifecycle commands *)

(** C10: on [APP_CMD_TERM_WINDOW], [HandleCommand] kills the surface (it
    unbinds the current rendering target, destroys the surface if there is
    one and nulls the handle) and then clears [mHasWindow]; the display and
    context handles and the [mHasFocus] and [mIsVisible] flags keep their
    values. *)
Theorem HandleCommand_TERM_WINDOW (window : Z) (s : NativeEngine) :
  exists s',
    snd (HandleCommand window APP_CMD_TERM_WINDOW s) = Some (tt, s')
    /\ fst (HandleCommand window APP_CMD_TERM_WINDOW s) =
       [Log LOGD "NativeEngine: handling command %d.";
        Log LOGD "NativeEngine: APP_CMD_TERM_WINDOW";
        Log LOGD "NativeEngine: killing surface.";
        eglMakeCurrent (mEglDisplay s) EGL_NO_SURFACE EGL_NO_SURFACE
          EGL_NO_CONTEXT]
       ++ destroys_surface s
       ++ [Log LOGD "NativeEngine: Surface killed successfully.";
           Log LOGD "NativeEngine: STATUS: F%d, V%d, W%d, EGL: D %p, S %p, CTX %p, CFG %p"]
    /\ s' = set_mHasWindow false
              (if mEglSurface s =? EGL_NO_SURFACE then s
               else set_mEglSurface EGL_NO_SURFACE s)
    /\ mEglSurface s' = EGL_NO_SURFACE
    /\ mHasWindow s' = false
    /\ mEglDisplay s' = mEglDisplay s
    /\ mEglContext s' = mEglContext s
    /\ mHasFocus s' = mHasFocus s
    /\ mIsVisible s' = mIsVisible s.
Proof.
  unfold HandleCommand, destroys_surface. run_monad.
  rewrite KillSurface_run. cbn.
  eexists. split; [reflexivity|].
  destruct (mEglSurface s =? EGL_NO_SURFACE) eqn:Es; cbn; eqb_hyps;
    repeat split; auto.
Qed.

(* ================================================================= *)
(** ** Invariants of the engine's operations *)

Section Preservation.

Context {A B : Type} (P : NativeEngine -> Prop).

Lemma preserves_ret (a : A) : preserves P (ret a).
Proof. apply hoare_ret. Qed.

Lemma preserves_bind (m : M A) (f : A -> M B) :
  preserves P m -> (forall a, preserves P (f a)) -> preserves P (bind m f).
Proof. intros Hm Hf. eapply hoare_bind; [exact Hm | exact Hf]. Qed.

Lemma preserves_if (c : bool) (m1 m2 : M A) :
  preserves P m1 -> preserves P m2 -> preserves P (if c then m1 else m2).
Proof. destruct c; auto. Qed.

Lemma preserves_abort : preserves P (@abort A).
Proof. apply hoare_abort. Qed.

End Preservation.

Lemma preserves_get P : preserves P get.
Proof. intros s HP a s' H. inversion H; subst. exact HP. Qed.

Lemma preserves_tell P e : preserves P (tell e).
Proof. apply hoare_tell. Qed.

Lemma preserves_LOG P lvl fmt : preserves P (LOG lvl fmt).
Proof. apply hoare_tell. Qed.

Lemma preserves_assert P c : preserves P (MY_ASSERT c).
Proof. intros s HP a s' H. now apply (hoare_assert P c s HP a s' H). Qed.

Lemma preserves_modify (P : NativeEngine -> Prop) f :
  (forall s, P s -> P (f s)) -> preserves P (modify f).
Proof. intros H. now apply hoare_modify. Qed.

Lemma preserves_for_loop {A} P (body : Z -> A -> M A) :
  (forall i acc, preserves P (body i acc)) ->
  forall n from acc, preserves P (for_loop n from body acc).
Proof.
  intros Hb. induction n as [|n IH]; intros from acc; cbn.
  - apply preserves_ret.
  - apply preserves_bind; [apply Hb | intro; apply IH].
Qed.

Create HintDb preserves discriminated.

#[local] Hint Resolve preserves_ret preserves_get preserves_tell preserves_LOG
  preserves_assert preserves_abort preserves_if : preserves.
#[local] Hint Extern 1 (preserves _ (bind _ _)) =>
  apply preserves_bind; [| intro] : preserves.
#[local] Hint Extern 1 (preserves _ (match ?c with _ => _ end)) =>
  destruct c : preserves.

(** A field update that leaves alone what a predicate talks about. *)
Ltac field_update P :=
  apply preserves_modify; intros ? ?; unfold P in *; cbn in *; intuition auto.

#[local] Hint Extern 2 (preserves handles_ok (modify _)) =>
  field_update handles_ok : preserves.
#[local] Hint Extern 2 (preserves (dims_are _ _) (modify _)) =>
  field_update dims_are : preserves.

Ltac run_monad_in H :=
  unfold LOG, tell, bind, get, modify, ret, abort, MY_ASSERT in H; cbn in H.

Lemma KillGLObjects_handles : preserves handles_ok KillGLObjects.
Proof. unfold KillGLObjects. auto with preserves. Qed.

Lemma KillSurface_handles : preserves handles_ok KillSurface.
Proof. unfold KillSurface. auto 10 with preserves. Qed.

#[local] Hint Resolve KillGLObjects_handles KillSurface_handles : preserves.

Lemma KillContext_handles : preserves handles_ok KillContext.
Proof. unfold KillContext. auto 10 with preserves. Qed.

Lemma KillDisplay_nulls s :
  exists s', snd (KillDisplay s) = Some (tt, s') /\
    mEglDisplay s' = EGL_NO_DISPLAY /\ mEglSurface s' = EGL_NO_SURFACE /\
    mEglContext s' = EGL_NO_CONTEXT.
Proof.
  rewrite KillDisplay_run. cbn. eexists; split; [reflexivity|].
  destruct (mHasGLObjects s);
    destruct (mEglContext s =? EGL_NO_CONTEXT) eqn:Ec;
    destruct (mEglSurface s =? EGL_NO_SURFACE) eqn:Es;
    destruct (mEglDisplay s =? EGL_NO_DISPLAY) eqn:Ed; cbn; eqb_hyps; auto.
Qed.

Lemma KillDisplay_handles : preserves handles_ok KillDisplay.
Proof.
  intros s _ a s' H. destruct (KillDisplay_nulls s) as (s1 & E & _ & Hs & Hc).
  rewrite E in H. inversion H; subst. now intros _.
Qed.

Lemma InitDisplay_handles pf : preserves handles_ok (InitDisplay pf).
Proof.
  intros s HP a s' H. unfold InitDisplay in H. run_monad_in H.
  destruct (mEglDisplay s =? EGL_NO_DISPLAY) eqn:Ed; cbn in H.
  - destruct (eglInitialize_ret pf); cbn in H; inversion H; subst;
      eqb_hyps; destruct (HP Ed); unfold handles_ok; cbn; auto.
  - inversion H; subst. exact HP.
Qed.

Lemma InitSurface_handles pf : preserves handles_ok (InitSurface pf).
Proof.
  intros s HP a s' H. unfold InitSurface in H. run_monad_in H.
  destruct (mEglDisplay s =? EGL_NO_DISPLAY) eqn:Ed; cbn in H;
    [discriminate|].
  destruct (mEglSurface s =? EGL_NO_SURFACE) eqn:Es; cbn in H.
  - destruct (eglChooseConfig_out pf); cbn in H;
      destruct (eglCreateWindowSurface_ret pf =? EGL_NO_SURFACE); cbn in H;
      inversion H; subst; eqb_hyps; unfold handles_ok; cbn; intros; tauto.
  - inversion H; subst. exact HP.
Qed.

Lemma InitContext_handles pf : preserves handles_ok (InitContext pf).
Proof.
  intros s HP a s' H. unfold InitContext in H. run_monad_in H.
  destruct (mEglDisplay s =? EGL_NO_DISPLAY) eqn:Ed; cbn in H;
    [discriminate|].
  destruct (mEglContext s =? EGL_NO_CONTEXT) eqn:Es; cbn in H.
  - destruct (eglCreateContext_ret pf =? EGL_NO_CONTEXT); cbn in H;
      inversion H; subst; eqb_hyps; unfold handles_ok; cbn; intros; tauto.
  - inversion H; subst. exact HP.
Qed.

#[local] Hint Resolve KillContext_handles KillDisplay_handles
  InitDisplay_handles InitSurface_handles InitContext_handles : preserves.

Lemma HandleEglError_handles error :
  preserves handles_ok (HandleEglError error).
Proof. unfold HandleEglError. auto 10 with preserves. Qed.

#[local] Hint Resolve HandleEglError_handles : preserves.

(** The input pipeline and the GL plumbing touch neither the handles nor
    the cached size; the proofs are the same for both predicates. *)
Ltac by_fields := auto 30 with preserves.

Section Plumbing.

Variable P : NativeEngine -> Prop.
Hypothesis P_orig_x : forall v s, P s -> P (set_orig_x v s).
Hypothesis P_orig_y : forall v s, P s -> P (set_orig_y v s).
Hypothesis P_previous_positions :
  forall v s, P s -> P (set_previous_positions v s).
Hypothesis P_vs_loaded : forall v s, P s -> P (set_vs_loaded v s).
Hypothesis P_fs_loaded : forall v s, P s -> P (set_fs_loaded v s).
Hypothesis P_errorsPrinted : forall v s, P s -> P (set_errorsPrinted v s).

Local Hint Extern 2 (preserves P (modify _)) =>
  apply preserves_modify; intros ? ?; auto : preserves.

Lemma index_preserves {A} (a : list A) i : preserves P (index a i).
Proof. unfold index. by_fields. Qed.

Lemma callback_preserves ev : preserves P (callback_touch_screen_event ev).
Proof. unfold callback_touch_screen_event. by_fields. Qed.

Local Hint Resolve index_preserves callback_preserves : preserves.

Lemma move_pointer_preserves me i ev : preserves P (move_pointer me i ev).
Proof. unfold move_pointer. by_fields. Qed.

Lemma cook_event_preserves me i ev : preserves P (cook_event me i ev).
Proof. unfold cook_event. by_fields. Qed.

Local Hint Resolve move_pointer_preserves cook_event_preserves : preserves.

Lemma process_motion_event_preserves u me :
  preserves P (process_motion_event u me).
Proof.
  pose proof (fun n from acc => preserves_for_loop P (move_pointer me)
    (move_pointer_preserves me) n from acc).
  unfold process_motion_event. by_fields.
Qed.

Lemma process_motion_events_preserves u l :
  forall i, preserves P (process_motion_events u i l).
Proof.
  induction l as [|me l IH]; intros i; cbn.
  - apply preserves_ret.
  - apply preserves_bind; [apply process_motion_event_preserves | auto].
Qed.

Local Hint Resolve process_motion_events_preserves : preserves.

Lemma process_input_events_preserves u ib :
  preserves P (process_input_events u ib).
Proof. unfold process_input_events. by_fields. Qed.

Lemma ConfigureOpenGL_preserves : preserves P ConfigureOpenGL.
Proof. unfold ConfigureOpenGL. by_fields. Qed.

Lemma load_vertex_shader_preserves pf : preserves P (load_vertex_shader pf).
Proof. unfold load_vertex_shader. by_fields. Qed.

Lemma load_frag_shader_preserves pf : preserves P (load_frag_shader pf).
Proof. unfold load_frag_shader. by_fields. Qed.

Lemma load_program_preserves : preserves P load_program.
Proof. unfold load_program. by_fields. Qed.

Lemma setup_vertex_buffer_preserves : preserves P setup_vertex_buffer.
Proof. unfold setup_vertex_buffer. by_fields. Qed.

Lemma _log_opengl_error_preserves e : preserves P (_log_opengl_error e).
Proof. unfold _log_opengl_error. by_fields. Qed.

Local Hint Resolve _log_opengl_error_preserves : preserves.

Lemma print_gl_errors_preserves l : preserves P (print_gl_errors l).
Proof.
  induction l as [|e l IH]; cbn; by_fields.
Qed.

End Plumbing.

Ltac plumbing P :=
  first [ apply process_input_events_preserves
        | apply ConfigureOpenGL_preserves
        | apply load_vertex_shader_preserves
        | apply load_frag_shader_preserves
        | apply load_program_preserves
        | apply setup_vertex_buffer_preserves
        | apply print_gl_errors_preserves ];
  intros ? ? ?; unfold P in *; cbn in *; intuition auto.

#[local] Hint Extern 1 (preserves handles_ok (process_input_events _ _)) =>
  plumbing handles_ok : preserves.
#[local] Hint Extern 1 (preserves handles_ok ConfigureOpenGL) =>
  plumbing handles_ok : preserves.
#[local] Hint Extern 1 (preserves handles_ok (load_vertex_shader _)) =>
  plumbing handles_ok : preserves.
#[local] Hint Extern 1 (preserves handles_ok (load_frag_shader _)) =>
  plumbing handles_ok : preserves.
#[local] Hint Extern 1 (preserves handles_ok load_program) =>
  plumbing handles_ok : preserves.
#[local] Hint Extern 1 (preserves handles_ok setup_vertex_buffer) =>
  plumbing handles_ok : preserves.
#[local] Hint Extern 1 (preserves handles_ok (print_gl_errors _)) =>
  plumbing handles_ok : preserves.

Lemma PrepareToRender_handles pf : preserves handles_ok (PrepareToRender pf).
Proof. unfold PrepareToRender. by_fields. Qed.

#[local] Hint Resolve PrepareToRender_handles : preserves.

Lemma DoFrame_handles pf : preserves handles_ok (DoFrame pf).
Proof. unfold DoFrame. by_fields. Qed.

Lemma HandleCommand_handles window cmd :
  preserves handles_ok (HandleCommand window cmd).
Proof. unfold HandleCommand. destruct cmd; by_fields. Qed.

#[local] Hint Resolve DoFrame_handles HandleCommand_handles : preserves.

Lemma pump_handles polls : preserves handles_ok (pump polls).
Proof. induction polls as [|p polls IH]; cbn; by_fields. Qed.

#[local] Hint Resolve pump_handles : preserves.

Lemma GameLoop_turn_handles polls u ib pf :
  preserves handles_ok (GameLoop_turn polls u ib pf).
Proof. unfold GameLoop_turn. by_fields. Qed.

#[local] Hint Resolve GameLoop_turn_handles : preserves.

Lemma run_op_handles o : preserves handles_ok (run_op o).
Proof. destruct o; cbn; unfold NativeEngine_delete; by_fields. Qed.

Lemma reachable_handles_ok s : reachable s -> handles_ok s.
Proof.
  induction 1 as [v | o s s' _ IH Hstep].
  - intros _. split; reflexivity.
  - exact (run_op_handles o s IH tt s' Hstep).
Qed.

Lemma KillDisplay_destroys_in_order s :
  filter is_destroy (fst (KillDisplay s)) =
  destroys_context s ++ destroys_surface s ++ terminates_display s.
Proof.
  rewrite KillDisplay_run, KillContext_run, KillSurface_run.
  unfold destroys_context, destroys_surface, terminates_display. cbn.
  destruct (mHasGLObjects s);
    destruct (mEglContext s =? EGL_NO_CONTEXT) eqn:Ec;
    destruct (mEglSurface s =? EGL_NO_SURFACE) eqn:Es;
    destruct (mEglDisplay s =? EGL_NO_DISPLAY) eqn:Ed; cbn;
    rewrite ?Es; reflexivity.
Qed.

(** C8: in every state the engine's operations reach from a freshly
    constructed engine, the surface and context handles are null whenever
    the display handle is; and [KillDisplay] leaves all three handles null,
    issuing its destroy calls in the order context, surface, display, each
    for a live handle only. *)
Theorem display_is_root :
  (forall s, reachable s -> handles_ok s)
  /\ (forall s, exists s',
        snd (KillDisplay s) = Some (tt, s')
        /\ mEglDisplay s' = EGL_NO_DISPLAY
        /\ mEglSurface s' = EGL_NO_SURFACE
        /\ mEglContext s' = EGL_NO_CONTEXT
        /\ filter is_destroy (fst (KillDisplay s)) =
           destroys_context s ++ destroys_surface s ++ terminates_display s).
Proof.
  split; [exact reachable_handles_ok|].
  intros s. destruct (KillDisplay_nulls s) as (s' & E & Hd & Hs & Hc).
  exists s'. repeat split; auto. apply KillDisplay_destroys_in_order.
Qed.

(* ================================================================= *)
(** ** Frames: the cached size, draws and swaps *)

#[local] Hint Extern 1 (preserves (dims_are _ _) (process_input_events _ _)) =>
  plumbing dims_are : preserves.
#[local] Hint Extern 1 (preserves (dims_are _ _) ConfigureOpenGL) =>
  plumbing dims_are : preserves.
#[local] Hint Extern 1 (preserves (dims_are _ _) (load_vertex_shader _)) =>
  plumbing dims_are : preserves.
#[local] Hint Extern 1 (preserves (dims_are _ _) (load_frag_shader _)) =>
  plumbing dims_are : preserves.
#[local] Hint Extern 1 (preserves (dims_are _ _) load_program) =>
  plumbing dims_are : preserves.
#[local] Hint Extern 1 (preserves (dims_are _ _) setup_vertex_buffer) =>
  plumbing dims_are : preserves.
#[local] Hint Extern 1 (preserves (dims_are _ _) (print_gl_errors _)) =>
  plumbing dims_are : preserves.

Lemma KillGLObjects_dims w h : preserves (dims_are w h) KillGLObjects.
Proof. unfold KillGLObjects. by_fields. Qed.

Lemma KillSurface_dims w h : preserves (dims_are w h) KillSurface.
Proof. unfold KillSurface. by_fields. Qed.

#[local] Hint Resolve KillGLObjects_dims KillSurface_dims : preserves.

Lemma KillContext_dims w h : preserves (dims_are w h) KillContext.
Proof. unfold KillContext. by_fields. Qed.

#[local] Hint Resolve KillContext_dims : preserves.

Lemma KillDisplay_dims w h : preserves (dims_are w h) KillDisplay.
Proof. unfold KillDisplay. by_fields. Qed.

#[local] Hint Resolve KillDisplay_dims : preserves.

Lemma HandleEglError_dims w h error :
  preserves (dims_are w h) (HandleEglError error).
Proof. unfold HandleEglError. by_fields. Qed.

Lemma InitDisplay_dims w h pf : preserves (dims_are w h) (InitDisplay pf).
Proof. unfold InitDisplay. by_fields. Qed.

Lemma InitSurface_dims w h pf : preserves (dims_are w h) (InitSurface pf).
Proof. unfold InitSurface. by_fields. Qed.

Lemma InitContext_dims w h pf : preserves (dims_are w h) (InitContext pf).
Proof. unfold InitContext. by_fields. Qed.

#[local] Hint Resolve HandleEglError_dims InitDisplay_dims InitSurface_dims
  InitContext_dims : preserves.

Lemma PrepareToRender_dims w h pf :
  preserves (dims_are w h) (PrepareToRender pf).
Proof. unfold PrepareToRender. by_fields. Qed.

Lemma HandleCommand_dims w h window cmd :
  preserves (dims_are w h) (HandleCommand window cmd).
Proof. unfold HandleCommand. destruct cmd; by_fields. Qed.

#[local] Hint Resolve PrepareToRender_dims HandleCommand_dims : preserves.

Lemma pump_dims w h polls : preserves (dims_are w h) (pump polls).
Proof. induction polls as [|p polls IH]; cbn; by_fields. Qed.

#[local] Hint Resolve pump_dims : preserves.

(** [PrepareToRender] and everything below it never draws or swaps. *)
#[local] Hint Extern 1 (never _ (match ?c with _ => _ end)) =>
  destruct c : never.

Ltac no_effect := auto 40 with never.

Lemma KillSurface_never_draws : never is_draw_or_swap KillSurface.
Proof. unfold KillSurface. no_effect. Qed.

Lemma KillContext_never_draws : never is_draw_or_swap KillContext.
Proof. unfold KillContext, KillGLObjects. no_effect. Qed.

#[local] Hint Resolve KillSurface_never_draws KillContext_never_draws : never.

Lemma HandleEglError_never_draws error :
  never is_draw_or_swap (HandleEglError error).
Proof. unfold HandleEglError, KillDisplay. no_effect. Qed.

#[local] Hint Resolve HandleEglError_never_draws : never.

Lemma PrepareToRender_never_draws pf :
  never is_draw_or_swap (PrepareToRender pf).
Proof.
  unfold PrepareToRender, InitDisplay, InitSurface, InitContext,
    ConfigureOpenGL, load_vertex_shader, load_frag_shader, load_program,
    setup_vertex_buffer.
  no_effect.
Qed.

Lemma PrepareToRender_keeps_size pf s r s1 :
  snd (PrepareToRender pf s) = Some (r, s1) ->
  mSurfWidth s1 = mSurfWidth s /\ mSurfHeight s1 = mSurfHeight s.
Proof.
  intros H.
  exact (PrepareToRender_dims _ _ pf s (conj eq_refl eq_refl) r s1 H).
Qed.

Lemma DoFrame_resize pf s s1 :
  snd (PrepareToRender pf s) = Some (true, s1) ->
  resizes pf s = true ->
  DoFrame pf s =
  (fst (PrepareToRender pf s)
   ++ [eglQuerySurface (mEglDisplay s1) (mEglSurface s1) "EGL_WIDTH";
       eglQuerySurface (mEglDisplay s1) (mEglSurface s1) "EGL_HEIGHT";
       Log LOGD "NativeEngine: surface changed size %dx%d --> %dx%d";
       glViewport 0 0 (query_width pf) (query_height pf)],
   Some (tt, set_mSurfHeight (query_height pf)
               (set_mSurfWidth (query_width pf) s1))).
Proof.
  intros H R. destruct (PrepareToRender_keeps_size _ _ _ _ H) as [Ew Eh].
  destruct (PrepareToRender pf s) as [t1 o] eqn:E. cbn in H. subst o.
  unfold DoFrame. rewrite (bind_done _ _ _ _ _ _ E). cbn [negb].
  unfold resizes in R. rewrite <- Ew, <- Eh in R.
  run_monad. rewrite R. reflexivity.
Qed.

Lemma DoFrame_not_ready pf s s1 :
  snd (PrepareToRender pf s) = Some (false, s1) ->
  DoFrame pf s =
  (fst (PrepareToRender pf s)
   ++ [Log LOGD "NativeEngine: preparation to render failed."],
   Some (tt, s1)).
Proof.
  intros H. destruct (PrepareToRender pf s) as [t1 o] eqn:E. cbn in H.
  subst o. unfold DoFrame. now rewrite (bind_done _ _ _ _ _ _ E).
Qed.

Lemma DoFrame_aborted pf s :
  snd (PrepareToRender pf s) = None ->
  DoFrame pf s = (fst (PrepareToRender pf s), None).
Proof.
  intros H. destruct (PrepareToRender pf s) as [t1 o] eqn:E. cbn in H.
  subst o. unfold DoFrame. now rewrite (bind_aborted _ _ _ _ E).
Qed.

Lemma DoFrame_renders pf s s1 :
  snd (PrepareToRender pf s) = Some (true, s1) ->
  resizes pf s = false ->
  exists t2 t3,
    fst (DoFrame pf s) =
    fst (PrepareToRender pf s) ++ t2 ++ glDrawArrays 0 3
      :: eglSwapBuffers (mEglDisplay s1) (mEglSurface s1) :: t3
    /\ existsb is_draw_or_swap t2 = false.
Proof.
  intros H R. destruct (PrepareToRender_keeps_size _ _ _ _ H) as [Ew Eh].
  destruct (PrepareToRender pf s) as [t1 o] eqn:E. cbn in H. subst o.
  unfold DoFrame. rewrite (bind_done _ _ _ _ _ _ E). cbn [negb fst].
  unfold resizes in R. rewrite <- Ew, <- Eh in R.
  set (tail := (if negb (eglSwapBuffers_ret pf) then _ else ret tt) ;; _).
  run_monad. rewrite R.
  destruct (mIsFirstFrame s1); cbn;
    match goal with
    | |- context [tail ?z] => destruct (tail z) as [t3 o3]
    end; cbn;
    eexists (_ :: _ :: _ :: _ :: nil), t3; split; reflexivity.
Qed.

Lemma resize_frame_is_quiet pf s :
  resizes pf s = true -> existsb is_draw_or_swap (fst (DoFrame pf s)) = false.
Proof.
  intros R. pose proof (PrepareToRender_never_draws pf s) as N.
  destruct (snd (PrepareToRender pf s)) as [[[|] s1]|] eqn:E.
  - rewrite (DoFrame_resize _ _ _ E R). cbn [fst].
    now rewrite existsb_app, N.
  - rewrite (DoFrame_not_ready _ _ _ E). cbn [fst].
    now rewrite existsb_app, N.
  - now rewrite (DoFrame_aborted _ _ E).
Qed.

(** C7: a [DoFrame] whose queried surface size differs from the cached one
    issues neither [glDrawArrays] nor [eglSwapBuffers]; when it gets as far
    as the query (the render context is prepared) it stores the queried
    size, resizes the viewport to it and ends there.  Conversely a frame
    that draws or swaps found the queried size equal to the cached one, and
    a prepared frame with an unchanged size does draw and swap. *)
Theorem resize_frame_never_draws (pf : Platform) (s : NativeEngine) :
  (resizes pf s = true ->
     existsb is_draw_or_swap (fst (DoFrame pf s)) = false)
  /\ (forall s1,
        snd (PrepareToRender pf s) = Some (true, s1) ->
        resizes pf s = true ->
        exists s',
          snd (DoFrame pf s) = Some (tt, s')
          /\ mSurfWidth s' = query_width pf
          /\ mSurfHeight s' = query_height pf
          /\ fst (DoFrame pf s) =
             fst (PrepareToRender pf s)
             ++ [eglQuerySurface (mEglDisplay s1) (mEglSurface s1) "EGL_WIDTH";
                 eglQuerySurface (mEglDisplay s1) (mEglSurface s1) "EGL_HEIGHT";
                 Log LOGD "NativeEngine: surface changed size %dx%d --> %dx%d";
                 glViewport 0 0 (query_width pf) (query_height pf)])
  /\ (existsb is_draw_or_swap (fst (DoFrame pf s)) = true ->
        query_width pf = mSurfWidth s /\ query_height pf = mSurfHeight s)
  /\ (forall s1,
        snd (PrepareToRender pf s) = Some (true, s1) ->
        resizes pf s = false ->
        In (glDrawArrays 0 3) (fst (DoFrame pf s))
        /\ In (eglSwapBuffers (mEglDisplay s1) (mEglSurface s1))
             (fst (DoFrame pf s))).
Proof.
  split; [apply resize_frame_is_quiet|].
  split.
  { intros s1 E R. rewrite (DoFrame_resize _ _ _ E R). cbn.
    eexists. split; [reflexivity|]. cbn. auto. }
  split.
  { intros D. destruct (resizes pf s) eqn:R.
    - rewrite (resize_frame_is_quiet _ _ R) in D. discriminate.
    - unfold resizes in R. apply orb_false_elim in R as [Rw Rh].
      apply negb_false_iff in Rw, Rh. now eqb_hyps. }
  intros s1 E R. destruct (DoFrame_renders _ _ _ E R) as (t2 & t3 & -> & _).
  split; apply in_or_app; right; apply in_or_app; right; cbn; auto.
Qed.

(* ================================================================= *)
(** ** The input pipeline in closed form *)

Lemma callback_run ev s :
  callback_touch_screen_event ev s =
  ([Invoke_callback ev (previous_positions s); callback_log],
   Some (tt, after_callback ev s)).
Proof.
  unfold callback_touch_screen_event, after_callback. run_monad.
  now destruct (TouchScreenEvent.type ev).
Qed.

#[local] Arguments callback_touch_screen_event : simpl never.

Lemma index_run {A} (a : list A) i s :
  index a i s =
  match (if i <? 0 then None else nth_error a (Z.to_nat i)) with
  | Some v => ([], Some (v, s))
  | None => ([], None)
  end.
Proof.
  unfold index. destruct (i <? 0); [reflexivity|].
  now destruct (nth_error a (Z.to_nat i)).
Qed.

Lemma move_pointer_run me i ev s :
  move_pointer me i ev s =
  match slot me i with
  | None => ([], None)
  | Some p =>
      let ev1 := fill_from_pointer i p ev in
      match find_if (TouchScreenEvent.id ev1) (previous_positions s) with
      | None =>
          ([Log LOGE "baaaaaaaaaaaaaaaaad\n";
            Invoke_callback ev1 (previous_positions s); callback_log],
           Some (ev1, after_callback ev1 s))
      | Some pp =>
          let ev2 := TouchScreenEvent.set_move_ndelta
                       (delta (TouchScreenEvent.norm_pos ev1) pp) ev1 in
          let s2 := set_previous_positions
                      (write_first (TouchScreenEvent.id ev1)
                         (TouchScreenEvent.norm_pos ev1)
                         (previous_positions s)) s in
          ([Invoke_callback ev2 (previous_positions s2); callback_log],
           Some (ev2, after_callback ev2 s2))
      end
  end.
Proof.
  unfold move_pointer, slot. unfold bind at 1. rewrite index_run.
  destruct (if i <? 0 then None else nth_error (pointers me) (Z.to_nat i))
    as [p|]; [|reflexivity].
  cbn zeta. run_monad.
  destruct (find_if _ (previous_positions s)) as [pp|]; cbn;
    rewrite callback_run; reflexivity.
Qed.

Lemma cook_event_run me i ev s :
  cook_event me i ev s =
  match slot me i with
  | None => ([], None)
  | Some p =>
      let ev1 := fill_from_pointer i p ev in
      let id := TouchScreenEvent.id ev1 in
      match TouchScreenEvent.type ev with
      | TouchScreenEvent.Up =>
          let s1 := set_previous_positions
                      (remove_if id (previous_positions s)) s in
          ((if found_by_remove_if id (previous_positions s) then []
            else [Log LOGE "noooooooooooooo\n"])
           ++ [Invoke_callback ev1 (previous_positions s1); callback_log],
           Some (tt, s1))
      | TouchScreenEvent.Down =>
          let s1 := set_previous_positions
                      (push_back id (TouchScreenEvent.norm_pos ev1)
                         (previous_positions s)) s in
          ([Invoke_callback ev1 (previous_positions s1); callback_log],
           Some (tt, s1))
      | TouchScreenEvent.Move =>
          ([Invoke_callback ev1 (previous_positions s); callback_log],
           Some (tt, after_callback ev1 s))
      end
  end.
Proof.
  unfold cook_event, slot. unfold bind at 1. rewrite index_run.
  destruct (if i <? 0 then None else nth_error (pointers me) (Z.to_nat i))
    as [p|]; [|reflexivity].
  cbn zeta. cbn [TouchScreenEvent.type fill_from_pointer
    TouchScreenEvent.set_norm_pos TouchScreenEvent.set_pos
    TouchScreenEvent.set_id TouchScreenEvent.set_pointer_index].
  destruct (TouchScreenEvent.type ev) eqn:Ety; run_monad;
    rewrite ?callback_run; cbn.
  - destruct (found_by_remove_if _ _); cbn; rewrite callback_run; cbn;
      unfold after_callback; cbn; rewrite Ety; reflexivity.
  - unfold after_callback; cbn; rewrite Ety; reflexivity.
  - reflexivity.
Qed.


(* ================================================================= *)
(** ** Normalization while no surface size is cached *)

#[local] Arguments fill_from_pointer : simpl never.

Lemma process_motion_event_cases u me s :
  process_motion_event u me s =
  if 0 <? pointerCount me then
    match down_index me with
    | Some i =>
        if i =? GAMEACTIVITY_MAX_NUM_POINTERS_IN_MOTION_EVENT
        then ([], Some (tt, s))
        else cook_event me i (ev_start u me s TouchScreenEvent.Down) s
    | None =>
        match up_index me with
        | Some i =>
            if i =? GAMEACTIVITY_MAX_NUM_POINTERS_IN_MOTION_EVENT
            then ([], Some (tt, s))
            else cook_event me i (ev_start u me s TouchScreenEvent.Up) s
        | None =>
            if Z.land (action me) AMOTION_EVENT_ACTION_MASK
               =? AMOTION_EVENT_ACTION_MOVE
            then
              let run := for_loop (Z.to_nat (pointerCount me)) 0
                           (move_pointer me)
                           (ev_start u me s TouchScreenEvent.Move) s in
              (fst run, option_map (fun p => (tt, snd p)) (snd run))
            else ([], Some (tt, s))
        end
    end
  else ([], Some (tt, s)).
Proof.
  unfold process_motion_event, down_index, up_index.
  destruct (0 <? pointerCount me); [|reflexivity].
  cbn zeta. unfold bind at 1. cbn [get].
  fold (ev_start u me s TouchScreenEvent.Down).
  fold (ev_start u me s TouchScreenEvent.Up).
  fold (ev_start u me s TouchScreenEvent.Move).
  destruct (_ =? AMOTION_EVENT_ACTION_DOWN).
  { unfold bind, ret; cbn.
    destruct (cook_event _ _ _ _) as [t o]. reflexivity. }
  destruct (_ =? AMOTION_EVENT_ACTION_POINTER_DOWN).
  { unfold bind, ret; cbn.
    destruct (_ =? GAMEACTIVITY_MAX_NUM_POINTERS_IN_MOTION_EVENT);
      [reflexivity|]. cbn.
    destruct (cook_event _ _ _ _) as [t o]. reflexivity. }
  destruct (_ =? AMOTION_EVENT_ACTION_UP).
  { unfold bind, ret; cbn.
    destruct (cook_event _ _ _ _) as [t o]. reflexivity. }
  destruct (_ =? AMOTION_EVENT_ACTION_POINTER_UP).
  { unfold bind, ret; cbn.
    destruct (_ =? GAMEACTIVITY_MAX_NUM_POINTERS_IN_MOTION_EVENT);
      [reflexivity|]. cbn.
    destruct (cook_event _ _ _ _) as [t o]. reflexivity. }
  destruct (_ =? AMOTION_EVENT_ACTION_MOVE); [|reflexivity].
  unfold bind, ret; cbn.
  destruct (for_loop _ _ _ _ _) as [t [[ev' s']|]]; cbn;
    now rewrite ?app_nil_r.
Qed.

Lemma all_emitted_app Q t1 t2 :
  all_emitted Q t1 -> all_emitted Q t2 -> all_emitted Q (t1 ++ t2).
Proof. intros H1 H2. apply Forall_app. now split. Qed.

Lemma all_emitted_In Q t ev :
  all_emitted Q t -> In ev (emitted t) -> Q ev.
Proof.
  induction 1 as [|e t He _ IH]; cbn; [tauto|].
  destruct e; auto. intros [<- | Hin]; auto.
Qed.

Lemma div_by_cached_zero (a : float) :
  F32.in_unit_interval (F32.div a (F32.of_int 0)) = false.
Proof. destruct a as [[|]|[|]| |[|] m e]; reflexivity. Qed.

Lemma fill_from_pointer_zero_max i p ev :
  zero_max ev -> divided_by_zero (fill_from_pointer i p ev).
Proof.
  unfold divided_by_zero, zero_max, fill_from_pointer. cbn. intros ->. cbn.
  now rewrite !div_by_cached_zero.
Qed.

Ltac emitted_list :=
  unfold all_emitted;
  repeat first [ apply Forall_nil
               | apply Forall_cons; [cbn; try exact I |] ].

Lemma move_pointer_zero_max me i ev s :
  zero_max ev ->
  all_emitted divided_by_zero (fst (move_pointer me i ev s))
  /\ forall ev' s', snd (move_pointer me i ev s) = Some (ev', s') ->
                    zero_max ev'.
Proof.
  intros HZ. rewrite move_pointer_run.
  destruct (slot me i) as [p|]; [|split; [constructor | discriminate]].
  pose proof (fill_from_pointer_zero_max i p ev HZ) as Z1.
  cbn zeta. destruct (find_if _ _) as [pp|]; cbn;
    (split; [emitted_list; exact Z1|]);
    intros ev' s' E; inversion E; subst; exact (proj1 Z1).
Qed.

Lemma for_loop_zero_max me n :
  forall from ev s,
    zero_max ev ->
    all_emitted divided_by_zero
      (fst (for_loop n from (move_pointer me) ev s)).
Proof.
  induction n as [|n IH]; intros from ev s HZ; [constructor|].
  cbn [for_loop]. rewrite bind_effects.
  destruct (move_pointer_zero_max me from ev s HZ) as [H Z'].
  apply all_emitted_app; [exact H|].
  destruct (snd (move_pointer me from ev s)) as [[ev' s']|]; cbn;
    [apply IH; eapply Z'; reflexivity | constructor].
Qed.

Lemma cook_event_zero_max me i ev s :
  zero_max ev -> all_emitted divided_by_zero (fst (cook_event me i ev s)).
Proof.
  intros HZ. rewrite cook_event_run.
  destruct (slot me i) as [p|]; [|constructor].
  pose proof (fill_from_pointer_zero_max i p ev HZ) as Z1.
  cbn zeta. destruct (TouchScreenEvent.type ev); cbn;
    try destruct (found_by_remove_if _ _); cbn; emitted_list; exact Z1.
Qed.

Lemma ev_start_zero_max u me s ty :
  dims_are 0 0 s -> zero_max (ev_start u me s ty).
Proof. intros [Hw Hh]. unfold zero_max, ev_start. cbn. now rewrite Hw, Hh. Qed.

Lemma process_motion_event_unsized u me s :
  dims_are 0 0 s ->
  all_emitted divided_by_zero (fst (process_motion_event u me s)).
Proof.
  intros D. rewrite process_motion_event_cases.
  destruct (0 <? pointerCount me); [|constructor].
  destruct (down_index me) as [i|].
  { destruct (i =? _); [constructor|].
    apply cook_event_zero_max, ev_start_zero_max, D. }
  destruct (up_index me) as [i|].
  { destruct (i =? _); [constructor|].
    apply cook_event_zero_max, ev_start_zero_max, D. }
  destruct (_ =? AMOTION_EVENT_ACTION_MOVE); [|constructor].
  cbn. apply for_loop_zero_max, ev_start_zero_max, D.
Qed.

Lemma process_motion_events_unsized u l :
  forall i s,
    dims_are 0 0 s ->
    all_emitted divided_by_zero (fst (process_motion_events u i l s)).
Proof.
  induction l as [|me l IH]; intros i s D; [constructor|].
  cbn [process_motion_events]. rewrite bind_effects.
  apply all_emitted_app; [exact (process_motion_event_unsized _ _ _ D)|].
  destruct (snd (process_motion_event (u i) me s)) as [[a s']|] eqn:E;
    [|constructor].
  apply IH.
  refine (process_motion_event_preserves (dims_are 0 0) _ _ _ _ _ s D a s' E);
    intros ? ? H; exact H.
Qed.

Lemma process_input_events_unsized u ib s :
  dims_are 0 0 s ->
  all_emitted divided_by_zero (fst (process_input_events u ib s)).
Proof.
  intros D. unfold process_input_events.
  destruct ib as [ib|]; [|emitted_list].
  destruct (negb (motionEventsCount ib =? 0)); [|emitted_list].
  run_monad.
  pose proof (process_motion_events_unsized u (motionEvents ib) 0%nat s D) as H.
  destruct (process_motion_events u 0 (motionEvents ib) s) as [t [[a s']|]];
    cbn in *; (apply Forall_cons; [exact I|]); auto.
  apply all_emitted_app; [exact H | emitted_list].
Qed.

Lemma DoFrame_size pf s s' w h :
  dims_are w h s ->
  snd (DoFrame pf s) = Some (tt, s') ->
  dims_are w h s'
  \/ (resizes pf s = true
      /\ dims_are (query_width pf) (query_height pf) s').
Proof.
  intros D H. destruct (resizes pf s) eqn:R.
  - destruct (snd (PrepareToRender pf s)) as [[[|] s1]|] eqn:E.
    + right. rewrite (DoFrame_resize _ _ _ E R) in H. inversion H; subst.
      split; [reflexivity | split; reflexivity].
    + left. rewrite (DoFrame_not_ready _ _ _ E) in H. inversion H; subst.
      exact (PrepareToRender_dims _ _ pf s D _ _ E).
    + rewrite (DoFrame_aborted _ _ E) in H. discriminate.
  - left. unfold DoFrame in H.
    apply bind_completes in H as (ok & s1 & E & H).
    pose proof (PrepareToRender_dims _ _ pf s D _ _ E) as D1.
    destruct ok; cbn [negb] in H.
    + apply bind_completes in H as (a0 & s0 & G & H).
      cbn in G. inversion G; subst a0 s0.
      apply bind_completes in H as (? & s0 & G1 & H).
      cbn in G1. inversion G1; subst s0.
      apply bind_completes in H as (? & s0 & G2 & H).
      cbn in G2. inversion G2; subst s0.
      cbv zeta in H. destruct D as [Dw Dh], D1 as [D1w D1h].
      unfold resizes in R. rewrite Dw, Dh in R. rewrite D1w, D1h, R in H.
      match type of H with
      | snd (?m ?st) = _ =>
          assert (P : preserves (dims_are w h) m) by by_fields;
          exact (P st (conj D1w D1h) _ _ H)
      end.
    + cbn in H. inversion H; subst. exact D1.
Qed.

Lemma GameLoop_turn_size polls u ib pf s r s' w h :
  dims_are w h s ->
  snd (GameLoop_turn polls u ib pf s) = Some (r, s') ->
  dims_are w h s'
  \/ (resizes pf s = true
      /\ dims_are (query_width pf) (query_height pf) s').
Proof.
  intros D H. unfold GameLoop_turn in H.
  apply bind_completes in H as (st & s1 & E & H).
  pose proof (pump_dims _ _ polls s D _ _ E) as D1.
  destruct st.
  - cbn in H. inversion H; subst. now left.
  - apply bind_completes in H as (? & s2 & E2 & H).
    assert (D2 : dims_are w h s2).
    { assert (P : preserves (dims_are w h) (process_input_events u ib))
        by by_fields.
      exact (P s1 D1 _ _ E2). }
    apply bind_completes in H as ([] & s3 & E3 & H).
    cbn in H. inversion H; subst.
    destruct (DoFrame_size _ _ _ _ _ D2 E3) as [D3 | [R D3]]; [now left|].
    right. split; [|exact D3].
    unfold resizes in *. destruct D as [-> ->], D2 as [Dw Dh].
    now rewrite Dw, Dh in R.
Qed.

Lemma step_size o s s' w h :
  dims_are w h s -> step o s s' ->
  dims_are w h s'
  \/ (exists pf, frame_of o = Some pf
                 /\ resizes pf s = true
                 /\ dims_are (query_width pf) (query_height pf) s').
Proof.
  intros D H. unfold step in H.
  destruct o; cbn [run_op frame_of] in *;
    try (left;
         match type of H with
         | snd (?m ?st) = _ =>
             assert (P : preserves (dims_are w h) m)
               by (unfold NativeEngine_delete; by_fields);
             exact (P st D _ _ H)
         end).
  - destruct (DoFrame_size _ _ _ _ _ D H) as [D' | [R D']]; [now left|].
    right. now exists pf.
  - apply bind_completes in H as (r & s1 & E & H).
    cbn in H. inversion H; subst.
    destruct (GameLoop_turn_size _ _ _ _ _ _ _ _ _ D E) as [D' | [R D']];
      [now left|].
    right. now exists pf.
Qed.

(* ================================================================= *)
(** ** TouchTracker: the list of records *)

Lemma found_iff_tracked id l :
  found_by_remove_if id l = true <-> In id (ids l).
Proof.
  unfold found_by_remove_if, ids. rewrite existsb_exists, in_map_iff.
  split.
  - intros ([k q] & Hin & Heq). cbn in Heq. apply Z.eqb_eq in Heq.
    subst. now exists (id, q).
  - intros ([k q] & Heq & Hin). cbn in Heq. subst.
    exists (id, q). split; [exact Hin | apply Z.eqb_refl].
Qed.

Lemma found_none id l :
  found_by_remove_if id l = false <-> find_if id l = None.
Proof.
  unfold found_by_remove_if, find_if.
  induction l as [|[k q] l IH]; cbn; [tauto|].
  destruct (k =? id); cbn; [split; discriminate | exact IH].
Qed.

Lemma remove_if_untracked id l :
  found_by_remove_if id l = false -> remove_if id l = l.
Proof.
  unfold found_by_remove_if, remove_if.
  induction l as [|[k q] l IH]; cbn; [reflexivity|].
  destruct (k =? id); cbn; [discriminate|]. intros H. now rewrite IH.
Qed.

Lemma remove_if_length id l :
  List.length l = (List.length (remove_if id l) + records_of id l)%nat.
Proof.
  unfold remove_if, records_of.
  induction l as [|[k q] l IH]; cbn; [reflexivity|].
  destruct (k =? id); cbn; lia.
Qed.

Lemma remove_if_clears id l : find_if id (remove_if id l) = None.
Proof.
  unfold find_if, remove_if.
  induction l as [|[k q] l IH]; cbn; [reflexivity|].
  destruct (k =? id) eqn:E; cbn; [exact IH|]. now rewrite E.
Qed.

Lemma records_of_untracked id l :
  ~ In id (ids l) -> records_of id l = 0%nat.
Proof.
  unfold records_of, ids.
  induction l as [|[k q] l IH]; cbn; [reflexivity|].
  intros H. destruct (k =? id) eqn:E.
  - apply Z.eqb_eq in E. tauto.
  - apply IH. tauto.
Qed.

Lemma NoDup_records_of id l :
  NoDup (ids l) -> (records_of id l <= 1)%nat.
Proof.
  unfold ids. induction l as [|[k q] l IH]; cbn; [intros; unfold records_of; cbn; lia|].
  intros H. inversion H as [|? ? Hnin Hnd]; subst.
  unfold records_of in *. cbn. destruct (k =? id) eqn:E.
  - apply Z.eqb_eq in E. subst.
    pose proof (records_of_untracked id l Hnin) as R.
    unfold records_of in R. cbn. lia.
  - auto.
Qed.

Lemma NoDup_remove_if id l : NoDup (ids l) -> NoDup (ids (remove_if id l)).
Proof.
  unfold ids, remove_if. induction l as [|[k q] l IH]; cbn; [auto|].
  intros H. inversion H as [|? ? Hnin Hnd]; subst.
  destruct (k =? id); cbn; [auto|].
  constructor; [|auto].
  intros Hin. apply Hnin. apply in_map_iff in Hin as (e & He & Hin).
  apply filter_In in Hin as [Hin _]. apply in_map_iff. now exists e.
Qed.

Lemma NoDup_push_back id p l :
  NoDup (ids l) -> found_by_remove_if id l = false ->
  NoDup (ids (push_back id p l)).
Proof.
  intros Hnd Hf. unfold ids, push_back. rewrite map_app. cbn.
  apply NoDup_app.
  - exact Hnd.
  - repeat constructor. intros [].
  - intros k Hin [<- | []].
    apply found_iff_tracked in Hin. congruence.
Qed.

Lemma write_first_ids id p l : ids (write_first id p l) = ids l.
Proof.
  unfold ids. induction l as [|[k q] l IH]; cbn; [reflexivity|].
  destruct (k =? id); cbn; [reflexivity | now rewrite IH].
Qed.

Lemma find_if_write_first id p l q :
  find_if id l = Some q -> find_if id (write_first id p l) = Some p.
Proof.
  unfold find_if. induction l as [|[k q'] l IH]; cbn; [discriminate|].
  destruct (k =? id) eqn:E; cbn; rewrite E; auto.
Qed.

Lemma find_if_push_back id id' p l :
  find_if id (push_back id' p l) =
  match find_if id l with
  | Some q => Some q
  | None => if id' =? id then Some p else None
  end.
Proof.
  unfold find_if, push_back. induction l as [|[k q] l IH]; cbn.
  - now destruct (id' =? id).
  - destruct (k =? id); [reflexivity | exact IH].
Qed.

Lemma set_previous_positions_same s :
  set_previous_positions (previous_positions s) s = s.
Proof. now destruct s. Qed.

(** Facts about the action codes and the slot index. *)
Lemma pointer_index_of_action_nonneg a : 0 <= pointer_index_of_action a.
Proof.
  unfold pointer_index_of_action. apply Z.shiftr_nonneg, Z.land_nonneg.
  right. cbv. discriminate.
Qed.

Lemma up_is_not_down me i : up_index me = Some i -> down_index me = None.
Proof.
  unfold up_index, down_index. cbv zeta.
  set (a := Z.land (action me) AMOTION_EVENT_ACTION_MASK).
  destruct (a =? AMOTION_EVENT_ACTION_DOWN) eqn:E0;
    destruct (a =? AMOTION_EVENT_ACTION_POINTER_DOWN) eqn:E5;
    destruct (a =? AMOTION_EVENT_ACTION_UP) eqn:E1;
    destruct (a =? AMOTION_EVENT_ACTION_POINTER_UP) eqn:E6;
    eqb_hyps; try congruence;
    unfold AMOTION_EVENT_ACTION_DOWN, AMOTION_EVENT_ACTION_POINTER_DOWN,
      AMOTION_EVENT_ACTION_UP, AMOTION_EVENT_ACTION_POINTER_UP in *; lia.
Qed.

Lemma index_nonneg me i :
  down_index me = Some i \/ up_index me = Some i -> 0 <= i.
Proof.
  unfold down_index, up_index. intros [H | H];
    repeat match type of H with
           | (if ?c then _ else _) = _ => destruct c
           end;
    inversion H; subst; try lia; apply pointer_index_of_action_nonneg.
Qed.

Lemma cooked_pointer_slot me i p :
  down_index me = Some i \/ up_index me = Some i ->
  cooked_pointer me (Some i) = Some p ->
  (0 <? pointerCount me) = true
  /\ (i =? GAMEACTIVITY_MAX_NUM_POINTERS_IN_MOTION_EVENT) = false
  /\ slot me i = Some p.
Proof.
  intros Hi H. unfold cooked_pointer in H.
  destruct (0 <? pointerCount me); [|discriminate].
  destruct (i =? _); [discriminate|]. cbn in H.
  repeat split. unfold slot.
  pose proof (index_nonneg me i Hi) as Hn.
  apply Z.ltb_ge in Hn. now rewrite Hn.
Qed.

Lemma process_up_event u me s i p :
  up_index me = Some i ->
  cooked_pointer me (Some i) = Some p ->
  process_motion_event u me s =
  cook_event me i (ev_start u me s TouchScreenEvent.Up) s
  /\ slot me i = Some p.
Proof.
  intros Hi Hc.
  destruct (cooked_pointer_slot me i p (or_intror Hi) Hc) as (Hpc & H8 & Hs).
  split; [|exact Hs].
  rewrite process_motion_event_cases, Hpc, (up_is_not_down _ _ Hi), Hi, H8.
  reflexivity.
Qed.

Lemma process_down_event u me s i p :
  down_index me = Some i ->
  cooked_pointer me (Some i) = Some p ->
  process_motion_event u me s =
  cook_event me i (ev_start u me s TouchScreenEvent.Down) s
  /\ slot me i = Some p.
Proof.
  intros Hi Hc.
  destruct (cooked_pointer_slot me i p (or_introl Hi) Hc) as (Hpc & H8 & Hs).
  split; [|exact Hs].
  rewrite process_motion_event_cases, Hpc, Hi, H8. reflexivity.
Qed.

(* ================================================================= *)
(** ** Up events *)

Lemma process_up_event_run u me s i p :
  up_index me = Some i ->
  cooked_pointer me (Some i) = Some p ->
  let ev := fill_from_pointer i p (ev_start u me s TouchScreenEvent.Up) in
  let s' := set_previous_positions
              (remove_if (axes_id p) (previous_positions s)) s in
  process_motion_event u me s =
  ((if found_by_remove_if (axes_id p) (previous_positions s) then []
    else [Log LOGE "noooooooooooooo\n"])
   ++ [Invoke_callback ev (previous_positions s'); callback_log],
   Some (tt, s')).
Proof.
  intros Hi Hc. destruct (process_up_event u me s i p Hi Hc) as [-> Hs].
  rewrite cook_event_run, Hs. reflexivity.
Qed.

(** C4 (as the code has it): an up event removes every record whose id is
    the event's id, which is at most one record when the tracker holds at
    most one record per id; an up event whose id matches no record leaves
    the engine as it was and only logs the miss. *)
Theorem Up_removes_every_record_of_its_id
  (u : TouchScreenEvent) (me : GameActivityMotionEvent) (s : NativeEngine)
  (i : Z) (p : GameActivityPointerAxes) :
  up_index me = Some i ->
  cooked_pointer me (Some i) = Some p ->
  exists s',
    snd (process_motion_event u me s) = Some (tt, s')
    /\ previous_positions s' = remove_if (axes_id p) (previous_positions s)
    /\ List.length (previous_positions s) =
       (List.length (previous_positions s')
        + records_of (axes_id p) (previous_positions s))%nat
    /\ (NoDup (ids (previous_positions s)) ->
        (List.length (previous_positions s)
         <= List.length (previous_positions s') + 1)%nat)
    /\ (find_if (axes_id p) (previous_positions s) = None ->
        s' = s
        /\ In (Log LOGE "noooooooooooooo\n")
             (fst (process_motion_event u me s))).
Proof.
  intros Hi Hc. rewrite (process_up_event_run u me s i p Hi Hc). cbn.
  eexists. split; [reflexivity|]. cbn.
  pose proof (remove_if_length (axes_id p) (previous_positions s)) as L.
  repeat split; auto.
  - intros Hnd. pose proof (NoDup_records_of (axes_id p) _ Hnd). lia.
  - apply found_none in H. rewrite (remove_if_untracked _ _ H).
    apply set_previous_positions_same.
  - apply found_none in H. rewrite H. cbn. auto.
Qed.

(** C6 (as the code has it): processing an up event first removes the
    matching records (logging a miss) and only then hands the event to the
    callback: when the callback runs, the tracker already holds no record
    of the event's id, and nothing is removed afterwards. *)
Theorem Up_removes_then_emits
  (u : TouchScreenEvent) (me : GameActivityMotionEvent) (s : NativeEngine)
  (i : Z) (p : GameActivityPointerAxes) :
  up_index me = Some i ->
  cooked_pointer me (Some i) = Some p ->
  exists ev tracked s',
    process_motion_event u me s =
    ((if found_by_remove_if (axes_id p) (previous_positions s) then []
      else [Log LOGE "noooooooooooooo\n"])
     ++ [Invoke_callback ev tracked; callback_log],
     Some (tt, s'))
    /\ TouchScreenEvent.type ev = TouchScreenEvent.Up
    /\ TouchScreenEvent.id ev = axes_id p
    /\ tracked = remove_if (axes_id p) (previous_positions s)
    /\ find_if (axes_id p) tracked = None
    /\ previous_positions s' = tracked.
Proof.
  intros Hi Hc. rewrite (process_up_event_run u me s i p Hi Hc).
  do 3 eexists. split; [reflexivity|].
  repeat split; auto. apply remove_if_clears.
Qed.

(* ================================================================= *)
(** ** Down and move events; one record per id *)

Lemma after_callback_tracker ev s :
  previous_positions (after_callback ev s) = previous_positions s.
Proof. unfold after_callback. now destruct (TouchScreenEvent.type ev). Qed.

Lemma after_callback_size ev s :
  mSurfWidth (after_callback ev s) = mSurfWidth s
  /\ mSurfHeight (after_callback ev s) = mSurfHeight s.
Proof. unfold after_callback. now destruct (TouchScreenEvent.type ev). Qed.

Lemma process_down_event_run u me s i p :
  down_index me = Some i ->
  cooked_pointer me (Some i) = Some p ->
  let ev := fill_from_pointer i p (ev_start u me s TouchScreenEvent.Down) in
  let s' := set_previous_positions
              (push_back (axes_id p) (normalized s p) (previous_positions s))
              s in
  process_motion_event u me s =
  ([Invoke_callback ev (previous_positions s'); callback_log], Some (tt, s')).
Proof.
  intros Hi Hc. destruct (process_down_event u me s i p Hi Hc) as [-> Hs].
  rewrite cook_event_run, Hs. reflexivity.
Qed.

Lemma move_pointer_ids me i ev s ev' s' :
  snd (move_pointer me i ev s) = Some (ev', s') ->
  ids (previous_positions s') = ids (previous_positions s).
Proof.
  rewrite move_pointer_run. destruct (slot me i) as [p|]; [|discriminate].
  cbn zeta. destruct (find_if _ _) as [pp|]; cbn; intros H; inversion H;
    rewrite after_callback_tracker; [apply write_first_ids | reflexivity].
Qed.

Lemma for_loop_ids me n :
  forall from ev s ev' s',
    snd (for_loop n from (move_pointer me) ev s) = Some (ev', s') ->
    ids (previous_positions s') = ids (previous_positions s).
Proof.
  induction n as [|n IH]; intros from ev s ev' s' H.
  - cbn in H. now inversion H.
  - cbn [for_loop] in H. apply bind_completes in H as (ev1 & s1 & E & H).
    rewrite (IH _ _ _ _ _ H). exact (move_pointer_ids _ _ _ _ _ _ E).
Qed.

Lemma process_motion_event_NoDup u me s a s' :
  NoDup (ids (previous_positions s)) ->
  match cooked_pointer me (down_index me) with
  | Some p => negb (found_by_remove_if (axes_id p) (previous_positions s))
  | None => true
  end = true ->
  snd (process_motion_event u me s) = Some (a, s') ->
  NoDup (ids (previous_positions s')).
Proof.
  intros Hnd Hfresh H. rewrite process_motion_event_cases in H.
  destruct (0 <? pointerCount me) eqn:Hpc;
    [|cbn in H; inversion H; subst; exact Hnd].
  destruct (down_index me) as [i|] eqn:Hd.
  { destruct (i =? _) eqn:H8; [cbn in H; inversion H; subst; exact Hnd|].
    rewrite cook_event_run in H.
    destruct (slot me i) as [p|] eqn:Hs; [|discriminate].
    cbn in H. inversion H; subst. cbn.
    apply NoDup_push_back; [exact Hnd|].
    unfold cooked_pointer in Hfresh. rewrite Hpc, H8 in Hfresh. cbn in Hfresh.
    unfold slot in Hs. destruct (i <? 0); [discriminate|].
    rewrite Hs in Hfresh. now apply negb_true_iff in Hfresh. }
  destruct (up_index me) as [i|].
  { destruct (i =? _); [cbn in H; inversion H; subst; exact Hnd|].
    rewrite cook_event_run in H.
    destruct (slot me i) as [p|]; [|discriminate].
    cbn in H. inversion H; subst. cbn. now apply NoDup_remove_if. }
  destruct (_ =? AMOTION_EVENT_ACTION_MOVE);
    [|cbn in H; inversion H; subst; exact Hnd].
  cbn in H.
  destruct (snd (for_loop _ _ _ _ _)) as [[ev' s1]|] eqn:E; [|discriminate].
  cbn in H. inversion H; subst.
  now rewrite (for_loop_ids _ _ _ _ _ _ _ E).
Qed.

Lemma process_motion_events_NoDup u l :
  forall i s s',
    NoDup (ids (previous_positions s)) ->
    downs_are_fresh u i l s = true ->
    snd (process_motion_events u i l s) = Some (tt, s') ->
    NoDup (ids (previous_positions s')).
Proof.
  induction l as [|me l IH]; intros i s s' Hnd Hf H.
  - cbn in H. now inversion H; subst.
  - cbn [process_motion_events] in H.
    apply bind_completes in H as (a & s1 & E & H).
    cbn [downs_are_fresh] in Hf. apply andb_true_iff in Hf as [Hf1 Hf2].
    rewrite E in Hf2.
    apply (IH (S i) s1 s'); auto.
    exact (process_motion_event_NoDup _ _ _ _ _ Hnd Hf1 E).
Qed.

Lemma downs_are_fresh_prefix u l1 l2 :
  forall i s,
    downs_are_fresh u i (l1 ++ l2) s = true ->
    downs_are_fresh u i l1 s = true.
Proof.
  induction l1 as [|me l1 IH]; intros i s H; [reflexivity|].
  cbn [app downs_are_fresh] in *. apply andb_true_iff in H as [H1 H2].
  rewrite H1. cbn.
  destruct (snd (process_motion_event (u i) me s)) as [[a s1]|]; auto.
Qed.

(** C3 (as the code has it): a down event appends a record for its id
    whether or not the id is tracked already; so, starting from an empty
    tracker, the tracker holds at most one record per id at any time as
    long as no down event names an id that is tracked when the event is
    processed. *)
Theorem fresh_downs_keep_one_record_per_id
  (u : nat -> TouchScreenEvent) (i : nat) (s : NativeEngine) :
  (forall me j p,
      down_index me = Some j ->
      cooked_pointer me (Some j) = Some p ->
      exists s',
        snd (process_motion_event (u i) me s) = Some (tt, s')
        /\ previous_positions s' =
           previous_positions s ++ [(axes_id p, normalized s p)]
        /\ records_of (axes_id p) (previous_positions s') =
           S (records_of (axes_id p) (previous_positions s)))
  /\ (previous_positions s = [] ->
      forall l1 l2 s',
        downs_are_fresh u i (l1 ++ l2) s = true ->
        snd (process_motion_events u i l1 s) = Some (tt, s') ->
        NoDup (ids (previous_positions s'))).
Proof.
  split.
  - intros me j p Hj Hc. rewrite (process_down_event_run _ _ _ _ _ Hj Hc).
    eexists. split; [reflexivity|].
    unfold set_previous_positions. cbn [previous_positions].
    split; [reflexivity|].
    unfold records_of, push_back. rewrite filter_app, length_app.
    cbn [filter fst]. rewrite Z.eqb_refl. cbn [List.length]. lia.
  - intros Hempty l1 l2 s' Hf H.
    apply (process_motion_events_NoDup u l1 i s s'); auto.
    + rewrite Hempty. constructor.
    + exact (downs_are_fresh_prefix _ _ _ _ _ Hf).
Qed.

(* ================================================================= *)
(** ** Move events *)

Lemma move_pointer_tracked me i ev s p stored :
  slot me i = Some p ->
  find_if (axes_id p) (previous_positions s) = Some stored ->
  exists ev' s',
    move_pointer me i ev s =
    ([Invoke_callback ev' (previous_positions s'); callback_log],
     Some (ev', s'))
    /\ ev' = TouchScreenEvent.set_move_ndelta
               (delta (TouchScreenEvent.norm_pos (fill_from_pointer i p ev))
                  stored)
               (fill_from_pointer i p ev)
    /\ TouchScreenEvent.move_ndelta ev' =
       delta (TouchScreenEvent.norm_pos ev') stored
    /\ find_if (axes_id p) (previous_positions s') =
       Some (TouchScreenEvent.norm_pos ev')
    /\ ids (previous_positions s') = ids (previous_positions s)
    /\ dims_are (mSurfWidth s) (mSurfHeight s) s'.
Proof.
  intros Hs Hf. rewrite move_pointer_run, Hs. cbn zeta.
  change (TouchScreenEvent.id (fill_from_pointer i p ev)) with (axes_id p).
  rewrite Hf.
  set (ev2 := TouchScreenEvent.set_move_ndelta _ _).
  set (s2 := set_previous_positions _ s).
  exists ev2, (after_callback ev2 s2).
  destruct (after_callback_size ev2 s2) as [Hw Hh].
  rewrite after_callback_tracker.
  repeat split; try reflexivity; try assumption.
  - exact (find_if_write_first _ _ _ _ Hf).
  - apply write_first_ids.
Qed.

Lemma move_pointer_untracked me i ev s p :
  slot me i = Some p ->
  find_if (axes_id p) (previous_positions s) = None ->
  let ev' := fill_from_pointer i p ev in
  move_pointer me i ev s =
  ([Log LOGE "baaaaaaaaaaaaaaaaad\n";
    Invoke_callback ev' (previous_positions s); callback_log],
   Some (ev', after_callback ev' s))
  /\ TouchScreenEvent.move_ndelta ev' = TouchScreenEvent.move_ndelta ev.
Proof.
  intros Hs Hf. rewrite move_pointer_run, Hs. cbn zeta.
  change (TouchScreenEvent.id (fill_from_pointer i p ev)) with (axes_id p).
  rewrite Hf. split; reflexivity.
Qed.

Lemma process_single_move u p s :
  process_motion_event u (single AMOTION_EVENT_ACTION_MOVE p) s =
  let run := move_pointer (single AMOTION_EVENT_ACTION_MOVE p) 0
               (ev_start u (single AMOTION_EVENT_ACTION_MOVE p) s
                  TouchScreenEvent.Move) s in
  (fst run, option_map (fun r => (tt, snd r)) (snd run)).
Proof.
  rewrite process_motion_event_cases.
  change (0 <? pointerCount (single AMOTION_EVENT_ACTION_MOVE p)) with true.
  change (down_index (single AMOTION_EVENT_ACTION_MOVE p)) with (@None Z).
  change (up_index (single AMOTION_EVENT_ACTION_MOVE p)) with (@None Z).
  change (Z.land (action (single AMOTION_EVENT_ACTION_MOVE p))
            AMOTION_EVENT_ACTION_MASK =? AMOTION_EVENT_ACTION_MOVE) with true.
  change (Z.to_nat (pointerCount (single AMOTION_EVENT_ACTION_MOVE p)))
    with 1%nat.
  cbv iota zeta. cbn [for_loop]. unfold bind, ret.
  destruct (move_pointer _ _ _ _) as [t [[ev' s']|]]; cbn;
    now rewrite ?app_nil_r.
Qed.

Lemma single_slot act p : slot (single act p) 0 = Some p.
Proof. reflexivity. Qed.

Lemma process_single_move_tracked u p s stored :
  find_if (axes_id p) (previous_positions s) = Some stored ->
  exists ev s',
    process_motion_event u (single AMOTION_EVENT_ACTION_MOVE p) s =
    ([Invoke_callback ev (previous_positions s'); callback_log],
     Some (tt, s'))
    /\ TouchScreenEvent.type ev = TouchScreenEvent.Move
    /\ TouchScreenEvent.id ev = axes_id p
    /\ TouchScreenEvent.norm_pos ev = normalized s p
    /\ TouchScreenEvent.move_ndelta ev = delta (normalized s p) stored
    /\ find_if (axes_id p) (previous_positions s') = Some (normalized s p)
    /\ dims_are (mSurfWidth s) (mSurfHeight s) s'.
Proof.
  intros Hf. rewrite process_single_move. cbv zeta.
  destruct (move_pointer_tracked (single AMOTION_EVENT_ACTION_MOVE p) 0
              (ev_start u (single AMOTION_EVENT_ACTION_MOVE p) s
                 TouchScreenEvent.Move) s p stored
              (single_slot _ p) Hf)
    as (ev & s' & -> & -> & _ & Hfind & _ & Hd).
  do 2 eexists. split; [reflexivity|].
  repeat split; solve [reflexivity | exact Hfind | apply Hd].
Qed.

Lemma emitted_app t1 t2 : emitted (t1 ++ t2) = emitted t1 ++ emitted t2.
Proof.
  induction t1 as [|e t1 IH]; cbn; [reflexivity|].
  destruct e; cbn; now rewrite ?IH.
Qed.

Lemma last_cons {A} (a d : A) l : last (a :: l) d = last l a.
Proof.
  revert a d. induction l as [|b l IH]; intros a d; [reflexivity|].
  change (last (a :: b :: l) d) with (last (b :: l) d).
  now rewrite !IH.
Qed.

Lemma normalized_same_size s s' p :
  dims_are (mSurfWidth s) (mSurfHeight s) s' ->
  normalized s' p = normalized s p.
Proof. intros [Hw Hh]. unfold normalized. now rewrite Hw, Hh. Qed.

Lemma moves_telescope u id ps :
  forall i s stored,
    find_if id (previous_positions s) = Some stored ->
    Forall (fun p => axes_id p = id) ps ->
    exists t s',
      process_motion_events u i (map (single AMOTION_EVENT_ACTION_MOVE) ps) s
      = (t, Some (tt, s'))
      /\ map TouchScreenEvent.type (emitted t) =
         repeat TouchScreenEvent.Move (List.length ps)
      /\ map TouchScreenEvent.move_ndelta (emitted t) =
         deltas stored (map (normalized s) ps)
      /\ find_if id (previous_positions s') =
         Some (last (map (normalized s) ps) stored).
Proof.
  induction ps as [|p ps IH]; intros i s stored Hf Hall.
  - exists [], s. cbn. auto.
  - inversion Hall as [|? ? Hp Hall']; subst.
    destruct (process_single_move_tracked (u i) p s stored Hf)
      as (ev & s1 & E & Hty & _ & _ & Hdelta & Hfind & Hd).
    destruct (IH (S i) s1 (normalized s p) Hfind Hall')
      as (t & s' & E' & Htys & Hdeltas & Hlast).
    cbn [map process_motion_events].
    rewrite (bind_done _ _ _ _ _ _ E), E'. cbn [fst snd].
    do 2 eexists. split; [reflexivity|].
    assert (Hn : map (normalized s1) ps = map (normalized s) ps).
    { apply map_ext. intros q. exact (normalized_same_size _ _ _ Hd). }
    rewrite Hn in *.
    rewrite !emitted_app. unfold callback_log.
    cbn [app emitted map List.length repeat deltas].
    rewrite Hty, Hdelta, Htys, Hdeltas, last_cons. auto.
Qed.

Lemma process_single_down u p s :
  let s' := set_previous_positions
              (push_back (axes_id p) (normalized s p) (previous_positions s))
              s in
  exists ev,
    process_motion_event u (single AMOTION_EVENT_ACTION_DOWN p) s =
    ([Invoke_callback ev (previous_positions s'); callback_log], Some (tt, s'))
    /\ TouchScreenEvent.type ev = TouchScreenEvent.Down
    /\ TouchScreenEvent.id ev = axes_id p
    /\ TouchScreenEvent.norm_pos ev = normalized s p.
Proof.
  cbv zeta. eexists. split.
  - exact (process_down_event_run u (single AMOTION_EVENT_ACTION_DOWN p) s 0 p
             eq_refl eq_refl).
  - repeat split.
Qed.

Lemma gesture_telescope u i s p0 ps :
  find_if (axes_id p0) (previous_positions s) = None ->
  Forall (fun p => axes_id p = axes_id p0) ps ->
  exists t s',
    process_motion_events u i
      (single AMOTION_EVENT_ACTION_DOWN p0
       :: map (single AMOTION_EVENT_ACTION_MOVE) ps) s
    = (t, Some (tt, s'))
    /\ map TouchScreenEvent.type (emitted t) =
       TouchScreenEvent.Down :: repeat TouchScreenEvent.Move (List.length ps)
    /\ map TouchScreenEvent.move_ndelta (tl (emitted t)) =
       deltas (normalized s p0) (map (normalized s) ps)
    /\ find_if (axes_id p0) (previous_positions s') =
       Some (last (map (normalized s) ps) (normalized s p0)).
Proof.
  intros Hf Hall.
  destruct (process_single_down (u i) p0 s) as (ev & E & Hty & _ & _).
  set (s1 := set_previous_positions _ s) in E.
  assert (Hfind : find_if (axes_id p0) (previous_positions s1)
                  = Some (normalized s p0)).
  { unfold s1. cbn [previous_positions set_previous_positions].
    now rewrite find_if_push_back, Hf, Z.eqb_refl. }
  destruct (moves_telescope u (axes_id p0) ps (S i) s1 _ Hfind Hall)
    as (t & s' & E' & Htys & Hdeltas & Hlast).
  cbn [process_motion_events].
  rewrite (bind_done _ _ _ _ _ _ E), E'. cbn [fst snd].
  do 2 eexists. split; [reflexivity|].
  assert (Hn : map (normalized s1) ps = map (normalized s) ps)
    by reflexivity.
  rewrite Hn in *.
  rewrite !emitted_app. unfold callback_log.
  cbn [app emitted map tl]. rewrite Hty, Htys, Hdeltas. auto.
Qed.

(* ================================================================= *)
(** ** Concrete runs *)

Lemma engine_100x200_reachable : reachable engine_100x200.
Proof.
  apply (reachable_step (op_DoFrame platform_100x200)
           (NativeEngine_new GameLoop_vertices)).
  - constructor.
  - vm_compute. reflexivity.
Qed.

(** C1, counterexample: a pointer goes down at (50,50), the gesture is
    cancelled (the code ignores [AMOTION_EVENT_ACTION_CANCEL], so the
    record stays), the pointer goes down again at (25,100) and moves to
    (75,100).  The move's delta is taken against the first record, that
    of the first down, not against the position of the down that precedes
    it; the record that down stored is never updated. *)
Lemma Move_after_second_Down_uses_the_older_record :
  let events := [one_pointer AMOTION_EVENT_ACTION_DOWN 0 50 50;
                 one_pointer AMOTION_EVENT_ACTION_CANCEL 0 50 50;
                 one_pointer AMOTION_EVENT_ACTION_DOWN 0 25 100;
                 one_pointer AMOTION_EVENT_ACTION_MOVE 0 75 100] in
  let run := process_input_events (fun _ => some_event)
               (Some (mkInputBuffer events)) engine_100x200 in
  previous_positions engine_100x200 = []
  /\ exists d1 d2 m s',
       emitted (fst run) = [d1; d2; m]
       /\ snd run = Some (tt, s')
       /\ TouchScreenEvent.type d2 = TouchScreenEvent.Down
       /\ TouchScreenEvent.id d2 = 0
       /\ TouchScreenEvent.norm_pos d2 =
          mkPosition (F32.ratio 1 4) (F32.ratio 1 2)
       /\ TouchScreenEvent.type m = TouchScreenEvent.Move
       /\ TouchScreenEvent.id m = 0
       /\ TouchScreenEvent.norm_pos m =
          mkPosition (F32.ratio 3 4) (F32.ratio 1 2)
       /\ TouchScreenEvent.move_ndelta m =
          mkPosition (F32.ratio 1 4) (F32.ratio 1 4)
       /\ delta (TouchScreenEvent.norm_pos m) (TouchScreenEvent.norm_pos d2) =
          mkPosition (F32.ratio 1 2) F32.zero
       /\ TouchScreenEvent.move_ndelta m <>
          delta (TouchScreenEvent.norm_pos m) (TouchScreenEvent.norm_pos d2)
       /\ TouchScreenEvent.move_ndelta m =
          delta (TouchScreenEvent.norm_pos m) (TouchScreenEvent.norm_pos d1)
       /\ previous_positions s' =
          [(0, TouchScreenEvent.norm_pos m); (0, TouchScreenEvent.norm_pos d2)].
Proof.
  cbv zeta. split; [vm_compute; reflexivity|].
  do 4 eexists. split; [vm_compute; reflexivity|].
  split; [vm_compute; reflexivity|].
  vm_compute. repeat split; discriminate.
Qed.

(** C3, counterexample: from an empty tracker, down, cancel, down for the
    same id leaves two records for that id. *)
Lemma second_Down_adds_a_second_record :
  let events := [one_pointer AMOTION_EVENT_ACTION_DOWN 0 50 50;
                 one_pointer AMOTION_EVENT_ACTION_CANCEL 0 50 50;
                 one_pointer AMOTION_EVENT_ACTION_DOWN 0 25 100] in
  let run := process_input_events (fun _ => some_event)
               (Some (mkInputBuffer events)) engine_100x200 in
  previous_positions engine_100x200 = []
  /\ exists s',
       snd run = Some (tt, s')
       /\ ids (previous_positions s') = [0; 0]
       /\ records_of 0 (previous_positions s') = 2%nat
       /\ ~ NoDup (ids (previous_positions s')).
Proof.
  cbv zeta. split; [vm_compute; reflexivity|].
  eexists. split; [vm_compute; reflexivity|].
  split; [vm_compute; reflexivity|]. split; [vm_compute; reflexivity|].
  intros H. vm_compute in H. inversion H as [|? ? Hnin _]; subst.
  apply Hnin. now left.
Qed.

(** C4, counterexample: with two records for id 0 in the tracker (down,
    cancel, down), one up event for id 0 removes both. *)
Lemma Up_removes_two_records :
  let s := engine_after_events
             [one_pointer AMOTION_EVENT_ACTION_DOWN 0 50 50;
              one_pointer AMOTION_EVENT_ACTION_CANCEL 0 50 50;
              one_pointer AMOTION_EVENT_ACTION_DOWN 0 25 100] in
  let run := process_motion_event some_event
               (one_pointer AMOTION_EVENT_ACTION_UP 0 25 100) s in
  List.length (previous_positions s) = 2%nat
  /\ exists s',
       snd run = Some (tt, s')
       /\ List.length (previous_positions s') = 0%nat.
Proof.
  cbv zeta. split; [vm_compute; reflexivity|].
  eexists. split; [vm_compute; reflexivity|]. vm_compute. reflexivity.
Qed.

(** C6, counterexample: pointer 0 is tracked; when its up event reaches
    the callback the tracker is already empty, the record was removed
    before the event was emitted. *)
Lemma Up_callback_runs_after_the_removal :
  let s := engine_after_events
             [one_pointer AMOTION_EVENT_ACTION_DOWN 0 50 50] in
  let run := process_motion_event some_event
               (one_pointer AMOTION_EVENT_ACTION_UP 0 50 50) s in
  ids (previous_positions s) = [0]
  /\ exists ev s',
       run = ([Invoke_callback ev []; callback_log], Some (tt, s'))
       /\ TouchScreenEvent.type ev = TouchScreenEvent.Up
       /\ TouchScreenEvent.id ev = 0.
Proof.
  cbv zeta. split; [vm_compute; reflexivity|].
  do 2 eexists. split; [vm_compute; reflexivity|].
  split; vm_compute; reflexivity.
Qed.

(** C5, the code at the failing input: a move batch whose only pointer,
    id 7, has no record.  The miss is logged, and then the callback is
    invoked all the same with a move event for id 7 whose delta is
    whatever the local [ev] held before ([move_ndelta] is never written on
    this path); the callback shifts the triangle by that delta. *)
Theorem untracked_Move_pointer_is_still_emitted :
  let run := process_motion_event some_event
               (one_pointer AMOTION_EVENT_ACTION_MOVE 7 25 100)
               engine_100x200 in
  find_if 7 (previous_positions engine_100x200) = None
  /\ exists ev s',
       run = ([Log LOGE "baaaaaaaaaaaaaaaaad\n";
               Invoke_callback ev []; callback_log],
              Some (tt, s'))
       /\ TouchScreenEvent.type ev = TouchScreenEvent.Move
       /\ TouchScreenEvent.id ev = 7
       /\ TouchScreenEvent.move_ndelta ev =
          TouchScreenEvent.move_ndelta some_event
       /\ previous_positions s' = []
       /\ orig_x s' =
          map (fun v =>
                 F32.add v (x (TouchScreenEvent.move_ndelta some_event)))
            (orig_x engine_100x200)
       /\ orig_x s' <> orig_x engine_100x200.
Proof.
  cbv zeta. split; [vm_compute; reflexivity|].
  do 2 eexists. split; [vm_compute; reflexivity|].
  vm_compute. repeat split; discriminate.
Qed.

(* ================================================================= *)
(** ** The theorems at concrete inputs *)

Ltac evaluate := vm_compute; reflexivity.

Lemma HandleEglError_repairs_witness :
  ~ In 12289 [EGL_SUCCESS; EGL_CONTEXT_LOST; EGL_BAD_CONTEXT;
              EGL_BAD_DISPLAY; EGL_BAD_SURFACE]
  /\ snd (HandleEglError 12289 engine_100x200) = Some (false, engine_100x200)
  /\ repaired (HandleEglError EGL_BAD_DISPLAY engine_100x200) true 0 0 0
       (destroys_context engine_100x200 ++ destroys_surface engine_100x200
        ++ terminates_display engine_100x200).
Proof.
  assert (H : ~ In 12289 [EGL_SUCCESS; EGL_CONTEXT_LOST; EGL_BAD_CONTEXT;
                          EGL_BAD_DISPLAY; EGL_BAD_SURFACE]).
  { cbn. intros [H|[H|[H|[H|[H|[]]]]]]; discriminate H. }
  split; [exact H|].
  destruct (HandleEglError_repairs engine_100x200)
    as (_ & _ & _ & Hd & _ & Hother).
  split; [exact (proj1 (Hother 12289 H)) | exact Hd].
Defined.

Lemma fresh_downs_keep_one_record_per_id_witness :
  let events := [one_pointer AMOTION_EVENT_ACTION_DOWN 0 50 50;
                 one_pointer AMOTION_EVENT_ACTION_MOVE 0 75 100;
                 one_pointer AMOTION_EVENT_ACTION_DOWN 261 10 10;
                 one_pointer AMOTION_EVENT_ACTION_UP 0 75 100;
                 one_pointer AMOTION_EVENT_ACTION_DOWN 0 25 100] in
  previous_positions engine_100x200 = []
  /\ downs_are_fresh (fun _ => some_event) 0 events engine_100x200 = true
  /\ NoDup (ids (previous_positions
                   (engine_after
                      (process_motion_events (fun _ => some_event) 0 events)
                      engine_100x200))).
Proof.
  cbv zeta. split; [evaluate|]. split; [evaluate|].
  exact (proj2 (fresh_downs_keep_one_record_per_id (fun _ => some_event)
                  0%nat engine_100x200)
           ltac:(evaluate)
           [one_pointer AMOTION_EVENT_ACTION_DOWN 0 50 50;
            one_pointer AMOTION_EVENT_ACTION_MOVE 0 75 100;
            one_pointer AMOTION_EVENT_ACTION_DOWN 261 10 10;
            one_pointer AMOTION_EVENT_ACTION_UP 0 75 100;
            one_pointer AMOTION_EVENT_ACTION_DOWN 0 25 100]
           []
           (engine_after
              (process_motion_events (fun _ => some_event) 0
                 [one_pointer AMOTION_EVENT_ACTION_DOWN 0 50 50;
                  one_pointer AMOTION_EVENT_ACTION_MOVE 0 75 100;
                  one_pointer AMOTION_EVENT_ACTION_DOWN 261 10 10;
                  one_pointer AMOTION_EVENT_ACTION_UP 0 75 100;
                  one_pointer AMOTION_EVENT_ACTION_DOWN 0 25 100])
              engine_100x200)
           ltac:(evaluate) ltac:(evaluate)).
Defined.

Lemma Up_removes_every_record_of_its_id_witness :
  let s := engine_after_events
             [one_pointer AMOTION_EVENT_ACTION_DOWN 0 50 50;
              one_pointer AMOTION_EVENT_ACTION_DOWN 261 10 10] in
  let me := one_pointer AMOTION_EVENT_ACTION_UP 0 50 50 in
  up_index me = Some 0
  /\ cooked_pointer me (Some 0)
     = Some (mkAxes 0 (F32.of_int 50) (F32.of_int 50))
  /\ exists s',
       snd (process_motion_event some_event me s) = Some (tt, s')
       /\ previous_positions s' = remove_if 0 (previous_positions s).
Proof.
  cbv zeta. split; [evaluate|]. split; [evaluate|].
  destruct (Up_removes_every_record_of_its_id some_event
              (one_pointer AMOTION_EVENT_ACTION_UP 0 50 50)
              (engine_after_events
                 [one_pointer AMOTION_EVENT_ACTION_DOWN 0 50 50;
                  one_pointer AMOTION_EVENT_ACTION_DOWN 261 10 10])
              0 (mkAxes 0 (F32.of_int 50) (F32.of_int 50))
              ltac:(evaluate) ltac:(evaluate))
    as (s' & E & Hp & _).
  exists s'. split; [exact E | exact Hp].
Defined.

Lemma Up_removes_then_emits_witness :
  let s := engine_after_events
             [one_pointer AMOTION_EVENT_ACTION_DOWN 0 50 50] in
  let me := one_pointer AMOTION_EVENT_ACTION_UP 0 50 50 in
  up_index me = Some 0
  /\ cooked_pointer me (Some 0)
     = Some (mkAxes 0 (F32.of_int 50) (F32.of_int 50))
  /\ exists ev tracked s',
       fst (process_motion_event some_event me s) =
       [Invoke_callback ev tracked; callback_log]
       /\ snd (process_motion_event some_event me s) = Some (tt, s')
       /\ find_if 0 tracked = None.
Proof.
  cbv zeta. split; [evaluate|]. split; [evaluate|].
  destruct (Up_removes_then_emits some_event
              (one_pointer AMOTION_EVENT_ACTION_UP 0 50 50)
              (engine_after_events
                 [one_pointer AMOTION_EVENT_ACTION_DOWN 0 50 50])
              0 (mkAxes 0 (F32.of_int 50) (F32.of_int 50))
              ltac:(evaluate) ltac:(evaluate))
    as (ev & tracked & s' & E & _ & _ & _ & Hnone & _).
  exists ev, tracked, s'. rewrite E.
  split; [evaluate|]. split; [reflexivity | exact Hnone].
Defined.

Lemma resize_frame_never_draws_witness :
  resizes platform_100x200 (NativeEngine_new GameLoop_vertices) = true
  /\ existsb is_draw_or_swap
       (fst (DoFrame platform_100x200 (NativeEngine_new GameLoop_vertices)))
     = false
  /\ resizes platform_100x200 engine_100x200 = false
  /\ In (glDrawArrays 0 3) (fst (DoFrame platform_100x200 engine_100x200)).
Proof.
  split; [evaluate|].
  split.
  - exact (proj1 (resize_frame_never_draws platform_100x200
                    (NativeEngine_new GameLoop_vertices))
             ltac:(evaluate)).
  - split; [evaluate|].
    exact (proj1 (proj2 (proj2 (proj2
             (resize_frame_never_draws platform_100x200 engine_100x200)))
             engine_100x200 ltac:(evaluate) ltac:(evaluate))).
Defined.

Lemma display_is_root_witness :
  reachable engine_100x200
  /\ mEglDisplay engine_100x200 = 1
  /\ handles_ok engine_100x200
  /\ handles_ok (engine_after KillDisplay engine_100x200).
Proof.
  split; [exact engine_100x200_reachable|]. split; [evaluate|].
  split.
  - exact (proj1 display_is_root _ engine_100x200_reachable).
  - apply (proj1 display_is_root).
    apply (reachable_step op_KillDisplay engine_100x200).
    + exact engine_100x200_reachable.
    + evaluate.
Defined.

(* ================================================================= *)
(** * Further properties of the input pipeline *)

Lemma move_is_neither_down_nor_up me :
  Z.land (action me) AMOTION_EVENT_ACTION_MASK = AMOTION_EVENT_ACTION_MOVE ->
  down_index me = None /\ up_index me = None.
Proof. unfold down_index, up_index. intros ->. split; reflexivity. Qed.

Lemma process_move_batch u me s :
  Z.land (action me) AMOTION_EVENT_ACTION_MASK = AMOTION_EVENT_ACTION_MOVE ->
  0 < pointerCount me ->
  process_motion_event u me s =
  (fst (for_loop (Z.to_nat (pointerCount me)) 0 (move_pointer me)
          (ev_start u me s TouchScreenEvent.Move) s),
   option_map (fun r => (tt, snd r))
     (snd (for_loop (Z.to_nat (pointerCount me)) 0 (move_pointer me)
             (ev_start u me s TouchScreenEvent.Move) s))).
Proof.
  intros Ha Hpc. rewrite process_motion_event_cases.
  destruct (move_is_neither_down_nor_up me Ha) as [-> ->].
  apply Z.ltb_lt in Hpc. rewrite Hpc, Ha. reflexivity.
Qed.

Lemma skipn_head {A} (l : list A) :
  forall k p l', skipn k l = p :: l' ->
                 nth_error l k = Some p /\ skipn (S k) l = l'.
Proof.
  induction l as [|a l IH]; intros k p l' H.
  - destruct k; discriminate.
  - destruct k as [|k]; cbn in *.
    + inversion H. auto.
    + apply IH. exact H.
Qed.

Lemma slot_of_suffix me from p l' :
  0 <= from ->
  skipn (Z.to_nat from) (pointers me) = p :: l' ->
  slot me from = Some p
  /\ skipn (Z.to_nat (from + 1)) (pointers me) = l'.
Proof.
  intros Hf H. destruct (skipn_head _ _ _ _ H) as [Hn Hs].
  unfold slot. apply Z.ltb_ge in Hf. rewrite Hf. split; [exact Hn|].
  apply Z.ltb_ge in Hf. now rewrite Z2Nat.inj_add, Nat.add_1_r by lia.
Qed.

Lemma move_pointer_event me i ev s p :
  slot me i = Some p ->
  exists ev' s',
    move_pointer me i ev s = (fst (move_pointer me i ev s), Some (ev', s'))
    /\ emitted (fst (move_pointer me i ev s)) = [ev']
    /\ TouchScreenEvent.pointer_index ev' = i
    /\ TouchScreenEvent.id ev' = axes_id p
    /\ TouchScreenEvent.type ev' = TouchScreenEvent.type ev
    /\ TouchScreenEvent.pos ev' = mkPosition (axes_X p) (axes_Y p)
    /\ ids (previous_positions s') = ids (previous_positions s).
Proof.
  intros Hs. rewrite move_pointer_run, Hs. cbn zeta.
  destruct (find_if _ _) as [pp|]; do 2 eexists;
    (split; [reflexivity|]); cbn [fst emitted callback_log];
    rewrite after_callback_tracker;
    repeat split; cbn [previous_positions set_previous_positions];
    auto using write_first_ids.
Qed.

Lemma for_loop_events me n :
  forall from ev s l,
    0 <= from ->
    skipn (Z.to_nat from) (pointers me) = l ->
    (n <= List.length l)%nat ->
    exists t ev' s',
      for_loop n from (move_pointer me) ev s = (t, Some (ev', s'))
      /\ map (fun e => (TouchScreenEvent.pointer_index e,
                        TouchScreenEvent.id e,
                        TouchScreenEvent.pos e)) (emitted t)
         = map (fun ip => (fst ip, axes_id (snd ip),
                           mkPosition (axes_X (snd ip)) (axes_Y (snd ip))))
             (indexed_slots from n l)
      /\ Forall (fun e => TouchScreenEvent.type e = TouchScreenEvent.type ev)
           (emitted t)
      /\ TouchScreenEvent.type ev' = TouchScreenEvent.type ev
      /\ ids (previous_positions s') = ids (previous_positions s).
Proof.
  induction n as [|n IH]; intros from ev s l Hf Hl Hn.
  - exists [], ev, s. cbn. repeat split; auto.
  - destruct l as [|p l']; [cbn in Hn; lia|].
    destruct (slot_of_suffix me from p l' Hf Hl) as [Hs Hl'].
    destruct (move_pointer_event me from ev s p Hs)
      as (ev1 & s1 & E & Hem & Hi & Hid & Hty & Hpos & Hids).
    destruct (IH (from + 1) ev1 s1 l' ltac:(lia) Hl' ltac:(cbn in Hn; lia))
      as (t & ev' & s' & E' & Hmap & Hall & Hty' & Hids').
    cbn [for_loop]. rewrite (bind_done _ _ _ _ _ _ E), E'. cbn [fst snd].
    do 3 eexists. split; [reflexivity|].
    rewrite emitted_app, Hem. cbn [app map indexed_slots fst snd].
    rewrite Hmap, Hi, Hid, Hpos.
    repeat split; auto; try congruence.
    constructor; [exact Hty|].
    eapply Forall_impl; [|exact Hall]. cbn. intros e He. congruence.
Qed.

(** X1: a move batch that has a slot for each of its pointers is processed
    to the end and hands the callback exactly one move event per pointer,
    in slot order, each carrying its slot index, the slot's id and the
    slot's raw position; the batch neither adds nor removes a record (the
    ids in the tracker and their order are as before). *)
Theorem Move_batch_emits_one_event_per_pointer
  (u : TouchScreenEvent) (me : GameActivityMotionEvent) (s : NativeEngine) :
  is_move_batch me ->
  exists t s',
    process_motion_event u me s = (t, Some (tt, s'))
    /\ map (fun e => (TouchScreenEvent.pointer_index e,
                      TouchScreenEvent.id e,
                      TouchScreenEvent.pos e)) (emitted t)
       = map (fun ip => (fst ip, axes_id (snd ip),
                         mkPosition (axes_X (snd ip)) (axes_Y (snd ip))))
           (indexed_slots 0 (Z.to_nat (pointerCount me)) (pointers me))
    /\ List.length (emitted t) = Z.to_nat (pointerCount me)
    /\ Forall (fun e => TouchScreenEvent.type e = TouchScreenEvent.Move)
         (emitted t)
    /\ ids (previous_positions s') = ids (previous_positions s).
Proof.
  intros (Ha & Hpc & Hlen).
  rewrite (process_move_batch u me s Ha Hpc).
  destruct (for_loop_events me (Z.to_nat (pointerCount me)) 0
              (ev_start u me s TouchScreenEvent.Move) s (pointers me)
              ltac:(lia) eq_refl ltac:(lia))
    as (t & ev' & s' & E & Hmap & Hall & _ & Hids).
  rewrite E. cbn [fst snd option_map].
  exists t, s'. split; [reflexivity|]. split; [exact Hmap|].
  split; [|split; [exact Hall | exact Hids]].
  apply (f_equal (@List.length _)) in Hmap. rewrite !length_map in Hmap.
  rewrite Hmap. clear - Hlen Hpc.
  assert (H : forall n from l, (n <= List.length l)%nat ->
                List.length (indexed_slots from n l) = n).
  { induction n as [|n IH]; intros from [|p l] Hn; cbn in *; try lia.
    rewrite IH; lia. }
  apply H. lia.
Qed.

Lemma remove_if_push_back_untracked id p l :
  find_if id l = None -> remove_if id (push_back id p l) = l.
Proof.
  intros H. apply found_none in H.
  unfold remove_if, push_back. rewrite filter_app. cbn.
  rewrite Z.eqb_refl. cbn. rewrite app_nil_r.
  exact (remove_if_untracked id l H).
Qed.

Lemma set_previous_positions_twice a c s :
  set_previous_positions a (set_previous_positions c s)
  = set_previous_positions a s.
Proof. reflexivity. Qed.

(** X2: a down event for an id that is not tracked followed by an up
    event for the same id leaves the engine exactly as it was before the
    down (the record the down appended is the one the up removes). *)
Theorem Down_then_Up_restores_the_engine
  (u1 u2 : TouchScreenEvent) (down up : GameActivityMotionEvent)
  (s : NativeEngine) (j k : Z) (p q : GameActivityPointerAxes) :
  down_index down = Some j ->
  cooked_pointer down (Some j) = Some p ->
  up_index up = Some k ->
  cooked_pointer up (Some k) = Some q ->
  axes_id q = axes_id p ->
  find_if (axes_id p) (previous_positions s) = None ->
  exists s1,
    snd (process_motion_event u1 down s) = Some (tt, s1)
    /\ find_if (axes_id p) (previous_positions s1) = Some (normalized s p)
    /\ snd (process_motion_event u2 up s1) = Some (tt, s).
Proof.
  intros Hj Hp Hk Hq Hid Hf.
  rewrite (process_down_event_run u1 down s j p Hj Hp). cbn [snd].
  eexists. split; [reflexivity|]. split.
  - cbn [previous_positions set_previous_positions].
    now rewrite find_if_push_back, Hf, Z.eqb_refl.
  - rewrite (process_up_event_run u2 up _ k q Hk Hq). cbn [snd].
    cbn [previous_positions set_previous_positions].
    rewrite set_previous_positions_twice, Hid.
    rewrite (remove_if_push_back_untracked _ _ _ Hf).
    now rewrite set_previous_positions_same.
Qed.

Lemma find_if_remove_if_other id id' l :
  id <> id' -> find_if id' (remove_if id l) = find_if id' l.
Proof.
  intros Hne. unfold find_if, remove_if.
  induction l as [|[k q] l IH]; cbn; [reflexivity|].
  destruct (k =? id) eqn:E; cbn.
  - apply Z.eqb_eq in E. subst k.
    apply Z.eqb_neq in Hne. now rewrite Hne.
  - destruct (k =? id'); [reflexivity | exact IH].
Qed.

Lemma find_if_write_first_other id id' p l :
  id <> id' -> find_if id' (write_first id p l) = find_if id' l.
Proof.
  intros Hne. unfold find_if.
  induction l as [|[k q] l IH]; cbn; [reflexivity|].
  destruct (k =? id) eqn:E; cbn.
  - apply Z.eqb_eq in E. subst k.
    apply Z.eqb_neq in Hne. now rewrite Hne.
  - destruct (k =? id'); [reflexivity | exact IH].
Qed.

Lemma find_if_push_back_other id id' p l :
  id <> id' -> find_if id' (push_back id p l) = find_if id' l.
Proof.
  intros Hne. rewrite find_if_push_back.
  apply Z.eqb_neq in Hne. rewrite Hne. now destruct (find_if id' l).
Qed.

Lemma move_pointer_other me i ev s ev' s' id' :
  (forall p, slot me i = Some p -> axes_id p <> id') ->
  snd (move_pointer me i ev s) = Some (ev', s') ->
  find_if id' (previous_positions s') = find_if id' (previous_positions s).
Proof.
  intros Hne. rewrite move_pointer_run.
  destruct (slot me i) as [p|]; [|discriminate].
  specialize (Hne p eq_refl). cbn zeta.
  destruct (find_if _ (previous_positions s)) as [pp|]; cbn [snd];
    intros H; inversion H; rewrite after_callback_tracker; [|reflexivity].
  cbn [previous_positions set_previous_positions].
  now apply find_if_write_first_other.
Qed.

Lemma for_loop_other me id' n :
  forall from ev s ev' s',
    (forall i p, from <= i < from + Z.of_nat n ->
                 slot me i = Some p -> axes_id p <> id') ->
    snd (for_loop n from (move_pointer me) ev s) = Some (ev', s') ->
    find_if id' (previous_positions s') = find_if id' (previous_positions s).
Proof.
  induction n as [|n IH]; intros from ev s ev' s' Hne H.
  - cbn in H. now inversion H.
  - cbn [for_loop] in H. apply bind_completes in H as (ev1 & s1 & E & H).
    assert (Hrest : forall i p, from + 1 <= i < from + 1 + Z.of_nat n ->
                            slot me i = Some p -> axes_id p <> id').
    { intros i p Hi. apply Hne. lia. }
    rewrite (IH _ _ _ _ _ Hrest H).
    apply (move_pointer_other _ _ _ _ _ _ _ (fun p => Hne from p ltac:(lia)) E).
Qed.

(** X3: pointers do not disturb each other's records.  A down or up
    event for one id, and a move batch none of whose pointers carries the
    id, leave the position stored for any other id as it was. *)
Theorem other_ids_keep_their_record
  (u : TouchScreenEvent) (me : GameActivityMotionEvent)
  (s s' : NativeEngine) (id' : Z) :
  snd (process_motion_event u me s) = Some (tt, s') ->
  (forall p, cooked_pointer me (down_index me) = Some p
             \/ cooked_pointer me (up_index me) = Some p ->
             axes_id p <> id') ->
  (forall i p, 0 <= i < pointerCount me -> slot me i = Some p ->
               Z.land (action me) AMOTION_EVENT_ACTION_MASK
               = AMOTION_EVENT_ACTION_MOVE ->
               axes_id p <> id') ->
  find_if id' (previous_positions s') = find_if id' (previous_positions s).
Proof.
  intros H Hcook Hmove. rewrite process_motion_event_cases in H.
  destruct (0 <? pointerCount me) eqn:Hpc;
    [|cbn in H; inversion H; reflexivity].
  destruct (down_index me) as [i|] eqn:Hd.
  { destruct (i =? _) eqn:H8; [cbn in H; inversion H; reflexivity|].
    rewrite cook_event_run in H.
    destruct (slot me i) as [p|] eqn:Hs; [|discriminate].
    cbn in H. inversion H; subst. cbn.
    apply find_if_push_back_other, Hcook. left.
    unfold cooked_pointer. rewrite Hpc, H8. cbn.
    unfold slot in Hs. now destruct (i <? 0). }
  destruct (up_index me) as [i|] eqn:Hu.
  { destruct (i =? _) eqn:H8; [cbn in H; inversion H; reflexivity|].
    rewrite cook_event_run in H.
    destruct (slot me i) as [p|] eqn:Hs; [|discriminate].
    cbn in H. inversion H; subst. cbn.
    apply find_if_remove_if_other, Hcook. right.
    unfold cooked_pointer. rewrite Hpc, H8. cbn.
    unfold slot in Hs. now destruct (i <? 0). }
  destruct (_ =? AMOTION_EVENT_ACTION_MOVE) eqn:Hm;
    [|cbn in H; inversion H; reflexivity].
  cbn in H.
  destruct (snd (for_loop _ _ _ _ _)) as [[ev' s1]|] eqn:E; [|discriminate].
  cbn in H. inversion H; subst.
  apply Z.eqb_eq in Hm. apply Z.ltb_lt in Hpc.
  refine (for_loop_other me id' _ _ _ _ _ _ _ E).
  intros i p Hi Hs. apply (Hmove i p); [lia | exact Hs | exact Hm].
Qed.

(** X4: what the switch does not name is dropped.  An event without
    pointers, an event whose action is none of down, pointer-down, up,
    pointer-up or move (a cancel, a hover), and a pointer-down or
    pointer-up event whose embedded pointer index is 8, the value the code
    uses as "no pointer", reach no callback, log nothing and leave the
    engine, the tracker included, unchanged. *)
Theorem unhandled_events_are_dropped
  (u : TouchScreenEvent) (me : GameActivityMotionEvent) (s : NativeEngine) :
  pointerCount me <= 0
  \/ (down_index me = None /\ up_index me = None
      /\ Z.land (action me) AMOTION_EVENT_ACTION_MASK
         <> AMOTION_EVENT_ACTION_MOVE)
  \/ down_index me = Some GAMEACTIVITY_MAX_NUM_POINTERS_IN_MOTION_EVENT
  \/ up_index me = Some GAMEACTIVITY_MAX_NUM_POINTERS_IN_MOTION_EVENT ->
  process_motion_event u me s = ([], Some (tt, s)).
Proof.
  intros H. rewrite process_motion_event_cases.
  destruct (0 <? pointerCount me) eqn:Hpc; [|reflexivity].
  apply Z.ltb_lt in Hpc.
  destruct H as [H | [(Hd & Hu & Hm) | [Hd | Hu]]].
  - lia.
  - rewrite Hd, Hu. apply Z.eqb_neq in Hm. now rewrite Hm.
  - now rewrite Hd.
  - now rewrite (up_is_not_down _ _ Hu), Hu.
Qed.

Lemma never_for_loop {A} bad (body : Z -> A -> M A) :
  (forall i acc, never bad (body i acc)) ->
  forall n from acc, never bad (for_loop n from body acc).
Proof.
  intros Hb. induction n as [|n IH]; intros from acc; cbn.
  - apply never_ret.
  - apply never_bind; [apply Hb | intro; apply IH].
Qed.

Lemma move_pointer_no_graphics me i ev :
  never is_graphics_call (move_pointer me i ev).
Proof.
  unfold move_pointer, index, callback_touch_screen_event. no_effect.
Qed.

Lemma cook_event_no_graphics me i ev :
  never is_graphics_call (cook_event me i ev).
Proof.
  unfold cook_event, index, callback_touch_screen_event. no_effect.
Qed.

Lemma process_motion_event_no_graphics u me :
  never is_graphics_call (process_motion_event u me).
Proof.
  pose proof (never_for_loop is_graphics_call (move_pointer me)
                (move_pointer_no_graphics me)) as Hloop.
  pose proof (cook_event_no_graphics me) as Hcook.
  unfold process_motion_event. no_effect.
Qed.

Lemma process_motion_events_no_graphics u l :
  forall i, never is_graphics_call (process_motion_events u i l).
Proof.
  induction l as [|me l IH]; intros i; cbn.
  - apply never_ret.
  - apply never_bind; [apply process_motion_event_no_graphics | auto].
Qed.

Lemma process_input_events_untouched u ib s :
  preserves (fun x => untouched_by_input x = untouched_by_input s)
    (process_input_events u ib).
Proof.
  apply process_input_events_preserves; intros v x H; exact H.
Qed.

(** X5: draining the input buffer is confined to the tracker and the
    triangle.  Whatever the buffer holds, [process_input_events] issues no
    EGL or OpenGL call, and the engine a completed run leaves differs from
    the one it started from at most in [previous_positions], [orig_x] and
    [orig_y]: lifecycle flags, EGL handles, cached surface size and frame
    state are as before. *)
Theorem input_is_confined_to_tracker_and_triangle
  (u : nat -> TouchScreenEvent) (ib : option android_input_buffer)
  (s : NativeEngine) :
  existsb is_graphics_call (fst (process_input_events u ib s)) = false
  /\ (forall s',
        snd (process_input_events u ib s) = Some (tt, s') ->
        untouched_by_input s' = untouched_by_input s).
Proof.
  split.
  - pose proof (process_motion_events_no_graphics u) as H.
    assert (N : never is_graphics_call (process_input_events u ib))
      by (unfold process_input_events; no_effect).
    apply N.
  - intros s' E.
    exact (process_input_events_untouched u ib s s eq_refl tt s' E).
Qed.

(* ================================================================= *)
(** * Further properties of the render context *)

(** X6: a failed display initialisation is not retried.  When
    [eglGetDisplay] hands out a display but [eglInitialize] fails,
    [InitDisplay] reports failure yet keeps the handle; from then on every
    [InitDisplay] sees a display, reports success and calls neither
    [eglGetDisplay] nor [eglInitialize] again. *)
Theorem failed_InitDisplay_is_not_retried
  (pf pf' : Platform) (s : NativeEngine) :
  mEglDisplay s = EGL_NO_DISPLAY ->
  eglGetDisplay_ret pf <> EGL_NO_DISPLAY ->
  eglInitialize_ret pf = false ->
  exists s1,
    snd (InitDisplay pf s) = Some (false, s1)
    /\ In (eglInitialize (eglGetDisplay_ret pf)) (fst (InitDisplay pf s))
    /\ mEglDisplay s1 = eglGetDisplay_ret pf
    /\ InitDisplay pf' s1 =
       ([Log LOGD "NativeEngine: no need to init display (already had one)."],
        Some (true, s1)).
Proof.
  intros Hd Hg Hi. unfold InitDisplay. run_monad.
  rewrite Hd. cbn. rewrite Hi. cbn.
  eexists. split; [reflexivity|]. split; [auto|]. split; [reflexivity|].
  apply Z.eqb_neq in Hg. cbn. now rewrite Hg.
Qed.

(** X7: the kill functions are idempotent.  Running [KillSurface],
    [KillContext] or [KillDisplay] a second time right after the first
    issues no destroy call and leaves the engine unchanged. *)
Theorem Kill_twice_destroys_once (s : NativeEngine) :
  (let s1 := engine_after KillSurface s in
   snd (KillSurface s) = Some (tt, s1)
   /\ snd (KillSurface s1) = Some (tt, s1)
   /\ filter is_destroy (fst (KillSurface s1)) = [])
  /\ (let s1 := engine_after KillContext s in
      snd (KillContext s) = Some (tt, s1)
      /\ snd (KillContext s1) = Some (tt, s1)
      /\ filter is_destroy (fst (KillContext s1)) = [])
  /\ (let s1 := engine_after KillDisplay s in
      snd (KillDisplay s) = Some (tt, s1)
      /\ snd (KillDisplay s1) = Some (tt, s1)
      /\ filter is_destroy (fst (KillDisplay s1)) = []).
Proof.
  unfold engine_after. cbv zeta.
  repeat (rewrite ?KillDisplay_run, ?KillContext_run, ?KillSurface_run;
          cbn [snd fst]).
  destruct (mHasGLObjects s) eqn:G;
    destruct (mEglContext s =? EGL_NO_CONTEXT) eqn:Ec;
    destruct (mEglSurface s =? EGL_NO_SURFACE) eqn:Es;
    destruct (mEglDisplay s =? EGL_NO_DISPLAY) eqn:Ed;
    cbn; rewrite ?G, ?Ec, ?Es, ?Ed; cbn; rewrite ?G, ?Ec, ?Es, ?Ed;
    repeat split; reflexivity.
Qed.

#[local] Hint Extern 2 (preserves (keeps _ _) (modify _)) =>
  apply preserves_modify; intros ? ?;
  unfold keeps, handles, untouched_by_input in *; cbn in *;
  solve [intuition auto | congruence] : preserves.

Ltac plumbing_keeps :=
  first [ apply process_input_events_preserves
        | apply ConfigureOpenGL_preserves
        | apply load_vertex_shader_preserves
        | apply load_frag_shader_preserves
        | apply load_program_preserves
        | apply setup_vertex_buffer_preserves
        | apply print_gl_errors_preserves ];
  intros ? ? ?; unfold keeps, handles, untouched_by_input in *; cbn in *;
  solve [intuition auto | congruence].

#[local] Hint Extern 1 (preserves (keeps _ _) (process_input_events _ _)) =>
  plumbing_keeps : preserves.
#[local] Hint Extern 1 (preserves (keeps _ _) ConfigureOpenGL) =>
  plumbing_keeps : preserves.
#[local] Hint Extern 1 (preserves (keeps _ _) (load_vertex_shader _)) =>
  plumbing_keeps : preserves.
#[local] Hint Extern 1 (preserves (keeps _ _) (load_frag_shader _)) =>
  plumbing_keeps : preserves.
#[local] Hint Extern 1 (preserves (keeps _ _) load_program) =>
  plumbing_keeps : preserves.
#[local] Hint Extern 1 (preserves (keeps _ _) setup_vertex_buffer) =>
  plumbing_keeps : preserves.
#[local] Hint Extern 1 (preserves (keeps _ _) (print_gl_errors _)) =>
  plumbing_keeps : preserves.

Tactic Notation "completes" hyp(H) "as" ident(a) ident(s1) ident(E) :=
  apply bind_completes in H as (a & s1 & E & H).

(** Step over a [get], a [tell] or a log line. *)
Ltac passes H :=
  let a := fresh "a" in
  let s1 := fresh "s" in
  let E := fresh "E" in
  apply bind_completes in H as (a & s1 & E & H);
  cbn in E; inversion E; subst a s1; clear E.

Lemma InitDisplay_outcome pf s r s1 :
  snd (InitDisplay pf s) = Some (r, s1) ->
  mEglSurface s1 = mEglSurface s
  /\ mEglContext s1 = mEglContext s
  /\ (mEglDisplay s <> EGL_NO_DISPLAY -> r = true /\ s1 = s)
  /\ (r = false -> mEglDisplay s = EGL_NO_DISPLAY).
Proof.
  unfold InitDisplay. run_monad.
  destruct (mEglDisplay s =? EGL_NO_DISPLAY) eqn:Ed; cbn.
  - destruct (eglInitialize_ret pf); cbn; intros H; inversion H; subst;
      cbn; eqb_hyps; repeat split; intros; auto; congruence.
  - intros H; inversion H; subst. eqb_hyps.
    repeat split; intros; auto; congruence.
Qed.

Lemma InitSurface_outcome pf s r s1 :
  snd (InitSurface pf s) = Some (r, s1) ->
  mEglDisplay s1 = mEglDisplay s
  /\ mEglDisplay s <> EGL_NO_DISPLAY
  /\ mEglContext s1 = mEglContext s
  /\ (if r then mEglSurface s1 <> EGL_NO_SURFACE
      else mEglSurface s1 = EGL_NO_SURFACE).
Proof.
  unfold InitSurface, MY_ASSERT. run_monad.
  destruct (mEglDisplay s =? EGL_NO_DISPLAY) eqn:Ed; cbn; [discriminate|].
  destruct (mEglSurface s =? EGL_NO_SURFACE) eqn:Es; cbn.
  - destruct (eglChooseConfig_out pf); cbn;
      destruct (eglCreateWindowSurface_ret pf =? EGL_NO_SURFACE) eqn:Er;
      cbn; intros H; inversion H; subst; cbn; eqb_hyps; auto.
  - intros H; inversion H; subst. eqb_hyps. auto.
Qed.

Lemma InitContext_outcome pf s r s1 :
  snd (InitContext pf s) = Some (r, s1) ->
  mEglDisplay s1 = mEglDisplay s
  /\ mEglDisplay s <> EGL_NO_DISPLAY
  /\ mEglSurface s1 = mEglSurface s
  /\ (if r then mEglContext s1 <> EGL_NO_CONTEXT
      else mEglContext s1 = EGL_NO_CONTEXT).
Proof.
  unfold InitContext, MY_ASSERT. run_monad.
  destruct (mEglDisplay s =? EGL_NO_DISPLAY) eqn:Ed; cbn; [discriminate|].
  destruct (mEglContext s =? EGL_NO_CONTEXT) eqn:Es; cbn.
  - destruct (eglCreateContext_ret pf =? EGL_NO_CONTEXT) eqn:Er;
      cbn; intros H; inversion H; subst; cbn; eqb_hyps; auto.
  - intros H; inversion H; subst. eqb_hyps. auto.
Qed.

Lemma PrepareToRender_ready pf s :
  all_live s -> PrepareToRender pf s = ([], Some (true, s)).
Proof.
  intros (Hd & Hs & Hc). unfold PrepareToRender. run_monad.
  apply Z.eqb_neq in Hd, Hs, Hc. now rewrite Hd, Hs, Hc.
Qed.

Lemma PrepareToRender_true pf s s' :
  eglMakeCurrent_ret pf = true ->
  snd (PrepareToRender pf s) = Some (true, s') ->
  all_live s'.
Proof.
  intros Hb H. unfold PrepareToRender in H. passes H.
  destruct (_ || _) eqn:Hnull.
  - completes H as ok1 s1 E1. destruct ok1; [|cbn in H; discriminate].
    cbn [negb] in H. completes H as ok2 s2 E2.
    destruct ok2; [|cbn in H; discriminate].
    destruct (InitSurface_outcome _ _ _ _ E2) as (Hd2 & Hd & _ & Hs2).
    cbn [negb] in H. completes H as ok3 s3 E3.
    destruct ok3; [|cbn in H; discriminate].
    destruct (InitContext_outcome _ _ _ _ E3) as (Hd3 & _ & Hs3 & Hc3).
    cbn [negb] in H. rewrite Hb in H. cbn [negb] in H.
    match type of H with
    | snd (?m ?st) = _ =>
        assert (P : preserves (keeps handles (handles st)) m) by by_fields;
        pose proof (P st eq_refl _ _ H) as K
    end.
    unfold keeps, handles in K. inversion K as [[Kd Ks Kc]].
    unfold all_live. rewrite Kd, Ks, Kc. repeat split; congruence.
  - cbn in H. inversion H; subst.
    apply orb_false_elim in Hnull as [Hnull Hc].
    apply orb_false_elim in Hnull as [Hd Hs]. eqb_hyps. now split.
Qed.

Lemma PrepareToRender_false pf s s' :
  handles_ok s ->
  snd (PrepareToRender pf s) = Some (false, s') ->
  mEglSurface s' = EGL_NO_SURFACE \/ mEglContext s' = EGL_NO_CONTEXT.
Proof.
  intros Hok H. unfold PrepareToRender in H. passes H.
  destruct (_ || _) eqn:Hnull; [|cbn in H; discriminate].
  completes H as ok1 s1 E1. destruct ok1.
  - cbn [negb] in H. completes H as ok2 s2 E2. destruct ok2.
    + cbn [negb] in H. completes H as ok3 s3 E3. destruct ok3.
      * cbn [negb] in H. exfalso.
        repeat (apply bind_completes in H as (? & ? & _ & H)).
        cbn in H. discriminate.
      * cbn in H. inversion H; subst. right.
        now destruct (InitContext_outcome _ _ _ _ E3) as (_ & _ & _ & Hc).
    + cbn in H. inversion H; subst. left.
      now destruct (InitSurface_outcome _ _ _ _ E2) as (_ & _ & _ & Hs).
  - cbn in H. inversion H; subst.
    destruct (InitDisplay_outcome _ _ _ _ E1) as (Hs & Hc & _ & Hd).
    left. rewrite Hs. now apply Hok, Hd.
Qed.

(** X8: what [PrepareToRender] promises.  With display, surface and
    context all live it does nothing at all and reports ready, so it is
    safe to call every frame.  When it reports ready and the bind
    ([eglMakeCurrent]) did not fail, all three handles are live
    afterwards.  When it reports not ready, starting from an engine whose
    surface and context are null whenever its display is, the surface or
    the context is null afterwards. *)
Theorem PrepareToRender_contract (pf : Platform) (s : NativeEngine) :
  (all_live s -> PrepareToRender pf s = ([], Some (true, s)))
  /\ (forall s',
        eglMakeCurrent_ret pf = true ->
        snd (PrepareToRender pf s) = Some (true, s') ->
        all_live s')
  /\ (forall s',
        handles_ok s ->
        snd (PrepareToRender pf s) = Some (false, s') ->
        mEglSurface s' = EGL_NO_SURFACE \/ mEglContext s' = EGL_NO_CONTEXT).
Proof.
  split; [apply PrepareToRender_ready|].
  split; [apply PrepareToRender_true | apply PrepareToRender_false].
Qed.

(* ================================================================= *)
(** * Further properties of the lifecycle and of the frame driver *)

Lemma HandleCommand_run window cmd s :
  exists t s',
    HandleCommand window cmd s = (t, Some (tt, s'))
    /\ s' = match cmd with
            | APP_CMD_INIT_WINDOW =>
                if negb (window =? 0) then set_mHasWindow true s else s
            | APP_CMD_TERM_WINDOW =>
                set_mHasWindow false
                  (if mEglSurface s =? EGL_NO_SURFACE then s
                   else set_mEglSurface EGL_NO_SURFACE s)
            | APP_CMD_GAINED_FOCUS => set_mHasFocus true s
            | APP_CMD_LOST_FOCUS => set_mHasFocus false s
            | APP_CMD_STOP => set_mIsVisible false s
            | APP_CMD_START => set_mIsVisible true s
            | APP_CMD_LOW_MEMORY =>
                if negb (mHasWindow s) && mHasGLObjects s
                then set_mHasGLObjects false s else s
            | _ => s
            end
    /\ (is_TERM_WINDOW cmd = false -> existsb is_graphics_call t = false).
Proof.
  unfold HandleCommand.
  destruct cmd; run_monad; rewrite ?KillSurface_run; cbn;
    try (do 2 eexists; split; [reflexivity|]; split;
         [reflexivity | first [reflexivity | discriminate]]).
  - destruct (window =? 0); cbn; do 2 eexists; repeat split.
  - destruct (mHasWindow s); cbn;
      [|unfold KillGLObjects; run_monad; destruct (mHasGLObjects s); cbn];
      do 2 eexists; repeat split.
Qed.

(** X9: how each lifecycle command moves [IsAnimating].  Every command is
    handled to the end.  Afterwards the engine is animating exactly when:
    for gained-focus, it was visible and had a window; for start, it had
    focus and a window; for init-window, it had focus, was visible and
    either had a window or the host's window pointer is non-null; it never
    is after lost-focus, stop or term-window; and any other command (save
    state, pause, resume, resized, config changed, low memory, unknown
    codes) leaves it as it was. *)
Theorem IsAnimating_after_command
  (window : Z) (cmd : AppCmd) (s : NativeEngine) :
  exists s',
    snd (HandleCommand window cmd s) = Some (tt, s')
    /\ IsAnimating s' =
       match cmd with
       | APP_CMD_INIT_WINDOW =>
           mHasFocus s && mIsVisible s
           && (mHasWindow s || negb (window =? 0))
       | APP_CMD_TERM_WINDOW | APP_CMD_LOST_FOCUS | APP_CMD_STOP => false
       | APP_CMD_GAINED_FOCUS => mIsVisible s && mHasWindow s
       | APP_CMD_START => mHasFocus s && mHasWindow s
       | _ => IsAnimating s
       end.
Proof.
  destruct (HandleCommand_run window cmd s) as (t & s' & E & -> & _).
  rewrite E. eexists. split; [reflexivity|].
  unfold IsAnimating. clear E.
  destruct s as [hf iv hw hg ? ? ? ? ? ? ? ? ? ? ? ? ? ? ? ? ?]. cbn.
  destruct cmd; cbn;
    repeat match goal with
           | |- context [?c =? ?d] => destruct (c =? d)
           end;
    cbn; destruct hf, iv, hw, hg; reflexivity.
Qed.

(** X10: what a lifecycle command never touches.  Whatever the command,
    the display and context handles, the config, the cached surface size,
    the tracker, the triangle and the frame state are as before; the
    surface handle changes only on term-window (to null); [mHasGLObjects]
    changes only on low-memory, and there it is cleared only when the
    engine holds no window; and only term-window calls into EGL. *)
Theorem HandleCommand_stays_in_its_lane
  (window : Z) (cmd : AppCmd) (s : NativeEngine) :
  exists s',
    snd (HandleCommand window cmd s) = Some (tt, s')
    /\ beyond_lifecycle s' = beyond_lifecycle s
    /\ mEglSurface s' =
       (if is_TERM_WINDOW cmd then EGL_NO_SURFACE else mEglSurface s)
    /\ mHasGLObjects s' =
       (if is_LOW_MEMORY cmd then mHasGLObjects s && mHasWindow s
        else mHasGLObjects s)
    /\ (is_TERM_WINDOW cmd = false ->
        existsb is_graphics_call (fst (HandleCommand window cmd s)) = false).
Proof.
  destruct (HandleCommand_run window cmd s) as (t & s' & E & -> & Hg).
  rewrite E. eexists. split; [reflexivity|].
  split; [|split; [|split; [|exact Hg]]]; clear E Hg;
    unfold beyond_lifecycle;
    destruct s as [hf iv hw hg ? ? ? ? ? ? ? ? ? ? ? ? ? ? ? ? ?]; cbn;
    destruct cmd; cbn;
    repeat match goal with
           | |- context [?c =? ?d] => destruct (c =? d) eqn:?
           end;
    cbn; eqb_hyps; unfold EGL_NO_SURFACE in *;
    try congruence; destruct hw, hg; cbn; congruence.
Qed.

#[local] Arguments HandleCommand : simpl never.

Lemma polled_command_completes p s :
  exists t1 s1,
    (match polled_cmd p with
     | Some cmd => HandleCommand (polled_window p) cmd
     | None => ret tt
     end) s = (t1, Some (tt, s1)).
Proof.
  destruct (polled_cmd p) as [cmd|].
  - destruct (HandleCommand_run (polled_window p) cmd s)
      as (t & s' & E & _). eauto.
  - do 2 eexists. reflexivity.
Qed.

Lemma pump_cons p polls s t1 s1 :
  (match polled_cmd p with
   | Some cmd => HandleCommand (polled_window p) cmd
   | None => ret tt
   end) s = (t1, Some (tt, s1)) ->
  pump (p :: polls) s =
  (poll s :: t1
   ++ (if destroyRequested p then [] else fst (pump polls s1)),
   if destroyRequested p then Some (Returned, s1)
   else snd (pump polls s1)).
Proof.
  intros Hc. cbn [pump]. unfold bind at 1. cbn [get].
  unfold bind at 1. cbn [tell]. rewrite (bind_done _ _ _ _ _ _ Hc).
  cbn [fst snd app]. destruct (destroyRequested p); [reflexivity|].
  destruct (pump polls s1) as [t o]. reflexivity.
Qed.

Lemma pump_run polls :
  forall s, exists t s',
    pump polls s =
    (t, Some (if existsb destroyRequested polls then Returned else Looping,
              s'))
    /\ pump (until_destroy polls) s = pump polls s.
Proof.
  induction polls as [|p polls IH]; intros s.
  - do 2 eexists. split; reflexivity.
  - destruct (polled_command_completes p s) as (t1 & s1 & Hc).
    rewrite (pump_cons p polls s t1 s1 Hc).
    cbn [until_destroy existsb].
    destruct (destroyRequested p) eqn:Hd; cbn [orb].
    + do 2 eexists. split; [reflexivity|].
      rewrite (pump_cons p [] s t1 s1 Hc), Hd. reflexivity.
    + destruct (IH s1) as (t & s' & E & Eu).
      rewrite (pump_cons p (until_destroy polls) s t1 s1 Hc), Hd, Eu, E.
      do 2 eexists. split; reflexivity.
Qed.

(** X11: the event pump stops at the first destroy request.  A pump
    handles every polled command to the end; it returns to its caller
    exactly when one of the polled entries carries a destroy request, and
    what was polled after that entry plays no part: the pump behaves as on
    the polls up to and including it. *)
Theorem pump_stops_at_the_first_destroy_request
  (polls : list Polled) (s : NativeEngine) :
  exists s',
    snd (pump polls s) =
    Some (if existsb destroyRequested polls then Returned else Looping, s')
    /\ pump polls s = pump (until_destroy polls) s.
Proof.
  destruct (pump_run polls s) as (t & s' & E & Eu).
  rewrite Eu, E. eexists. split; reflexivity.
Qed.

Lemma HandleCommand_quiet window cmd :
  never is_callback_draw_or_swap (HandleCommand window cmd).
Proof.
  unfold HandleCommand, KillSurface, KillGLObjects. destruct cmd; no_effect.
Qed.

Lemma pump_quiet polls : never is_callback_draw_or_swap (pump polls).
Proof.
  pose proof HandleCommand_quiet.
  induction polls as [|p polls IH]; cbn [pump]; unfold poll; no_effect.
Qed.

(** X12: a destroy request ends the turn, and nothing else does.  When a
    polled entry carries a destroy request, the turn of the game loop is
    the pump alone: the input buffer is not swapped, no touch event reaches
    the callback and no frame is drawn or presented.  Without a destroy
    request the turn drains the input and runs [DoFrame] whether or not
    the engine is animating. *)
Theorem destroy_request_ends_the_turn
  (polls : list Polled) (u : nat -> TouchScreenEvent)
  (ib : option android_input_buffer) (pf : Platform) (s : NativeEngine) :
  (existsb destroyRequested polls = true ->
     GameLoop_turn polls u ib pf s =
     (fst (pump polls s),
      option_map (fun r => (Returned, snd r)) (snd (pump polls s)))
     /\ existsb is_callback_draw_or_swap
          (fst (GameLoop_turn polls u ib pf s)) = false)
  /\ (existsb destroyRequested polls = false ->
      exists s1,
        snd (pump polls s) = Some (Looping, s1)
        /\ fst (GameLoop_turn polls u ib pf s) =
           fst (pump polls s)
           ++ fst (process_input_events u ib s1)
           ++ match snd (process_input_events u ib s1) with
              | Some (_, s2) => fst (DoFrame pf s2)
              | None => []
              end).
Proof.
  destruct (pump_run polls s) as (t & s' & E & _).
  split; intros Hd; rewrite Hd in E.
  - assert (G : GameLoop_turn polls u ib pf s
                = (fst (pump polls s),
                   option_map (fun r => (Returned, snd r))
                     (snd (pump polls s)))).
    { unfold GameLoop_turn. rewrite (bind_done _ _ _ _ _ _ E), E. cbn.
      now rewrite app_nil_r. }
    split; [exact G|]. rewrite G. cbn [fst]. apply pump_quiet.
  - exists s'. rewrite E. split; [reflexivity|].
    unfold GameLoop_turn. rewrite (bind_done _ _ _ _ _ _ E). cbn [fst snd].
    f_equal. rewrite bind_effects. f_equal.
    destruct (snd (process_input_events u ib s')) as [[[] s2]|];
      [|reflexivity].
    rewrite bind_effects.
    destruct (snd (DoFrame pf s2)) as [[[] s3]|]; cbn;
      now rewrite app_nil_r.
Qed.

(** X13: the destructor releases the context and nothing else.  It
    destroys the context if there is one, nulls that handle and clears
    [mHasGLObjects]; the display and the surface are neither destroyed nor
    terminated and their handles stay as they were, as does the rest of
    the engine. *)
Theorem destructor_releases_only_the_context (s : NativeEngine) :
  exists s',
    snd (NativeEngine_delete s) = Some (tt, s')
    /\ mEglContext s' = EGL_NO_CONTEXT
    /\ mHasGLObjects s' = false
    /\ mEglDisplay s' = mEglDisplay s
    /\ mEglSurface s' = mEglSurface s
    /\ filter is_destroy (fst (NativeEngine_delete s)) = destroys_context s
    /\ s' = set_mEglContext EGL_NO_CONTEXT (set_mHasGLObjects false s).
Proof.
  unfold NativeEngine_delete, destroys_context. run_monad.
  rewrite KillContext_run. cbn.
  eexists. split; [reflexivity|].
  destruct s as [hf iv hw hg d su c ? ? ? ? ? ? ? ? ? ? ? ? ? ?]. cbn.
  destruct hg; destruct (c =? EGL_NO_CONTEXT) eqn:Ec; cbn; eqb_hyps;
    subst; repeat split; reflexivity.
Qed.

(* ================================================================= *)
(** * Further properties of frames *)

#[local] Arguments print_gl_errors : simpl never.
#[local] Arguments HandleEglError : simpl never.
#[local] Arguments _log_opengl_error : simpl never.

Lemma _log_opengl_error_run e s :
  exists fmt, _log_opengl_error e s = ([Log LOGE fmt], Some (tt, s)).
Proof.
  unfold _log_opengl_error.
  repeat match goal with
         | |- context [if ?c then _ else _] => destruct c
         end; eexists; reflexivity.
Qed.

Lemma set_errorsPrinted_same s : set_errorsPrinted (errorsPrinted s) s = s.
Proof. now destruct s. Qed.

Lemma print_gl_errors_run answers :
  forall s, exists t n,
    print_gl_errors answers s = (t, Some (tt, set_errorsPrinted n s))
    /\ errorsPrinted s <= n
    /\ (errorsPrinted s <= MAX_GL_ERRORS -> n <= MAX_GL_ERRORS)
    /\ (MAX_GL_ERRORS <= errorsPrinted s ->
        n = errorsPrinted s /\ filter is_log t = []).
Proof.
  induction answers as [|e answers IH]; intros s.
  - exists [glGetError], (errorsPrinted s).
    rewrite set_errorsPrinted_same. repeat split; auto; lia.
  - unfold print_gl_errors; fold print_gl_errors. run_monad.
    destruct (e =? GL_NO_ERROR).
    { exists [glGetError], (errorsPrinted s).
      rewrite set_errorsPrinted_same. repeat split; auto; lia. }
    destruct (errorsPrinted s <? MAX_GL_ERRORS) eqn:Hlt; cbn.
    + apply Z.ltb_lt in Hlt.
      destruct (_log_opengl_error_run e s) as (fmt & ->). cbn.
      destruct (IH (set_errorsPrinted (errorsPrinted s + 1) s))
        as (t & n & E & Hle & Hcap & _).
      cbn [errorsPrinted set_errorsPrinted] in Hle, Hcap.
      destruct (MAX_GL_ERRORS <=? errorsPrinted s + 1); cbn;
        rewrite E; cbn;
        do 2 eexists; (split; [reflexivity|]);
        repeat split; try lia.
    + apply Z.ltb_ge in Hlt.
      destruct (IH s) as (t & n & E & Hle & Hcap & Hfull).
      rewrite E. cbn. do 2 eexists. split; [reflexivity|].
      destruct (Hfull Hlt) as [-> Hlog].
      repeat split; auto; lia.
Qed.

Lemma print_gl_errors_bounded answers :
  preserves errors_bounded (print_gl_errors answers).
Proof.
  intros s [H0 H1] a s' H.
  destruct (print_gl_errors_run answers s) as (t & n & E & Hle & Hcap & _).
  rewrite E in H. inversion H; subst. unfold errors_bounded. cbn. lia.
Qed.

#[local] Hint Extern 2 (preserves errors_bounded (modify _)) =>
  field_update errors_bounded : preserves.
#[local] Hint Extern 1 (preserves errors_bounded (process_input_events _ _)) =>
  plumbing errors_bounded : preserves.
#[local] Hint Extern 1 (preserves errors_bounded ConfigureOpenGL) =>
  plumbing errors_bounded : preserves.
#[local] Hint Extern 1 (preserves errors_bounded (load_vertex_shader _)) =>
  plumbing errors_bounded : preserves.
#[local] Hint Extern 1 (preserves errors_bounded (load_frag_shader _)) =>
  plumbing errors_bounded : preserves.
#[local] Hint Extern 1 (preserves errors_bounded load_program) =>
  plumbing errors_bounded : preserves.
#[local] Hint Extern 1 (preserves errors_bounded setup_vertex_buffer) =>
  plumbing errors_bounded : preserves.
#[local] Hint Resolve print_gl_errors_bounded : preserves.

(** Unfold the render-context functions down to their field updates. *)
Ltac through_render_context :=
  unfold PrepareToRender, InitDisplay, InitSurface, InitContext,
    HandleEglError, KillDisplay, KillContext, KillSurface, KillGLObjects;
  auto 80 with preserves.

Lemma HandleEglError_errors_bounded error :
  preserves errors_bounded (HandleEglError error).
Proof. through_render_context. Qed.

Lemma PrepareToRender_errors_bounded pf :
  preserves errors_bounded (PrepareToRender pf).
Proof. through_render_context. Qed.

#[local] Hint Resolve HandleEglError_errors_bounded
  PrepareToRender_errors_bounded : preserves.

Lemma DoFrame_errors_bounded pf : preserves errors_bounded (DoFrame pf).
Proof. unfold DoFrame. auto 80 with preserves. Qed.

Lemma HandleCommand_errors_bounded window cmd :
  preserves errors_bounded (HandleCommand window cmd).
Proof.
  unfold HandleCommand, KillSurface, KillGLObjects.
  destruct cmd; auto 80 with preserves.
Qed.

#[local] Hint Resolve DoFrame_errors_bounded HandleCommand_errors_bounded
  : preserves.

Lemma pump_errors_bounded polls : preserves errors_bounded (pump polls).
Proof. induction polls as [|p polls IH]; cbn [pump]; by_fields. Qed.

#[local] Hint Resolve pump_errors_bounded : preserves.

Lemma run_op_errors_bounded o : preserves errors_bounded (run_op o).
Proof.
  destruct o; cbn [run_op]; unfold GameLoop_turn, NativeEngine_delete;
    through_render_context.
Qed.

(** X14: the log of OpenGL errors is capped.  In every state the engine
    reaches, the count of logged OpenGL errors lies between 0 and
    [MAX_GL_ERRORS]; the error loop at the end of a frame always runs to
    the end and never lowers the count; and once the count has reached the
    cap the loop still drains [glGetError] but logs nothing and leaves the
    engine unchanged. *)
Theorem GL_error_log_is_capped :
  (forall s, reachable s -> errors_bounded s)
  /\ (forall answers s,
        exists s',
          snd (print_gl_errors answers s) = Some (tt, s')
          /\ errorsPrinted s <= errorsPrinted s')
  /\ (forall answers s,
        errorsPrinted s = MAX_GL_ERRORS ->
        snd (print_gl_errors answers s) = Some (tt, s)
        /\ filter is_log (fst (print_gl_errors answers s)) = []).
Proof.
  split; [|split].
  - induction 1 as [v | o s s' _ IH Hstep].
    + split; cbn; [lia | discriminate].
    + exact (run_op_errors_bounded o s IH tt s' Hstep).
  - intros answers s.
    destruct (print_gl_errors_run answers s) as (t & n & E & Hle & _).
    rewrite E. eexists. split; [reflexivity|]. exact Hle.
  - intros answers s Hfull.
    destruct (print_gl_errors_run answers s) as (t & n & E & _ & _ & Hcap).
    destruct (Hcap ltac:(lia)) as [-> Hlog].
    rewrite E, set_errorsPrinted_same. split; [reflexivity | exact Hlog].
Qed.

Lemma HandleEglError_total error s :
  exists t r s',
    HandleEglError error s = (t, Some (r, s'))
    /\ handles s' = handles_after_error error (handles s)
    /\ frame_state s' = frame_state s
    /\ existsb is_draw_or_swap t = false.
Proof.
  pose proof (HandleEglError_never_draws error s) as N.
  unfold HandleEglError in *. unfold handles_after_error, handles, frame_state.
  destruct (error =? EGL_SUCCESS) eqn:E0.
  { eqb_hyps. subst. do 3 eexists. split; [reflexivity|]. cbn. auto. }
  destruct (error =? EGL_CONTEXT_LOST) eqn:E1; cbn [orb].
  { revert N. run_monad. rewrite KillContext_run. cbn. intros N.
    do 3 eexists. split; [reflexivity|]. split; [|split; [|exact N]];
      destruct (mHasGLObjects s), (mEglContext s =? EGL_NO_CONTEXT) eqn:Ec;
      cbn; eqb_hyps; congruence. }
  destruct (error =? EGL_BAD_CONTEXT) eqn:E2; cbn [orb].
  { revert N. run_monad. rewrite KillContext_run. cbn. intros N.
    do 3 eexists. split; [reflexivity|]. split; [|split; [|exact N]];
      destruct (mHasGLObjects s), (mEglContext s =? EGL_NO_CONTEXT) eqn:Ec;
      cbn; eqb_hyps; congruence. }
  destruct (error =? EGL_BAD_DISPLAY) eqn:E3.
  { revert N. run_monad. rewrite KillDisplay_run. cbn. intros N.
    do 3 eexists. split; [reflexivity|]. split; [|split; [|exact N]];
      destruct (mHasGLObjects s),
        (mEglContext s =? EGL_NO_CONTEXT) eqn:Ec,
        (mEglSurface s =? EGL_NO_SURFACE) eqn:Es,
        (mEglDisplay s =? EGL_NO_DISPLAY) eqn:Ed;
      cbn; eqb_hyps; congruence. }
  destruct (error =? EGL_BAD_SURFACE) eqn:E4.
  { revert N. run_monad. rewrite KillSurface_run. cbn. intros N.
    do 3 eexists. split; [reflexivity|]. split; [|split; [|exact N]];
      destruct (mEglSurface s =? EGL_NO_SURFACE) eqn:Es;
      cbn; eqb_hyps; congruence. }
  do 3 eexists. split; [reflexivity|]. cbn. auto.
Qed.

(** The part of [DoFrame] after a successful [PrepareToRender] when the
    size is unchanged: what it emits and the engine it leaves. *)
Lemma DoFrame_drawn pf s s1 :
  snd (PrepareToRender pf s) = Some (true, s1) ->
  resizes pf s = false ->
  exists t2 s',
    DoFrame pf s
    = (fst (PrepareToRender pf s) ++ t2, Some (tt, s'))
    /\ In (glDrawArrays 0 3) t2
    /\ handles s' =
       (if eglSwapBuffers_ret pf then handles s1
        else handles_after_error (egl_error_after_swap pf) (handles s1))
    /\ nn s' = (nn s1 + 1) mod 2 ^ 32
    /\ mIsFirstFrame s' = false
    /\ mSurfWidth s' = mSurfWidth s /\ mSurfHeight s' = mSurfHeight s.
Proof.
  intros H R. destruct (PrepareToRender_keeps_size _ _ _ _ H) as [Ew Eh].
  destruct (PrepareToRender pf s) as [t1 o] eqn:E. cbn in H. subst o.
  unfold DoFrame. rewrite (bind_done _ _ _ _ _ _ E). cbn [negb fst snd].
  unfold resizes in R. rewrite <- Ew, <- Eh in R.
  run_monad. rewrite R.
  destruct (eglSwapBuffers_ret pf) eqn:Hswap; cbn [negb].
  - destruct (mIsFirstFrame s1) eqn:F; cbn;
      match goal with
      | |- context [print_gl_errors ?l ?st] =>
          destruct (print_gl_errors_run l st) as (t3 & n & -> & _)
      end; cbn;
      do 2 eexists; (split; [reflexivity|]);
      (split; [cbn; auto 10|]); cbn; rewrite ?F; auto.
  - destruct (mIsFirstFrame s1) eqn:F; cbn;
      match goal with
      | |- context [HandleEglError ?e ?st] =>
          destruct (HandleEglError_total e st)
            as (te & r & se & -> & Hh & Hn & _)
      end; cbn;
      match goal with
      | |- context [print_gl_errors ?l ?st] =>
          destruct (print_gl_errors_run l st) as (t3 & n & -> & _)
      end; cbn;
      do 2 eexists; (split; [reflexivity|]);
      (split; [cbn; auto 10|]);
      unfold handles, frame_state in *; cbn in *; rewrite ?F in *;
      inversion Hn; repeat split; congruence.
Qed.

(** X15: a failed present goes through the error repair.  A frame that
    is prepared and finds the surface size unchanged draws, and runs to
    the end whatever [eglSwapBuffers] answers: when the swap succeeds the
    three EGL handles are left as [PrepareToRender] left them, and when it
    fails they are exactly what the repair for the reported EGL error
    leaves (context nulled for context-lost and bad-context, all three
    nulled for bad-display, surface nulled for bad-surface, untouched for
    any other code). *)
Theorem present_failure_goes_through_error_repair
  (pf : Platform) (s s1 : NativeEngine) :
  snd (PrepareToRender pf s) = Some (true, s1) ->
  resizes pf s = false ->
  exists s',
    snd (DoFrame pf s) = Some (tt, s')
    /\ In (glDrawArrays 0 3) (fst (DoFrame pf s))
    /\ handles s' =
       (if eglSwapBuffers_ret pf then handles s1
        else handles_after_error (egl_error_after_swap pf) (handles s1)).
Proof.
  intros H R.
  destruct (DoFrame_drawn pf s s1 H R) as (t2 & s' & E & Hdraw & Hh & _).
  rewrite E. exists s'. split; [reflexivity|].
  split; [apply in_or_app; right; exact Hdraw | exact Hh].
Qed.

Lemma PrepareToRender_keeps_nn pf v :
  preserves (keeps nn v) (PrepareToRender pf).
Proof. through_render_context. Qed.

Lemma In_existsb {A} (f : A -> bool) a l :
  In a l -> f a = true -> existsb f l = true.
Proof. intros Hin Hf. apply existsb_exists. now exists a. Qed.

Lemma DoFrame_counter pf s s' :
  snd (DoFrame pf s) = Some (tt, s') ->
  nn s' = if existsb is_draw_or_swap (fst (DoFrame pf s))
          then (nn s + 1) mod 2 ^ 32 else nn s.
Proof.
  intros H.
  destruct (snd (PrepareToRender pf s)) as [[[|] s1]|] eqn:E.
  - pose proof (PrepareToRender_keeps_nn pf (nn s) s eq_refl _ _ E) as Hn.
    unfold keeps in Hn.
    destruct (resizes pf s) eqn:R.
    + rewrite (resize_frame_is_quiet _ _ R).
      rewrite (DoFrame_resize _ _ _ E R) in H. inversion H; subst. exact Hn.
    + destruct (DoFrame_drawn pf s s1 E R)
        as (t2 & s2 & E2 & Hdraw & _ & Hnn & _).
      rewrite E2 in H |- *. inversion H; subst. cbn [fst].
      rewrite existsb_app, (In_existsb _ _ _ Hdraw eq_refl), orb_true_r.
      now rewrite Hnn, Hn.
  - pose proof (PrepareToRender_keeps_nn pf (nn s) s eq_refl _ _ E) as Hn.
    rewrite (DoFrame_not_ready _ _ _ E) in H |- *. inversion H; subst.
    cbn [fst]. rewrite existsb_app, (PrepareToRender_never_draws pf s).
    exact Hn.
  - rewrite (DoFrame_aborted _ _ E) in H. discriminate.
Qed.

Lemma HandleCommand_keeps_nn window cmd v :
  preserves (keeps nn v) (HandleCommand window cmd).
Proof.
  unfold HandleCommand, KillSurface, KillGLObjects.
  destruct cmd; auto 80 with preserves.
Qed.

(** X16: the frame counter counts the frames that were drawn.  A
    [DoFrame] that runs to the end advances [nn] by one, wrapping at 2^32,
    exactly when it drew (or swapped), and leaves it alone otherwise: on a
    resize frame and when the render context could not be prepared.  No
    operation other than a frame changes [nn]. *)
Theorem frame_counter_counts_drawn_frames :
  (forall pf s s',
      snd (DoFrame pf s) = Some (tt, s') ->
      nn s' = if existsb is_draw_or_swap (fst (DoFrame pf s))
              then (nn s + 1) mod 2 ^ 32 else nn s)
  /\ (forall o s s',
        frame_of o = None -> step o s s' -> nn s' = nn s).
Proof.
  split; [exact DoFrame_counter|].
  intros o s s' Hf H. unfold step in H.
  pose proof HandleCommand_keeps_nn as Hc.
  destruct o; try discriminate Hf; cbn [run_op] in H;
    match type of H with
    | snd (?m ?st) = _ =>
        assert (P : preserves (keeps nn (nn st)) m)
          by (unfold NativeEngine_delete; through_render_context);
        exact (P st eq_refl _ _ H)
    end.
Qed.

(** X17: a resize frame is followed by a drawn frame.  After a frame
    that was prepared with a successful bind and found a new surface size
    (and therefore drew nothing), the next frame that queries the same
    size needs no preparation at all and draws. *)
Theorem resize_frame_is_followed_by_a_drawn_frame
  (pf pf' : Platform) (s s1 : NativeEngine) :
  snd (PrepareToRender pf s) = Some (true, s1) ->
  eglMakeCurrent_ret pf = true ->
  resizes pf s = true ->
  query_width pf' = query_width pf ->
  query_height pf' = query_height pf ->
  exists s',
    snd (DoFrame pf s) = Some (tt, s')
    /\ existsb is_draw_or_swap (fst (DoFrame pf s)) = false
    /\ PrepareToRender pf' s' = ([], Some (true, s'))
    /\ In (glDrawArrays 0 3) (fst (DoFrame pf' s')).
Proof.
  intros H Hb R Hw Hh.
  pose proof (PrepareToRender_true pf s s1 Hb H) as Hlive.
  rewrite (DoFrame_resize _ _ _ H R). cbn [fst snd].
  eexists. split; [reflexivity|].
  split.
  { pose proof (resize_frame_is_quiet _ _ R) as Q.
    now rewrite (DoFrame_resize _ _ _ H R) in Q. }
  set (s' := set_mSurfHeight _ _).
  assert (Hready : PrepareToRender pf' s' = ([], Some (true, s')))
    by (apply PrepareToRender_ready; exact Hlive).
  split; [exact Hready|].
  assert (R' : resizes pf' s' = false).
  { unfold resizes, s'. cbn. now rewrite Hw, Hh, !Z.eqb_refl. }
  assert (E' : snd (PrepareToRender pf' s') = Some (true, s'))
    by now rewrite Hready.
  destruct (DoFrame_drawn pf' s' s' E' R') as (t2 & s2 & -> & Hdraw & _).
  cbn [fst]. apply in_or_app. right. exact Hdraw.
Qed.

(* ================================================================= *)
(** ** The further properties at concrete inputs *)

Lemma Move_batch_emits_one_event_per_pointer_witness :
  let me := mkMotionEvent AMOTION_EVENT_ACTION_MOVE 2
              (pointer_slots [mkAxes 0 (F32.of_int 75) (F32.of_int 100);
                              mkAxes 4 (F32.of_int 25) (F32.of_int 20)]) in
  is_move_batch me
  /\ exists t s',
       process_motion_event some_event me engine_100x200
       = (t, Some (tt, s'))
       /\ map TouchScreenEvent.id (emitted t) = [0; 4].
Proof.
  cbv zeta.
  assert (H : is_move_batch
                (mkMotionEvent AMOTION_EVENT_ACTION_MOVE 2
                   (pointer_slots
                      [mkAxes 0 (F32.of_int 75) (F32.of_int 100);
                       mkAxes 4 (F32.of_int 25) (F32.of_int 20)]))).
  { split; [evaluate|]. split; [evaluate | vm_compute; discriminate]. }
  split; [exact H|].
  destruct (Move_batch_emits_one_event_per_pointer some_event _
              engine_100x200 H) as (t & s' & E & Hm & _).
  exists t, s'. split; [exact E|].
  apply (f_equal (map (fun x => snd (fst x)))) in Hm.
  rewrite !map_map in Hm. cbn [fst snd] in Hm.
  etransitivity; [exact Hm | evaluate].
Defined.

Lemma Down_then_Up_restores_the_engine_witness :
  let down := one_pointer AMOTION_EVENT_ACTION_DOWN 0 50 50 in
  let up := one_pointer AMOTION_EVENT_ACTION_UP 0 60 70 in
  find_if 0 (previous_positions engine_100x200) = None
  /\ exists s1,
       snd (process_motion_event some_event down engine_100x200)
       = Some (tt, s1)
       /\ snd (process_motion_event some_event up s1)
          = Some (tt, engine_100x200).
Proof.
  cbv zeta. split; [evaluate|].
  destruct (Down_then_Up_restores_the_engine some_event some_event
              (one_pointer AMOTION_EVENT_ACTION_DOWN 0 50 50)
              (one_pointer AMOTION_EVENT_ACTION_UP 0 60 70)
              engine_100x200 0 0
              (mkAxes 0 (F32.of_int 50) (F32.of_int 50))
              (mkAxes 0 (F32.of_int 60) (F32.of_int 70))
              ltac:(evaluate) ltac:(evaluate) ltac:(evaluate)
              ltac:(evaluate) ltac:(evaluate) ltac:(evaluate))
    as (s1 & E1 & _ & E2).
  exists s1. split; [exact E1 | exact E2].
Defined.

Lemma other_ids_keep_their_record_witness :
  let s := engine_after_events
             [one_pointer AMOTION_EVENT_ACTION_DOWN 0 50 50;
              one_pointer AMOTION_EVENT_ACTION_DOWN 261 10 10] in
  let me := one_pointer AMOTION_EVENT_ACTION_UP 0 50 50 in
  let s' := engine_after (process_motion_event some_event me) s in
  snd (process_motion_event some_event me s) = Some (tt, s')
  /\ find_if 261 (previous_positions s')
     = find_if 261 (previous_positions s).
Proof.
  cbv zeta. split; [evaluate|].
  apply (other_ids_keep_their_record some_event
           (one_pointer AMOTION_EVENT_ACTION_UP 0 50 50)).
  - evaluate.
  - intros p [H|H]; vm_compute in H; [discriminate H|].
    injection H as <-. vm_compute. discriminate.
  - intros i p _ _ H. vm_compute in H. discriminate H.
Defined.

Lemma unhandled_events_are_dropped_witness :
  let s := engine_after_events
             [one_pointer AMOTION_EVENT_ACTION_DOWN 0 50 50] in
  process_motion_event some_event
    (one_pointer AMOTION_EVENT_ACTION_CANCEL 0 50 50) s
  = ([], Some (tt, s))
  /\ down_index (one_pointer 2053 0 50 50)
     = Some GAMEACTIVITY_MAX_NUM_POINTERS_IN_MOTION_EVENT
  /\ process_motion_event some_event (one_pointer 2053 0 50 50) s
     = ([], Some (tt, s)).
Proof.
  cbv zeta. split; [|split; [evaluate|]].
  - apply unhandled_events_are_dropped. right. left.
    split; [evaluate|]. split; [evaluate | vm_compute; discriminate].
  - apply unhandled_events_are_dropped. right. right. left. evaluate.
Defined.

Lemma failed_InitDisplay_is_not_retried_witness :
  let s := NativeEngine_new GameLoop_vertices in
  exists s1,
    snd (InitDisplay platform_failing_init s) = Some (false, s1)
    /\ mEglDisplay s1 = 1
    /\ snd (InitDisplay platform_100x200 s1) = Some (true, s1)
    /\ existsb is_graphics_call (fst (InitDisplay platform_100x200 s1))
       = false.
Proof.
  cbv zeta.
  destruct (failed_InitDisplay_is_not_retried platform_failing_init
              platform_100x200 (NativeEngine_new GameLoop_vertices)
              ltac:(evaluate) ltac:(vm_compute; discriminate)
              ltac:(evaluate))
    as (s1 & E & _ & Hd & E').
  exists s1. split; [exact E|]. split; [exact Hd|].
  rewrite E'. split; reflexivity.
Defined.

Lemma PrepareToRender_contract_witness :
  all_live engine_100x200
  /\ PrepareToRender platform_failing_swap engine_100x200
     = ([], Some (true, engine_100x200)).
Proof.
  assert (H : all_live engine_100x200)
    by (repeat split; vm_compute; discriminate).
  split; [exact H|].
  exact (proj1 (PrepareToRender_contract platform_failing_swap
                  engine_100x200) H).
Defined.

Lemma present_failure_goes_through_error_repair_witness :
  snd (PrepareToRender platform_failing_swap engine_100x200)
  = Some (true, engine_100x200)
  /\ resizes platform_failing_swap engine_100x200 = false
  /\ handles engine_100x200 = (1, 2, 3)
  /\ exists s',
       snd (DoFrame platform_failing_swap engine_100x200) = Some (tt, s')
       /\ handles s' = (1, EGL_NO_SURFACE, 3).
Proof.
  split; [evaluate|]. split; [evaluate|]. split; [evaluate|].
  destruct (present_failure_goes_through_error_repair
              platform_failing_swap engine_100x200 engine_100x200
              ltac:(evaluate) ltac:(evaluate))
    as (s' & E & _ & Hh).
  exists s'. split; [exact E|].
  etransitivity; [exact Hh | evaluate].
Defined.

Lemma frame_counter_counts_drawn_frames_witness :
  let s' := engine_after (DoFrame platform_100x200) engine_100x200 in
  snd (DoFrame platform_100x200 engine_100x200) = Some (tt, s')
  /\ nn engine_100x200 = 0
  /\ nn s' = 1.
Proof.
  cbv zeta.
  assert (H : snd (DoFrame platform_100x200 engine_100x200)
              = Some (tt, engine_after (DoFrame platform_100x200)
                            engine_100x200)) by evaluate.
  split; [exact H|]. split; [evaluate|].
  etransitivity;
    [exact (proj1 frame_counter_counts_drawn_frames _ _ _ H) | evaluate].
Defined.

Lemma resize_frame_is_followed_by_a_drawn_frame_witness :
  let s := NativeEngine_new GameLoop_vertices in
  resizes platform_100x200 s = true
  /\ exists s',
       snd (DoFrame platform_100x200 s) = Some (tt, s')
       /\ existsb is_draw_or_swap (fst (DoFrame platform_100x200 s)) = false
       /\ In (glDrawArrays 0 3) (fst (DoFrame platform_100x200 s')).
Proof.
  cbv zeta. split; [evaluate|].
  destruct (resize_frame_is_followed_by_a_drawn_frame
              platform_100x200 platform_100x200
              (NativeEngine_new GameLoop_vertices)
              (engine_after (PrepareToRender platform_100x200)
                 (NativeEngine_new GameLoop_vertices))
              ltac:(evaluate) ltac:(evaluate) ltac:(evaluate)
              eq_refl eq_refl)
    as (s' & E & Hq & _ & Hd).
  exists s'. split; [exact E|]. split; [exact Hq | exact Hd].
Defined.

(* ================================================================= *)
(** * Move batches, pointer by pointer *)

Lemma write_first_untracked id p l :
  find_if id l = None -> write_first id p l = l.
Proof.
  unfold find_if. induction l as [|[k q] l IH]; cbn; [reflexivity|].
  destruct (k =? id); cbn; [discriminate|].
  intros H. now rewrite IH.
Qed.

Lemma find_if_tracked id l q : find_if id l = Some q -> In id (ids l).
Proof.
  intros H. apply found_iff_tracked.
  destruct (found_by_remove_if id l) eqn:E; [reflexivity|].
  apply found_none in E. congruence.
Qed.

Lemma write_first_app id p la lb :
  write_first id p (la ++ lb) =
  if found_by_remove_if id la then write_first id p la ++ lb
  else la ++ write_first id p lb.
Proof.
  unfold found_by_remove_if.
  induction la as [|[k q] la IH]; cbn; [reflexivity|].
  destruct (k =? id); cbn; [reflexivity|].
  rewrite IH. now destruct (existsb _ la).
Qed.

Lemma ids_app la lb : ids (la ++ lb) = ids la ++ ids lb.
Proof. apply map_app. Qed.

Lemma write_first_shadowed id v l1 r l2 :
  In (fst r) (ids l1) ->
  exists l1' l2',
    write_first id v (l1 ++ r :: l2) = l1' ++ r :: l2'
    /\ ids l1' = ids l1 /\ ids l2' = ids l2.
Proof.
  intros Hin. rewrite write_first_app.
  destruct (found_by_remove_if id l1) eqn:F.
  - exists (write_first id v l1), l2.
    split; [reflexivity|]. split; [apply write_first_ids | reflexivity].
  - destruct r as [k q]. cbn [write_first].
    destruct (k =? id) eqn:E.
    + apply Z.eqb_eq in E. subst k. cbn in Hin.
      apply found_iff_tracked in Hin. congruence.
    + exists l1, (write_first id v l2).
      split; [reflexivity|]. split; [reflexivity | apply write_first_ids].
Qed.

Lemma tracker_after_moves_shadowed s0 ps :
  forall l1 r l2,
    In (fst r) (ids l1) ->
    exists l1' l2',
      tracker_after_moves s0 ps (l1 ++ r :: l2) = l1' ++ r :: l2'
      /\ ids l1' = ids l1 /\ ids l2' = ids l2.
Proof.
  unfold tracker_after_moves.
  induction ps as [|p ps IH]; intros l1 r l2 Hin; cbn [fold_left].
  - exists l1, l2. auto.
  - destruct (write_first_shadowed (axes_id p) (normalized s0 p) l1 r l2 Hin)
      as (l1' & l2' & -> & H1 & H2).
    destruct (IH l1' r l2' ltac:(now rewrite H1))
      as (l1'' & l2'' & -> & H1' & H2').
    exists l1'', l2''. split; [reflexivity|]. split; congruence.
Qed.

Lemma move_pointer_step me i ev s p :
  slot me i = Some p ->
  exists ev' s',
    move_pointer me i ev s = (fst (move_pointer me i ev s), Some (ev', s'))
    /\ emitted (fst (move_pointer me i ev s)) = [ev']
    /\ TouchScreenEvent.type ev' = TouchScreenEvent.type ev
    /\ TouchScreenEvent.max ev' = TouchScreenEvent.max ev
    /\ TouchScreenEvent.id ev' = axes_id p
    /\ TouchScreenEvent.pos ev' = raw p
    /\ TouchScreenEvent.norm_pos ev' =
       mkPosition (F32.div (axes_X p) (x (TouchScreenEvent.max ev)))
                  (F32.div (axes_Y p) (y (TouchScreenEvent.max ev)))
    /\ previous_positions s' =
       write_first (axes_id p) (TouchScreenEvent.norm_pos ev')
         (previous_positions s)
    /\ (forall stored,
          find_if (axes_id p) (previous_positions s) = Some stored ->
          TouchScreenEvent.move_ndelta ev' =
          delta (TouchScreenEvent.norm_pos ev') stored)
    /\ mSurfWidth s' = mSurfWidth s /\ mSurfHeight s' = mSurfHeight s.
Proof.
  intros Hs. rewrite move_pointer_run, Hs. cbn zeta.
  change (TouchScreenEvent.id (fill_from_pointer i p ev)) with (axes_id p).
  destruct (find_if (axes_id p) (previous_positions s)) as [pp|] eqn:Hf;
    do 2 eexists; (split; [reflexivity|]); cbn [fst emitted callback_log];
    rewrite after_callback_tracker;
    match goal with
    | |- context [after_callback ?e ?st] =>
        destruct (after_callback_size e st) as [Hw Hh]; rewrite Hw, Hh
    end;
    (repeat split; try reflexivity).
  - intros stored H. inversion H. reflexivity.
  - cbn. symmetry. now apply write_first_untracked.
  - intros stored H. discriminate H.
Qed.

Lemma for_loop_batch me s0 n :
  forall from ev s l,
    0 <= from ->
    skipn (Z.to_nat from) (pointers me) = l ->
    (n <= List.length l)%nat ->
    TouchScreenEvent.max ev =
    mkPosition (F32.of_int (mSurfWidth s0)) (F32.of_int (mSurfHeight s0)) ->
    exists t ev' s',
      for_loop n from (move_pointer me) ev s = (t, Some (ev', s'))
      /\ map (fun e => (TouchScreenEvent.type e, TouchScreenEvent.id e,
                        TouchScreenEvent.pos e, TouchScreenEvent.norm_pos e))
           (emitted t)
         = map (fun p => (TouchScreenEvent.type ev, axes_id p, raw p,
                          normalized s0 p)) (firstn n l)
      /\ previous_positions s' =
         tracker_after_moves s0 (firstn n l) (previous_positions s)
      /\ TouchScreenEvent.max ev' = TouchScreenEvent.max ev
      /\ TouchScreenEvent.type ev' = TouchScreenEvent.type ev
      /\ mSurfWidth s' = mSurfWidth s /\ mSurfHeight s' = mSurfHeight s.
Proof.
  induction n as [|n IH]; intros from ev s l Hf Hl Hn Hmax.
  - exists [], ev, s. cbn. repeat split; reflexivity.
  - destruct l as [|p l']; [cbn in Hn; lia|].
    destruct (slot_of_suffix me from p l' Hf Hl) as [Hs Hl'].
    destruct (move_pointer_step me from ev s p Hs)
      as (ev1 & s1 & E & Hem & Hty & Hmx & Hid & Hpos & Hnorm & Htr & _
          & Hw & Hh).
    assert (Hn1 : TouchScreenEvent.norm_pos ev1 = normalized s0 p).
    { rewrite Hnorm, Hmax. reflexivity. }
    destruct (IH (from + 1) ev1 s1 l' ltac:(lia) Hl' ltac:(cbn in Hn; lia)
                ltac:(congruence))
      as (t & ev' & s' & E' & Hmap & Htr' & Hmx' & Hty' & Hw' & Hh').
    cbn [for_loop]. rewrite (bind_done _ _ _ _ _ _ E), E'. cbn [fst snd].
    do 3 eexists. split; [reflexivity|].
    rewrite emitted_app, Hem. cbn [app map firstn].
    rewrite Hmap, Hty, Hid, Hpos, Hn1, Htr', Htr, Hn1.
    unfold tracker_after_moves. cbn [fold_left].
    repeat split; congruence.
Qed.

Lemma for_loop_focus me s0 n :
  forall from ev s l k p stored,
    0 <= from ->
    skipn (Z.to_nat from) (pointers me) = l ->
    (n <= List.length l)%nat ->
    TouchScreenEvent.max ev =
    mkPosition (F32.of_int (mSurfWidth s0)) (F32.of_int (mSurfHeight s0)) ->
    from <= k < from + Z.of_nat n ->
    slot me k = Some p ->
    find_if (axes_id p) (previous_positions s) = Some stored ->
    (forall j q, from <= j < from + Z.of_nat n -> j <> k ->
                 slot me j = Some q -> axes_id q <> axes_id p) ->
    exists t ev' s' e,
      for_loop n from (move_pointer me) ev s = (t, Some (ev', s'))
      /\ nth_error (emitted t) (Z.to_nat (k - from)) = Some e
      /\ TouchScreenEvent.type e = TouchScreenEvent.type ev
      /\ TouchScreenEvent.id e = axes_id p
      /\ TouchScreenEvent.norm_pos e = normalized s0 p
      /\ TouchScreenEvent.move_ndelta e = delta (normalized s0 p) stored
      /\ find_if (axes_id p) (previous_positions s') = Some (normalized s0 p)
      /\ mSurfWidth s' = mSurfWidth s /\ mSurfHeight s' = mSurfHeight s.
Proof.
  induction n as [|n IH];
    intros from ev s l k p stored Hf Hl Hn Hmax Hk Hp Hst Hothers; [lia|].
  destruct l as [|q l']; [cbn in Hn; lia|].
  destruct (slot_of_suffix me from q l' Hf Hl) as [Hs Hl'].
  destruct (move_pointer_step me from ev s q Hs)
    as (ev1 & s1 & E & Hem & Hty & Hmx & Hid & Hpos & Hnorm & Htr & Hdelta
        & Hw & Hh).
  assert (Hn1 : TouchScreenEvent.norm_pos ev1 = normalized s0 q).
  { rewrite Hnorm, Hmax. reflexivity. }
  cbn [for_loop]. rewrite (bind_done _ _ _ _ _ _ E).
  destruct (Z.eq_dec k from) as [->|Hne].
  - assert (q = p) by congruence. subst q.
    destruct (for_loop_batch me s0 n (from + 1) ev1 s1 l' ltac:(lia) Hl'
                ltac:(cbn in Hn; lia) ltac:(congruence))
      as (t & ev' & s' & E' & _ & _ & _ & _ & Hw' & Hh').
    rewrite E'. cbn [fst snd].
    exists (fst (move_pointer me from ev s) ++ t), ev', s', ev1.
    split; [reflexivity|].
    rewrite emitted_app, Hem, Z.sub_diag. cbn [app nth_error Z.to_nat].
    split; [reflexivity|]. split; [exact Hty|]. split; [exact Hid|].
    split; [exact Hn1|].
    split; [rewrite (Hdelta stored Hst), Hn1; reflexivity|].
    split; [|split; congruence].
    assert (Hrest : forall i q, from + 1 <= i < from + 1 + Z.of_nat n ->
                      slot me i = Some q -> axes_id q <> axes_id p).
    { intros i q Hi Hq. apply (Hothers i q); [lia | lia | exact Hq]. }
    rewrite (for_loop_other me (axes_id p) n (from + 1) ev1 s1 ev' s' Hrest
               ltac:(now rewrite E')).
    rewrite Htr, Hn1. exact (find_if_write_first _ _ _ _ Hst).
  - assert (Hqp : axes_id q <> axes_id p).
    { apply (Hothers from q); [lia | congruence | exact Hs]. }
    assert (Hst1 : find_if (axes_id p) (previous_positions s1) = Some stored).
    { rewrite Htr, find_if_write_first_other; assumption. }
    destruct (IH (from + 1) ev1 s1 l' k p stored ltac:(lia) Hl'
                ltac:(cbn in Hn; lia) ltac:(congruence) ltac:(lia) Hp Hst1
                ltac:(intros j r Hj; apply Hothers; lia))
      as (t & ev' & s' & e & E' & Hnth & Hte & Hide & Hne' & Hde & Hfe
          & Hw' & Hh').
    rewrite E'. cbn [fst snd].
    exists (fst (move_pointer me from ev s) ++ t), ev', s', e.
    split; [reflexivity|].
    rewrite emitted_app, Hem. cbn [app].
    replace (Z.to_nat (k - from)) with (S (Z.to_nat (k - (from + 1))))
      by lia.
    cbn [nth_error].
    repeat split; congruence.
Qed.

Lemma ev_start_max u me s ty :
  TouchScreenEvent.max (ev_start u me s ty) =
  mkPosition (F32.of_int (mSurfWidth s)) (F32.of_int (mSurfHeight s)).
Proof. reflexivity. Qed.

Lemma ev_start_type u me s ty :
  TouchScreenEvent.type (ev_start u me s ty) = ty.
Proof. reflexivity. Qed.

Lemma move_batch_run u me s :
  is_move_batch me ->
  exists t s',
    process_motion_event u me s = (t, Some (tt, s'))
    /\ map (fun e => (TouchScreenEvent.type e, TouchScreenEvent.id e,
                      TouchScreenEvent.pos e, TouchScreenEvent.norm_pos e))
         (emitted t)
       = map (fun p => (TouchScreenEvent.Move, axes_id p, raw p,
                        normalized s p)) (batch_pointers me)
    /\ previous_positions s' =
       tracker_after_moves s (batch_pointers me) (previous_positions s)
    /\ mSurfWidth s' = mSurfWidth s /\ mSurfHeight s' = mSurfHeight s.
Proof.
  intros (Ha & Hpc & Hlen).
  rewrite (process_move_batch u me s Ha Hpc).
  destruct (for_loop_batch me s (Z.to_nat (pointerCount me)) 0
              (ev_start u me s TouchScreenEvent.Move) s (pointers me)
              ltac:(lia) eq_refl ltac:(lia) (ev_start_max _ _ _ _))
    as (t & ev' & s' & E & Hmap & Htr & _ & _ & Hw & Hh).
  rewrite E. cbn [fst snd option_map].
  exists t, s'. split; [reflexivity|].
  rewrite ev_start_type in Hmap. auto.
Qed.

Lemma move_batch_focus u me s k p stored :
  is_move_batch me ->
  0 <= k < pointerCount me ->
  slot me k = Some p ->
  find_if (axes_id p) (previous_positions s) = Some stored ->
  (forall j q, 0 <= j < pointerCount me -> j <> k ->
               slot me j = Some q -> axes_id q <> axes_id p) ->
  exists t s' e,
    process_motion_event u me s = (t, Some (tt, s'))
    /\ nth_error (emitted t) (Z.to_nat k) = Some e
    /\ TouchScreenEvent.type e = TouchScreenEvent.Move
    /\ TouchScreenEvent.id e = axes_id p
    /\ TouchScreenEvent.norm_pos e = normalized s p
    /\ TouchScreenEvent.move_ndelta e = delta (normalized s p) stored
    /\ find_if (axes_id p) (previous_positions s') = Some (normalized s p)
    /\ mSurfWidth s' = mSurfWidth s /\ mSurfHeight s' = mSurfHeight s.
Proof.
  intros (Ha & Hpc & Hlen) Hk Hp Hst Hothers.
  rewrite (process_move_batch u me s Ha Hpc).
  destruct (for_loop_focus me s (Z.to_nat (pointerCount me)) 0
              (ev_start u me s TouchScreenEvent.Move) s (pointers me)
              k p stored
              ltac:(lia) eq_refl ltac:(lia) (ev_start_max _ _ _ _)
              ltac:(lia) Hp Hst
              ltac:(intros j q Hj; apply Hothers; lia))
    as (t & ev' & s' & e & E & Hnth & Hty & Hid & Hn & Hd & Hf & Hw & Hh).
  rewrite E. cbn [fst snd option_map].
  exists t, s', e. split; [reflexivity|].
  rewrite Z.sub_0_r in Hnth. rewrite ev_start_type in Hty.
  repeat split; assumption.
Qed.

Lemma move_batch_shadowed u me s l1 r l2 :
  is_move_batch me ->
  previous_positions s = l1 ++ r :: l2 ->
  In (fst r) (ids l1) ->
  exists t s' l1' l2',
    process_motion_event u me s = (t, Some (tt, s'))
    /\ previous_positions s' = l1' ++ r :: l2'
    /\ ids l1' = ids l1 /\ ids l2' = ids l2.
Proof.
  intros Hb Hl Hin.
  destruct (move_batch_run u me s Hb) as (t & s' & E & _ & Htr & _).
  destruct (tracker_after_moves_shadowed s (batch_pointers me) l1 r l2 Hin)
    as (l1' & l2' & Hfold & H1 & H2).
  exists t, s', l1', l2'. split; [exact E|].
  rewrite Htr, Hl. auto.
Qed.

Lemma find_if_app id la lb :
  find_if id (la ++ lb) =
  match find_if id la with
  | Some q => Some q
  | None => find_if id lb
  end.
Proof.
  unfold find_if. induction la as [|[k q] la IH]; cbn; [reflexivity|].
  destruct (k =? id); [reflexivity | exact IH].
Qed.

Lemma down_run u me s j p0 :
  down_index me = Some j ->
  cooked_pointer me (Some j) = Some p0 ->
  exists s1,
    snd (process_motion_event u me s) = Some (tt, s1)
    /\ previous_positions s1 =
       previous_positions s ++ [(axes_id p0, normalized s p0)]
    /\ find_if (axes_id p0) (previous_positions s1) =
       Some (reference_after_down s p0)
    /\ mSurfWidth s1 = mSurfWidth s /\ mSurfHeight s1 = mSurfHeight s.
Proof.
  intros Hj Hc. rewrite (process_down_event_run _ _ _ _ _ Hj Hc).
  eexists. split; [reflexivity|].
  cbn [previous_positions set_previous_positions].
  split; [reflexivity|].
  split; [|split; reflexivity].
  rewrite find_if_push_back, Z.eqb_refl. unfold reference_after_down.
  now destruct (find_if _ _).
Qed.

Lemma down_then_move_batch u1 u2 down me s j p0 k p :
  down_index down = Some j ->
  cooked_pointer down (Some j) = Some p0 ->
  is_move_batch me ->
  0 <= k < pointerCount me ->
  slot me k = Some p ->
  axes_id p = axes_id p0 ->
  (forall i q, 0 <= i < pointerCount me -> i <> k ->
               slot me i = Some q -> axes_id q <> axes_id p) ->
  exists s1 t s' e,
    snd (process_motion_event u1 down s) = Some (tt, s1)
    /\ process_motion_event u2 me s1 = (t, Some (tt, s'))
    /\ nth_error (emitted t) (Z.to_nat k) = Some e
    /\ TouchScreenEvent.type e = TouchScreenEvent.Move
    /\ TouchScreenEvent.id e = axes_id p
    /\ TouchScreenEvent.move_ndelta e =
       delta (normalized s p) (reference_after_down s p0)
    /\ (forall older,
          find_if (axes_id p0) (previous_positions s) = Some older ->
          exists l',
            previous_positions s' = l' ++ [(axes_id p0, normalized s p0)]
            /\ find_if (axes_id p0) l' = Some (normalized s p))
    /\ (find_if (axes_id p0) (previous_positions s) = None ->
        find_if (axes_id p0) (previous_positions s') = Some (normalized s p)).
Proof.
  intros Hj Hc Hb Hk Hp Hid Hothers.
  destruct (down_run u1 down s j p0 Hj Hc) as (s1 & E1 & Htr1 & Hf1 & Hw & Hh).
  rewrite <- Hid in Hf1.
  destruct (move_batch_focus u2 me s1 k p _ Hb Hk Hp Hf1 Hothers)
    as (t & s' & e & E & Hnth & Hty & Hide & _ & Hd & Hf & _).
  assert (Hn : forall q, normalized s1 q = normalized s q).
  { intros q. unfold normalized. now rewrite Hw, Hh. }
  rewrite Hn in Hd, Hf.
  exists s1, t, s', e. split; [exact E1|]. split; [exact E|].
  split; [exact Hnth|]. split; [exact Hty|]. split; [exact Hide|].
  split; [exact Hd|]. split.
  - intros older Hold.
    destruct (move_batch_shadowed u2 me s1 (previous_positions s)
                (axes_id p0, normalized s p0) [] Hb Htr1
                (find_if_tracked _ _ _ Hold))
      as (t' & s'' & l1' & l2' & E' & Htr' & H1 & H2).
    rewrite E in E'. inversion E'; subst t' s''.
    destruct l2' as [|x l2']; [|discriminate H2].
    exists l1'. split; [exact Htr'|].
    rewrite Htr', Hid, find_if_app in Hf.
    destruct (find_if (axes_id p0) l1') as [y|] eqn:F; [exact Hf|].
    exfalso. apply found_none in F.
    assert (Hin : In (axes_id p0) (ids l1'))
      by (rewrite H1; exact (find_if_tracked _ _ _ Hold)).
    apply found_iff_tracked in Hin. congruence.
  - intros Hnone. now rewrite <- Hid.
Qed.

(* ================================================================= *)
(** * What each event hands to the callback *)

Lemma fill_from_start u me s ty i p :
  TouchScreenEvent.pos (fill_from_pointer i p (ev_start u me s ty)) = raw p
  /\ TouchScreenEvent.norm_pos (fill_from_pointer i p (ev_start u me s ty))
     = normalized s p.
Proof. split; reflexivity. Qed.

Lemma cooked_event_handed u me s ty i p :
  ty <> TouchScreenEvent.Move ->
  slot me i = Some p ->
  exists t s',
    cook_event me i (ev_start u me s ty) s = (t, Some (tt, s'))
    /\ map (fun e => (TouchScreenEvent.pos e, TouchScreenEvent.norm_pos e))
         (emitted t)
       = [(raw p, normalized s p)]
    /\ mSurfWidth s' = mSurfWidth s /\ mSurfHeight s' = mSurfHeight s.
Proof.
  intros Hty Hs. rewrite cook_event_run, Hs. cbn zeta.
  rewrite ev_start_type.
  destruct (fill_from_start u me s ty i p) as [Hpos Hnorm].
  destruct ty; [| |contradiction]; do 2 eexists;
    (split; [reflexivity|]); rewrite ?emitted_app;
    (split; [|split; reflexivity]).
  - destruct (found_by_remove_if _ _); cbn [emitted app map callback_log];
      now rewrite Hpos, Hnorm.
  - cbn [emitted app map callback_log]. now rewrite Hpos, Hnorm.
Qed.

Lemma process_motion_event_handed u me s ps :
  handed_pointers me = Some ps ->
  exists t s',
    process_motion_event u me s = (t, Some (tt, s'))
    /\ map (fun e => (TouchScreenEvent.pos e, TouchScreenEvent.norm_pos e))
         (emitted t)
       = map (fun p => (raw p, normalized s p)) ps
    /\ mSurfWidth s' = mSurfWidth s /\ mSurfHeight s' = mSurfHeight s.
Proof.
  unfold handed_pointers. intros H.
  destruct (0 <? pointerCount me) eqn:Hpc.
  2:{ inversion H; subst. rewrite process_motion_event_cases, Hpc.
      exists [], s. auto. }
  assert (Hone : forall ty i,
             ty <> TouchScreenEvent.Move ->
             (if i =? GAMEACTIVITY_MAX_NUM_POINTERS_IN_MOTION_EVENT
              then Some []
              else option_map (fun p => [p]) (slot me i)) = Some ps ->
             exists t s',
               (if i =? GAMEACTIVITY_MAX_NUM_POINTERS_IN_MOTION_EVENT
                then ([], Some (tt, s))
                else cook_event me i (ev_start u me s ty) s)
               = (t, Some (tt, s'))
               /\ map (fun e => (TouchScreenEvent.pos e,
                                 TouchScreenEvent.norm_pos e)) (emitted t)
                  = map (fun p => (raw p, normalized s p)) ps
               /\ mSurfWidth s' = mSurfWidth s
               /\ mSurfHeight s' = mSurfHeight s).
  { intros ty i Hty Hi.
    destruct (i =? _).
    - inversion Hi; subst. exists [], s. auto.
    - destruct (slot me i) as [p|] eqn:Hs; [|discriminate Hi].
      inversion Hi; subst. exact (cooked_event_handed u me s ty i p Hty Hs). }
  destruct (down_index me) as [i|] eqn:Hd.
  { rewrite process_motion_event_cases, Hpc, Hd.
    apply Hone; [discriminate | exact H]. }
  destruct (up_index me) as [i|] eqn:Hu.
  { rewrite process_motion_event_cases, Hpc, Hd, Hu.
    apply Hone; [discriminate | exact H]. }
  destruct (_ =? AMOTION_EVENT_ACTION_MOVE) eqn:Hm.
  - destruct (pointerCount me <=? _) eqn:Hlen; [|discriminate H].
    inversion H; subst ps.
    assert (Hb : is_move_batch me).
    { apply Z.eqb_eq in Hm. apply Z.ltb_lt in Hpc. apply Z.leb_le in Hlen.
      repeat split; assumption. }
    destruct (move_batch_run u me s Hb) as (t & s' & E & Hmap & _ & Hw & Hh).
    exists t, s'. split; [exact E|]. split; [|split; assumption].
    apply (f_equal (map (fun q : TouchScreenEvent.Type_ * Z * Position
                                 * Position => (snd (fst q), snd q))))
      in Hmap.
    rewrite !map_map in Hmap. exact Hmap.
  - inversion H; subst. rewrite process_motion_event_cases, Hpc, Hd, Hu, Hm.
    exists [], s. auto.
Qed.

Lemma process_motion_events_handed u l :
  forall pss i s,
    map handed_pointers l = map Some pss ->
    exists t s',
      process_motion_events u i l s = (t, Some (tt, s'))
      /\ map (fun e => (TouchScreenEvent.pos e, TouchScreenEvent.norm_pos e))
           (emitted t)
         = map (fun p => (raw p, normalized s p)) (List.concat pss)
      /\ mSurfWidth s' = mSurfWidth s /\ mSurfHeight s' = mSurfHeight s.
Proof.
  induction l as [|me l IH]; intros pss i s H.
  - destruct pss; [|discriminate H]. exists [], s. cbn. auto.
  - destruct pss as [|ps pss]; [discriminate H|].
    cbn [map] in H. inversion H as [[Hps Hrest]].
    destruct (process_motion_event_handed (u i) me s ps Hps)
      as (t1 & s1 & E1 & Hmap1 & Hw1 & Hh1).
    destruct (IH pss (S i) s1 Hrest) as (t & s' & E & Hmap & Hw & Hh).
    cbn [process_motion_events].
    rewrite (bind_done _ _ _ _ _ _ E1), E. cbn [fst snd].
    do 2 eexists. split; [reflexivity|].
    rewrite emitted_app, !map_app, Hmap1, Hmap. cbn [List.concat].
    rewrite map_app.
    assert (Hn : forall q, normalized s1 q = normalized s q).
    { intros q. unfold normalized. now rewrite Hw1, Hh1. }
    split; [|split; congruence].
    f_equal. apply map_ext. intros q. now rewrite Hn.
Qed.

Lemma process_input_events_handed u ib s pss :
  map handed_pointers (motionEvents ib) = map Some pss ->
  exists t s',
    process_input_events u (Some ib) s = (t, Some (tt, s'))
    /\ map (fun e => (TouchScreenEvent.pos e, TouchScreenEvent.norm_pos e))
         (emitted t)
       = map (fun p => (raw p, normalized s p)) (List.concat pss)
    /\ mSurfWidth s' = mSurfWidth s /\ mSurfHeight s' = mSurfHeight s.
Proof.
  intros H. unfold process_input_events, motionEventsCount.
  destruct (motionEvents ib) as [|me l] eqn:El.
  - destruct pss; [|discriminate H]. cbn. do 2 eexists. auto.
  - destruct (process_motion_events_handed u (me :: l) pss 0%nat s H)
      as (t & s' & E & Hmap & Hw & Hh).
    change (negb (Z.of_nat (List.length (me :: l)) =? 0)) with true.
    cbv iota. unfold bind at 1. cbn [tell].
    rewrite (bind_done _ _ _ _ _ _ E). cbn [fst snd tell].
    do 2 eexists. split; [reflexivity|].
    rewrite !emitted_app. cbn [emitted app]. rewrite app_nil_r.
    auto.
Qed.

Lemma over_zero_outside p : outside_unit_square (over_zero p).
Proof. split; apply div_by_cached_zero. Qed.

(* ================================================================= *)
(** * Deltas of move events; events before a size is cached *)

(** C1 (as the code has it): a down event appends a record holding the
    normalized down position.  In a move batch (any number of pointers,
    their ids distinct) the event emitted for a pointer whose id is tracked
    is a move event whose delta is the pointer's new normalized position
    minus the position held by the first record stored for the id, and
    that first record then holds the new position.  A record that has an
    older record of the same id before it is never written by a move
    batch.  So for a move batch that follows a down of the same id: when
    the id was not tracked at the down, the delta is taken against the
    down position, not zero; when an older record was still held, the
    delta is taken against that older record and the record the down
    appended stays as the down left it.  In a gesture down, move, ...,
    move of an id that was not tracked at the down, the first delta is
    taken against the down position and each later one against the
    previous move. *)
Theorem Move_delta_is_against_the_first_record :
  (forall u down s j p0,
      down_index down = Some j ->
      cooked_pointer down (Some j) = Some p0 ->
      exists s1,
        snd (process_motion_event u down s) = Some (tt, s1)
        /\ previous_positions s1 =
           previous_positions s ++ [(axes_id p0, normalized s p0)]
        /\ find_if (axes_id p0) (previous_positions s1) =
           Some (reference_after_down s p0))
  /\ (forall u me s k p stored,
        is_move_batch me ->
        0 <= k < pointerCount me ->
        slot me k = Some p ->
        find_if (axes_id p) (previous_positions s) = Some stored ->
        (forall j q, 0 <= j < pointerCount me -> j <> k ->
                     slot me j = Some q -> axes_id q <> axes_id p) ->
        exists t s' e,
          process_motion_event u me s = (t, Some (tt, s'))
          /\ nth_error (emitted t) (Z.to_nat k) = Some e
          /\ TouchScreenEvent.type e = TouchScreenEvent.Move
          /\ TouchScreenEvent.id e = axes_id p
          /\ TouchScreenEvent.norm_pos e = normalized s p
          /\ TouchScreenEvent.move_ndelta e = delta (normalized s p) stored
          /\ find_if (axes_id p) (previous_positions s') =
             Some (normalized s p)
          /\ dims_are (mSurfWidth s) (mSurfHeight s) s')
  /\ (forall u me s l1 r l2,
        is_move_batch me ->
        previous_positions s = l1 ++ r :: l2 ->
        In (fst r) (ids l1) ->
        exists t s' l1' l2',
          process_motion_event u me s = (t, Some (tt, s'))
          /\ previous_positions s' = l1' ++ r :: l2'
          /\ ids l1' = ids l1 /\ ids l2' = ids l2)
  /\ (forall u1 u2 down me s j p0 k p,
        down_index down = Some j ->
        cooked_pointer down (Some j) = Some p0 ->
        is_move_batch me ->
        0 <= k < pointerCount me ->
        slot me k = Some p ->
        axes_id p = axes_id p0 ->
        (forall i q, 0 <= i < pointerCount me -> i <> k ->
                     slot me i = Some q -> axes_id q <> axes_id p) ->
        exists s1 t s' e,
          snd (process_motion_event u1 down s) = Some (tt, s1)
          /\ process_motion_event u2 me s1 = (t, Some (tt, s'))
          /\ nth_error (emitted t) (Z.to_nat k) = Some e
          /\ TouchScreenEvent.type e = TouchScreenEvent.Move
          /\ TouchScreenEvent.id e = axes_id p
          /\ TouchScreenEvent.move_ndelta e =
             delta (normalized s p) (reference_after_down s p0)
          /\ (forall older,
                find_if (axes_id p0) (previous_positions s) = Some older ->
                exists l',
                  previous_positions s' =
                  l' ++ [(axes_id p0, normalized s p0)]
                  /\ find_if (axes_id p0) l' = Some (normalized s p))
          /\ (find_if (axes_id p0) (previous_positions s) = None ->
              find_if (axes_id p0) (previous_positions s') =
              Some (normalized s p)))
  /\ (forall u i s p0 ps,
        find_if (axes_id p0) (previous_positions s) = None ->
        Forall (fun p => axes_id p = axes_id p0) ps ->
        exists t s',
          process_motion_events u i
            (single AMOTION_EVENT_ACTION_DOWN p0
             :: map (single AMOTION_EVENT_ACTION_MOVE) ps) s
          = (t, Some (tt, s'))
          /\ map TouchScreenEvent.type (emitted t) =
             TouchScreenEvent.Down
             :: repeat TouchScreenEvent.Move (List.length ps)
          /\ map TouchScreenEvent.move_ndelta (tl (emitted t)) =
             deltas (normalized s p0) (map (normalized s) ps)
          /\ find_if (axes_id p0) (previous_positions s') =
             Some (last (map (normalized s) ps) (normalized s p0))).
Proof.
  split.
  { intros u down s j p0 Hj Hc.
    destruct (down_run u down s j p0 Hj Hc) as (s1 & E & Htr & Hf & _).
    exists s1. auto. }
  split.
  { intros u me s k p stored Hb Hk Hp Hst Hothers.
    destruct (move_batch_focus u me s k p stored Hb Hk Hp Hst Hothers)
      as (t & s' & e & E & Hnth & Hty & Hid & Hn & Hd & Hf & Hw & Hh).
    exists t, s', e. unfold dims_are. repeat split; assumption. }
  split; [exact move_batch_shadowed|].
  split; [exact down_then_move_batch | exact gesture_telescope].
Qed.

(** C9: the cached surface size starts at zero and no operation changes
    it except a [DoFrame] that finds the queried size different from the
    cached one.  Touch coordinates are divided by the cached size without
    a guard: while the cached size is zero, processing an input buffer
    hands the callback, for the pointer of every down and up event and for
    every pointer of every move batch, an event whose normalized position
    is the raw position divided by zero, componentwise, and neither
    coordinate of it lies in [0,1] (each quotient is an infinity or a
    NaN).  This holds of every event handed to the callback, also in a run
    that stops at an event naming a slot that does not exist. *)
Theorem unsized_events_are_not_normalized :
  (forall vertices, dims_are 0 0 (NativeEngine_new vertices))
  /\ (forall o s s' w h,
        dims_are w h s -> step o s s' ->
        dims_are w h s'
        \/ (exists pf, frame_of o = Some pf
                       /\ resizes pf s = true
                       /\ dims_are (query_width pf) (query_height pf) s'))
  /\ (forall uninit inputBuffer s ev,
        dims_are 0 0 s ->
        In ev (emitted (fst (process_input_events uninit inputBuffer s))) ->
        divided_by_zero ev)
  /\ (forall uninit ib s pss,
        dims_are 0 0 s ->
        map handed_pointers (motionEvents ib) = map Some pss ->
        exists t s',
          process_input_events uninit (Some ib) s = (t, Some (tt, s'))
          /\ map (fun e => (TouchScreenEvent.pos e,
                            TouchScreenEvent.norm_pos e)) (emitted t)
             = map (fun p => (raw p, over_zero p)) (List.concat pss)
          /\ Forall (fun e => outside_unit_square
                                (TouchScreenEvent.norm_pos e)) (emitted t)
          /\ dims_are 0 0 s').
Proof.
  split; [intros v; split; reflexivity|].
  split; [exact step_size|].
  split.
  { intros u ib s ev D.
    apply all_emitted_In, process_input_events_unsized, D. }
  intros u ib s pss [Dw Dh] H.
  destruct (process_input_events_handed u ib s pss H)
    as (t & s' & E & Hmap & Hw & Hh).
  assert (Hz : forall p, normalized s p = over_zero p).
  { intros p. unfold normalized, over_zero. now rewrite Dw, Dh. }
  assert (Hmap' : map (fun e => (TouchScreenEvent.pos e,
                                 TouchScreenEvent.norm_pos e)) (emitted t)
                  = map (fun p => (raw p, over_zero p)) (List.concat pss)).
  { rewrite Hmap. apply map_ext. intros p. now rewrite Hz. }
  exists t, s'. split; [exact E|]. split; [exact Hmap'|].
  split; [|split; congruence].
  apply Forall_forall. intros e He.
  apply (in_map (fun e => (TouchScreenEvent.pos e,
                           TouchScreenEvent.norm_pos e))) in He.
  rewrite Hmap' in He. apply in_map_iff in He.
  destruct He as (p & Hp & _). injection Hp as _ Hn.
  rewrite <- Hn. apply over_zero_outside.
Qed.

Lemma Move_delta_is_against_the_first_record_witness :
  let s := engine_after_events
             [one_pointer AMOTION_EVENT_ACTION_DOWN 0 50 50;
              one_pointer AMOTION_EVENT_ACTION_DOWN 4 25 50] in
  let me := mkMotionEvent AMOTION_EVENT_ACTION_MOVE 2
              (pointer_slots [mkAxes 0 (F32.of_int 75) (F32.of_int 100);
                              mkAxes 4 (F32.of_int 75) (F32.of_int 100)]) in
  (find_if 4 (previous_positions s)
   = Some (mkPosition (F32.ratio 1 4) (F32.ratio 1 4))
   /\ exists t s' e,
        process_motion_event some_event me s = (t, Some (tt, s'))
        /\ nth_error (emitted t) 1 = Some e
        /\ TouchScreenEvent.id e = 4
        /\ TouchScreenEvent.move_ndelta e =
           mkPosition (F32.ratio 1 2) (F32.ratio 1 4))
  /\ (find_if 0 (previous_positions engine_100x200) = None
      /\ exists t s',
           process_motion_events (fun _ => some_event) 0
             (single AMOTION_EVENT_ACTION_DOWN
                (mkAxes 0 (F32.of_int 50) (F32.of_int 50))
              :: map (single AMOTION_EVENT_ACTION_MOVE)
                   [mkAxes 0 (F32.of_int 75) (F32.of_int 100);
                    mkAxes 0 (F32.of_int 25) (F32.of_int 20)])
             engine_100x200
           = (t, Some (tt, s'))
           /\ map TouchScreenEvent.move_ndelta (tl (emitted t)) =
              [mkPosition (F32.ratio 1 4) (F32.ratio 1 4);
               mkPosition (F32.ratio (-1) 2) (F32.ratio (-2) 5)]).
Proof.
  cbv zeta.
  destruct Move_delta_is_against_the_first_record
    as (_ & Hbatch & _ & _ & Hgesture).
  split.
  - split; [evaluate|].
    assert (Hb : is_move_batch
                   (mkMotionEvent AMOTION_EVENT_ACTION_MOVE 2
                      (pointer_slots
                         [mkAxes 0 (F32.of_int 75) (F32.of_int 100);
                          mkAxes 4 (F32.of_int 75) (F32.of_int 100)]))).
    { split; [evaluate|]. split; [evaluate | vm_compute; discriminate]. }
    destruct (Hbatch some_event
                (mkMotionEvent AMOTION_EVENT_ACTION_MOVE 2
                   (pointer_slots
                      [mkAxes 0 (F32.of_int 75) (F32.of_int 100);
                       mkAxes 4 (F32.of_int 75) (F32.of_int 100)]))
                (engine_after_events
                   [one_pointer AMOTION_EVENT_ACTION_DOWN 0 50 50;
                    one_pointer AMOTION_EVENT_ACTION_DOWN 4 25 50])
                1 (mkAxes 4 (F32.of_int 75) (F32.of_int 100))
                (mkPosition (F32.ratio 1 4) (F32.ratio 1 4))
                Hb ltac:(change (0 <= 1 < 2); lia)
                ltac:(evaluate) ltac:(evaluate))
      as (t & s' & e & E & Hnth & _ & Hid & _ & Hd & _).
    { intros j q Hj Hne Hq. change (0 <= j < 2) in Hj.
      assert (j = 0) by lia. subst j.
      vm_compute in Hq. injection Hq as <-. vm_compute. discriminate. }
    exists t, s', e. split; [exact E|]. split; [exact Hnth|].
    split; [exact Hid|]. rewrite Hd. evaluate.
  - split; [evaluate|].
    destruct (Hgesture (fun _ => some_event) 0%nat engine_100x200
                (mkAxes 0 (F32.of_int 50) (F32.of_int 50))
                [mkAxes 0 (F32.of_int 75) (F32.of_int 100);
                 mkAxes 0 (F32.of_int 25) (F32.of_int 20)]
                ltac:(evaluate)
                ltac:(repeat constructor))
      as (t & s' & E & _ & Hd & _).
    exists t, s'. split; [exact E|].
    rewrite Hd. evaluate.
Defined.

Lemma unsized_events_are_not_normalized_witness :
  let s := NativeEngine_new GameLoop_vertices in
  let p0 := mkAxes 0 (F32.of_int 50) (F32.of_int 50) in
  let p1 := mkAxes 0 (F32.of_int 75) (F32.of_int 100) in
  let p2 := mkAxes 4 (F32.of_int 20) (F32.of_int 30) in
  let ib := mkInputBuffer
              [single AMOTION_EVENT_ACTION_DOWN p0;
               mkMotionEvent AMOTION_EVENT_ACTION_MOVE 2
                 (pointer_slots [p1; p2]);
               single AMOTION_EVENT_ACTION_UP p1] in
  dims_are 0 0 s
  /\ map handed_pointers (motionEvents ib)
     = map Some [[p0]; [p1; p2]; [p1]]
  /\ exists t s',
       process_input_events (fun _ => some_event) (Some ib) s
       = (t, Some (tt, s'))
       /\ map TouchScreenEvent.norm_pos (emitted t) =
          repeat (mkPosition (S754_infinity false) (S754_infinity false)) 4
       /\ Forall divided_by_zero (emitted t).
Proof.
  cbv zeta.
  destruct unsized_events_are_not_normalized as (Hnew & _ & Hdiv & Hall).
  split; [apply Hnew|]. split; [evaluate|].
  destruct (Hall (fun _ => some_event)
              (mkInputBuffer
                 [single AMOTION_EVENT_ACTION_DOWN
                    (mkAxes 0 (F32.of_int 50) (F32.of_int 50));
                  mkMotionEvent AMOTION_EVENT_ACTION_MOVE 2
                    (pointer_slots
                       [mkAxes 0 (F32.of_int 75) (F32.of_int 100);
                        mkAxes 4 (F32.of_int 20) (F32.of_int 30)]);
                  single AMOTION_EVENT_ACTION_UP
                    (mkAxes 0 (F32.of_int 75) (F32.of_int 100))])
              (NativeEngine_new GameLoop_vertices)
              [[mkAxes 0 (F32.of_int 50) (F32.of_int 50)];
               [mkAxes 0 (F32.of_int 75) (F32.of_int 100);
                mkAxes 4 (F32.of_int 20) (F32.of_int 30)];
               [mkAxes 0 (F32.of_int 75) (F32.of_int 100)]]
              (Hnew GameLoop_vertices) ltac:(evaluate))
    as (t & s' & E & Hmap & _ & _).
  exists t, s'. split; [exact E|]. split.
  - apply (f_equal (map snd)) in Hmap. rewrite !map_map in Hmap.
    cbn [snd] in Hmap. etransitivity; [exact Hmap | evaluate].
  - apply Forall_forall. intros ev Hev.
    match type of E with
    | process_input_events ?u ?b ?s = _ =>
        pose proof (Hdiv u b s ev (Hnew GameLoop_vertices)) as Hd
    end.
    rewrite E in Hd. exact (Hd Hev).
Defined.
